(** * aicssegmentation.core.utils : a shallow embedding and its properties

    The Python module works on NumPy arrays.  An array is modelled by its
    shape and its elements in row-major (C) order, the order of [ravel()].
    Library calls whose code is not part of the module (skimage's [label],
    [medial_axis], [erosion], scipy's [distance_transform_edt], LAPACK's
    [eigvalsh], ...) are parameters of the definitions that use them; what
    the proofs need from them is stated as an explicit contract. *)

From Stdlib Require Import String.
From Stdlib Require Import List ZArith QArith Qround Qabs Lia Bool Arith.
From Stdlib Require Import Relations Permutation Sorted Lqa.
Import ListNotations.
Close Scope Q_scope.
Open Scope nat_scope.

Set Implicit Arguments.

(* ===================================================================== *)
(** * Part I: definitions                                                  *)
(* ===================================================================== *)

(** ** Python outcomes *)

Inductive exn : Type :=
| IndexError
| ValueError
| TypeError
| ZeroDivisionError
| AttributeError.

(** A computation either yields a value or raises. *)
Inductive result (A : Type) : Type :=
| Ok (v : A)
| Raise (e : exn).
Arguments Ok {A} v.
Arguments Raise {A} e.

Definition bind {A B} (r : result A) (k : A -> result B) : result B :=
  match r with
  | Ok v => k v
  | Raise e => Raise e
  end.

Declare Scope py_scope.
Delimit Scope py_scope with py.
Notation "x <- r ;; k" := (bind r (fun x => k))
  (at level 61, r at next level, right associativity) : py_scope.
Open Scope py_scope.

(** What a call of a function that prints gives back: the lines written to
    standard output, and either an array, Python's [None], or an exception. *)
Inductive returned (A : Type) : Type :=
| RetVal (v : A)
| RetNone
| RetRaise (e : exn).
Arguments RetVal {A} v.
Arguments RetNone {A}.
Arguments RetRaise {A} e.

Record call (A : Type) : Type := mk_call {
  stdout : list string;
  retval : returned A
}.

Definition of_result {A} (r : result A) : call A :=
  match r with
  | Ok v => mk_call [] (RetVal v)
  | Raise e => mk_call [] (RetRaise e)
  end.

(** ** NumPy arrays *)

Module Np.

Record ndarray (A : Type) : Type := mk_ndarray {
  shape : list nat;
  data : list A
}.

Definition prod_shape (sh : list nat) : nat := fold_right Nat.mul 1 sh.

Definition ndim {A} (a : ndarray A) : nat := length (shape a).

(** The invariant of every array: as many elements as the shape says. *)
Definition wf {A} (a : ndarray A) : Prop :=
  length (data a) = prod_shape (shape a).

Definition ravel {A} (a : ndarray A) : list A := data a.

Definition copy {A} (a : ndarray A) : ndarray A :=
  mk_ndarray (shape a) (data a).

Definition map_nd {A B} (f : A -> B) (a : ndarray A) : ndarray B :=
  mk_ndarray (shape a) (map f (data a)).

Definition full {A} (sh : list nat) (x : A) : ndarray A :=
  mk_ndarray sh (repeat x (prod_shape sh)).

Definition zeros_like {A B} (zero : B) (a : ndarray A) : ndarray B :=
  full (shape a) zero.

(** [~a] on a boolean array. *)
Definition invert (a : ndarray bool) : ndarray bool := map_nd negb a.

Definition any (a : ndarray bool) : bool := existsb (fun b => b) (data a).

Fixpoint zip_with {A B C} (f : A -> B -> C) (l : list A) (k : list B)
  : list C :=
  match l, k with
  | x :: l', y :: k' => f x y :: zip_with f l' k'
  | _, _ => []
  end.

Definition shape_eqb (s t : list nat) : bool :=
  if list_eq_dec Nat.eq_dec s t then true else false.

(** An elementwise binary operation on two arrays of the same shape; other
    shapes are a [ValueError] (broadcasting between different shapes is
    not used by the module and is not modelled). *)
Definition elementwise {A B C} (f : A -> B -> C)
           (a : ndarray A) (b : ndarray B) : result (ndarray C) :=
  if shape_eqb (shape a) (shape b)
  then Ok (mk_ndarray (shape a) (zip_with f (data a) (data b)))
  else Raise ValueError.

(** [np.bincount(xs)]: entry [v] counts the occurrences of [v] in [xs];
    the length is one more than the largest element (0 for no element). *)
Definition bincount (xs : list nat) : list nat :=
  match xs with
  | [] => []
  | _ => map (fun v => count_occ Nat.eq_dec xs v)
             (seq 0 (S (fold_right Nat.max 0 xs)))
  end.

(** [table[idx]] with an integer index array: one lookup per element of
    [idx], an [IndexError] when one of them is out of range. *)
Fixpoint take_list {A} (table : list A) (idx : list nat) : result (list A) :=
  match idx with
  | [] => Ok []
  | i :: idx' =>
      match nth_error table i with
      | Some x => r <- take_list table idx' ;; Ok (x :: r)
      | None => Raise IndexError
      end
  end.

Definition take {A} (table : list A) (idx : ndarray nat)
  : result (ndarray A) :=
  r <- take_list table (data idx) ;; Ok (mk_ndarray (shape idx) r).

(** [a[mask] = v] with a boolean mask of the shape of [a]. *)
Definition set_where {A} (a : ndarray A) (mask : ndarray bool) (v : A)
  : result (ndarray A) :=
  elementwise (fun x (m : bool) => if m then v else x) a mask.

(** [a[zz, ...]]: the slice at position [zz] of the first axis. *)
Definition get_slice {A} (a : ndarray A) (zz : nat) : result (ndarray A) :=
  match shape a with
  | [] => Raise IndexError
  | d :: rest =>
      if zz <? d
      then Ok (mk_ndarray rest
                 (firstn (prod_shape rest)
                         (skipn (zz * prod_shape rest) (data a))))
      else Raise IndexError
  end.

(** [a[zz, ...] = v] for an array [v] of the shape of the slice, each
    element converted by [cast] to the element type of [a]. *)
Definition set_slice {A B} (cast : B -> A) (a : ndarray A) (zz : nat)
           (v : ndarray B) : result (ndarray A) :=
  match shape a with
  | [] => Raise IndexError
  | d :: rest =>
      if zz <? d
      then if shape_eqb rest (shape v)
           then Ok (mk_ndarray (shape a)
                      (firstn (zz * prod_shape rest) (data a)
                       ++ map cast (data v)
                       ++ skipn (S zz * prod_shape rest) (data a)))
           else Raise ValueError
      else Raise IndexError
  end.

(** Elements that [a > 0] can be asked of. *)
Class Scalar (A : Type) : Type := { positive : A -> bool }.
#[export] Instance Scalar_bool : Scalar bool := {| positive := fun b => b |}.
#[export] Instance Scalar_Z : Scalar Z := {| positive := fun z => (0 <? z)%Z |}.

(** [a > 0]. *)
Definition gt0 {A} `{Scalar A} (a : ndarray A) : ndarray bool :=
  map_nd positive a.

(** [np.logical_or(a, b)] of a boolean and an integer array. *)
Definition logical_or (a : ndarray bool) (b : ndarray nat)
  : result (ndarray bool) :=
  elementwise (fun x y => x || (0 <? y)) a b.

End Np.
Import Np.

(** ** Pixel grids and connected components *)

(** The multi-index of the flat position [p] in an array of shape [sh]. *)
Fixpoint unravel (sh : list nat) (p : nat) : list nat :=
  match sh with
  | [] => []
  | _ :: rest => p / prod_shape rest :: unravel rest (p mod prod_shape rest)
  end.

Definition dist1 (x y : nat) : nat := (x - y) + (y - x).

(** skimage's neighbourhoods: two pixels are neighbours at connectivity [c]
    when every coordinate differs by at most one and between one and [c]
    coordinates differ ([c = 1]: 4 neighbours in 2D, 6 in 3D). *)
Definition neighbours (c : nat) (a b : list nat) : bool :=
  let ds := zip_with dist1 a b in
  forallb (fun d => d <=? 1) ds
  && (1 <=? fold_right Nat.add 0 ds)
  && (fold_right Nat.add 0 ds <=? c).

(** One step inside the mask [m] of shape [sh]. *)
Definition adj (c : nat) (m : ndarray bool) (p q : nat) : Prop :=
  nth p (data m) false = true /\ nth q (data m) false = true /\
  neighbours c (unravel (shape m) p) (unravel (shape m) q) = true.

(** [p] and [q] lie in the same connected component of the mask. *)
Definition connected (c : nat) (m : ndarray bool) : nat -> nat -> Prop :=
  clos_refl_trans nat (adj c m).

(** What the module relies on when it calls [skimage.measure.label]: the
    label image has the shape of the mask, is 0 exactly off the mask, and
    two pixels of the mask carry the same label exactly when a path of
    neighbours inside the mask joins them. *)
Record label_contract (label : ndarray bool -> nat -> ndarray nat) : Prop := {
  label_shape : forall m c, shape (label m c) = shape m;
  label_length : forall m c, length (data (label m c)) = length (data m);
  label_zero : forall m c p,
      p < length (data m) ->
      (nth p (data (label m c)) 0 = 0 <-> nth p (data m) false = false);
  label_same : forall m c p q,
      nth p (data m) false = true -> nth q (data m) false = true ->
      (nth p (data (label m c)) 0 = nth q (data (label m c)) 0
       <-> connected c m p q)
}.

(** ** hole_filling *)

Section HoleFilling.

Variable label : ndarray bool -> nat -> ndarray nat.

(** The block that the three branches of [hole_filling] repeat: from the
    label image of the background keep the components whose size lies
    within the bounds, zero the others. *)
Definition size_filter (background_lab : ndarray nat)
           (hole_min hole_max : Z) : result (ndarray nat) :=
  let fill_out := copy background_lab in
  let component_sizes := bincount (ravel background_lab) in
  let too_big := map (fun s => (hole_max <? Z.of_nat s)%Z) component_sizes in
  too_big_mask <- take too_big background_lab ;;
  fill_out <- set_where fill_out too_big_mask 0 ;;
  let too_small := map (fun s => (Z.of_nat s <? hole_min)%Z) component_sizes in
  too_small_mask <- take too_small background_lab ;;
  set_where fill_out too_small_mask 0.

(** The loop [for zz in range(bw.shape[0])] of the slice-wise branch. *)
Fixpoint fill_slices (bw : ndarray bool) (hole_min hole_max : Z)
         (zs : list nat) (fill_out : ndarray bool)
  : result (ndarray bool) :=
  match zs with
  | [] => Ok fill_out
  | zz :: zs' =>
      slice <- get_slice bw zz ;;
      let background_lab := label (invert slice) 1 in
      out <- size_filter background_lab hole_min hole_max ;;
      fill_out <- set_slice (fun v => 0 <? v) fill_out zz out ;;
      fill_slices bw hole_min hole_max zs' fill_out
  end.

Definition logical_or_bool (a b : ndarray bool) : result (ndarray bool) :=
  elementwise orb a b.

Definition hole_filling {A} `{Scalar A} (bw : ndarray A)
           (hole_min hole_max : Z) (fill_2d : bool) : call (ndarray bool) :=
  let bw := gt0 bw in
  if ndim bw =? 2 then
    of_result (
      let background_lab := label (invert bw) 1 in
      fill_out <- size_filter background_lab hole_min hole_max ;;
      logical_or bw fill_out)
  else if ndim bw =? 3 then
    if fill_2d then
      of_result (
        let fill_out := zeros_like false bw in
        fill_out <- fill_slices bw hole_min hole_max
                      (seq 0 (hd 0 (shape bw))) fill_out ;;
        logical_or_bool bw fill_out)
    else
      of_result (
        let background_lab := label (invert bw) 1 in
        fill_out <- size_filter background_lab hole_min hole_max ;;
        logical_or bw fill_out)
  else
    mk_call ["error"%string] RetNone.

End HoleFilling.

(** What [size_filter] leaves of the label [l]: the label itself when the
    number of pixels carrying it lies within the bounds, 0 otherwise. *)
Definition kept (labels : list nat) (hole_min hole_max : Z) (l : nat) : nat :=
  let s := Z.of_nat (count_occ Nat.eq_dec labels l) in
  if (s <? hole_min)%Z then 0 else if (hole_max <? s)%Z then 0 else l.

(** The elements of the slice [zz] of the first axis, for slices of [r]
    elements. *)
Definition slice_data {A} (r : nat) (l : list A) (zz : nat) : list A :=
  firstn r (skipn (zz * r) l).

(** The fill mask of a whole mask [m]: the background pixels whose component
    passes the size filter. *)
Definition component_fill (label : ndarray bool -> nat -> ndarray nat)
           (m : ndarray bool) (hole_min hole_max : Z) : list bool :=
  let lab := label (invert m) 1 in
  map (fun l => 0 <? kept (data lab) hole_min hole_max l) (data lab).

(** The slice [zz] of the first axis as an array of its own. *)
Definition slice_of {A} (a : ndarray A) (zz : nat) : ndarray A :=
  let rest := tl (shape a) in
  mk_ndarray rest (slice_data (prod_shape rest) (data a) zz).

(** The fill mask that the slice-wise branch computes for the slice [zz]. *)
Definition slice_fill (label : ndarray bool -> nat -> ndarray nat)
           (bw : ndarray bool) (hole_min hole_max : Z) (zz : nat) : list bool :=
  component_fill label (slice_of bw zz) hole_min hole_max.

(** ** A labelling function

    A function that meets [label_contract], by flooding: the component of a
    pixel is grown from the pixel one ring of neighbours at a time, and the
    components are numbered 1, 2, ... in the raster order of their first
    pixel. *)

Section Flood.

Variable c : nat.
Variable m : ndarray bool.

Definition in_mask (p : nat) : bool := nth p (data m) false.

Definition step_to (p q : nat) : bool :=
  in_mask p && in_mask q
  && neighbours c (unravel (shape m) p) (unravel (shape m) q).

Definition mem (q : nat) (s : list nat) : bool := existsb (Nat.eqb q) s.

(** The pixels one step away from [s] that [s] does not hold yet. *)
Definition ring (s : list nat) : list nat :=
  filter (fun q => negb (mem q s) && existsb (fun p => step_to p q) s)
         (seq 0 (length (data m))).

Definition grow (s : list nat) : list nat := s ++ ring s.

Definition flood (p : nat) : list nat :=
  Nat.iter (length (data m)) grow [p].

(** A set of pixels that no step leaves. *)
Definition closed (s : list nat) : Prop :=
  forall p q, In p s -> step_to p q = true -> In q s.

(** The first pixel, in raster order, of the component of [p]. *)
Definition first_pixel (p : nat) : nat := fold_right Nat.min p (flood p).

Definition is_first (p : nat) : bool := in_mask p && (first_pixel p =? p).

Definition flood_label_at (p : nat) : nat :=
  if in_mask p
  then length (filter is_first (seq 0 (S (first_pixel p))))
  else 0.

End Flood.

Definition flood_label (m : ndarray bool) (c : nat) : ndarray nat :=
  mk_ndarray (shape m) (map (flood_label_at c m) (seq 0 (length (data m)))).

(** ** Sample inputs *)

(** A 3x3 ring around one background pixel. *)
Definition ring3x3 : ndarray Z :=
  mk_ndarray [3; 3] [1; 1; 1;
                     1; 0; 1;
                     1; 1; 1]%Z.

(** Two slices: the ring and an empty slice. *)
Definition stack2x3x3 : ndarray Z :=
  mk_ndarray [2; 3; 3] [1; 1; 1;  1; 0; 1;  1; 1; 1;
                        0; 0; 0;  0; 0; 0;  0; 0; 0]%Z.

Definition line5 : ndarray Z := mk_ndarray [5] [0; 1; 1; 0; 0]%Z.

(** ** topology_preserving_thinning *)

(** The float [1e-5]; floats are taken as the rationals they are, and their
    sums as exact. *)
Definition eps5 : Q := 1 # 100000.

Definition Qlt_bool (x y : Q) : bool := negb (Qle_bool y x).

Definition logical_xor (a b : ndarray bool) : result (ndarray bool) :=
  elementwise xorb a b.

Definition logical_and (a b : ndarray bool) : result (ndarray bool) :=
  elementwise andb a b.

(** [a[zz, :, :]]: two more axes must follow the first. *)
Definition get_plane {A} (a : ndarray A) (zz : nat) : result (ndarray A) :=
  if ndim a <? 3 then Raise IndexError else get_slice a zz.

(** [a[zz, :, :] = v]. *)
Definition set_plane {A} (a : ndarray A) (zz : nat) (v : ndarray A)
  : result (ndarray A) :=
  if ndim a <? 3 then Raise IndexError else set_slice (fun x => x) a zz v.

(** [a.shape[0]]. *)
Definition shape0 {A} (a : ndarray A) : result nat :=
  match shape a with
  | [] => Raise IndexError
  | d :: _ => Ok d
  end.

Section Thinning.

(** skimage's [medial_axis], scipy's [distance_transform_edt], skimage's
    [erosion] and [ball]. *)
Variable medial_axis : ndarray bool -> ndarray bool.
Variable distance_transform_edt : ndarray bool -> ndarray Q.
Variable footprint : Type.
Variable ball : Z -> footprint.
Variable erosion : ndarray bool -> footprint -> ndarray bool.

(** The loop that builds [safe_zone] slice by slice. *)
Fixpoint safe_zone_loop (bw : ndarray bool) (min_thickness : Q)
         (zs : list nat) (safe_zone : ndarray bool)
  : result (ndarray bool) :=
  match zs with
  | [] => Ok safe_zone
  | zz :: zs' =>
      plane <- get_plane bw zz ;;
      safe_zone <-
        (if any plane then
           let ctl := medial_axis (gt0 plane) in
           let dist :=
             distance_transform_edt (map_nd (fun b => negb b) ctl) in
           set_plane safe_zone zz
             (map_nd (fun x => Qlt_bool (min_thickness + eps5)%Q x) dist)
         else Ok safe_zone) ;;
      safe_zone_loop bw min_thickness zs' safe_zone
  end.

Definition safe_zone_of (bw : ndarray bool) (min_thickness : Q)
  : result (ndarray bool) :=
  d <- shape0 bw ;;
  safe_zone_loop bw min_thickness (seq 0 d) (zeros_like false bw).

Definition rm_candidate_of (bw : ndarray bool) (thin : Z)
  : result (ndarray bool) :=
  logical_xor (gt0 bw) (erosion (gt0 bw) (ball thin)).

Definition topology_preserving_thinning {A} `{Scalar A} (bw : ndarray A)
           (min_thickness : Q) (thin : Z) : result (ndarray bool) :=
  let bw := gt0 bw in
  safe_zone <- safe_zone_of bw min_thickness ;;
  rm_candidate <- rm_candidate_of bw thin ;;
  mask <- logical_and safe_zone rm_candidate ;;
  set_where bw mask false.

End Thinning.

(** Library functions keep the shape and the number of elements. *)
Definition shape_preserving {A B} (f : ndarray A -> ndarray B) : Prop :=
  forall x, shape (f x) = shape x /\ length (data (f x)) = length (data x).

(** Stand-ins for the library functions of the thinning, all of them
    shape-preserving: a skeleton that keeps the whole mask, a distance of 2
    wherever the argument is non-zero, an erosion that leaves nothing. *)
Definition keep_all (x : ndarray bool) : ndarray bool := x.

Definition two_off_zero (x : ndarray bool) : ndarray Q :=
  map_nd (fun b : bool => if b then 2%Q else 0%Q) x.

Definition erode_all (x : ndarray bool) (fp : unit) : ndarray bool :=
  map_nd (fun _ => false) x.

Definition unit_ball (radius : Z) : unit := tt.

(** ** Floats

    A float64 number is a rational, [inf], [-inf] or [nan].  Every
    operation gives the binary64 number nearest to the exact result, ties
    to the even mantissa, as IEEE 754 and so NumPy and Python have it.  The
    sign of a zero is not kept: no result of the functions of this module
    depends on it. *)

Inductive float : Type :=
| Finite (q : Q)
| PosInf
| NegInf
| NaN.

(** The integer nearest to [n / d], for [d > 0]; halves go to the even
    one. *)
Definition div_nearest_even (n d : Z) : Z :=
  let q := (n / d)%Z in
  let r := (n mod d)%Z in
  match (2 * r ?= d)%Z with
  | Lt => q
  | Gt => (q + 1)%Z
  | Eq => if Z.even q then q else (q + 1)%Z
  end.

(** [n / d] over [2 ^ e], as a fraction of integers. *)
Definition scale2 (n d e : Z) : Z * Z :=
  if (0 <=? e)%Z then (n, d * 2 ^ e)%Z else (n * 2 ^ (- e), d)%Z.

Definition pow2 (e : Z) : Q :=
  if (0 <=? e)%Z then inject_Z (2 ^ e) else 1 # Z.to_pos (2 ^ (- e)).

(** The binary64 number nearest to [n / d], for positive [n] and [d]: a
    mantissa of 53 bits, exponents from -1074 on, and [inf] from
    [2 ^ 1024] on. *)
Definition round_pos (n d : Pos.t) : float :=
  let e0 := (Z.log2 (Zpos n) - Z.log2 (Zpos d) - 52)%Z in
  let e1 := if (fst (scale2 (Zpos n) (Zpos d) e0)
                / snd (scale2 (Zpos n) (Zpos d) e0) <? 2 ^ 52)%Z
            then (e0 - 1)%Z else e0 in
  let e := Z.max e1 (-1074) in
  let m := div_nearest_even (fst (scale2 (Zpos n) (Zpos d) e))
                            (snd (scale2 (Zpos n) (Zpos d) e)) in
  if ((971 <? e) || ((e =? 971) && (2 ^ 53 <=? m)))%Z then PosInf
  else Finite (Qred (inject_Z m * pow2 e)).

Definition fneg (a : float) : float :=
  match a with
  | Finite q => Finite (Qred (- q))
  | PosInf => NegInf
  | NegInf => PosInf
  | NaN => NaN
  end.

(** The float64 number nearest to a rational. *)
Definition round64 (q : Q) : float :=
  match Qnum q with
  | Z0 => Finite 0
  | Zpos n => round_pos n (Qden q)
  | Zneg n => fneg (round_pos n (Qden q))
  end.

Definition is_neg (q : Q) : bool := (Qnum q <? 0)%Z.

Definition is_zero (q : Q) : bool := (Qnum q =? 0)%Z.

Definition sign_inf (negative : bool) : float :=
  if negative then NegInf else PosInf.

Definition fadd (a b : float) : float :=
  match a, b with
  | NaN, _ | _, NaN => NaN
  | PosInf, NegInf | NegInf, PosInf => NaN
  | PosInf, _ | _, PosInf => PosInf
  | NegInf, _ | _, NegInf => NegInf
  | Finite x, Finite y => round64 (x + y)
  end.

Definition fsub (a b : float) : float := fadd a (fneg b).

Definition fmul (a b : float) : float :=
  match a, b with
  | NaN, _ | _, NaN => NaN
  | Finite x, Finite y => round64 (x * y)
  | Finite x, PosInf | PosInf, Finite x =>
      if is_zero x then NaN else sign_inf (is_neg x)
  | Finite x, NegInf | NegInf, Finite x =>
      if is_zero x then NaN else sign_inf (negb (is_neg x))
  | PosInf, PosInf | NegInf, NegInf => PosInf
  | PosInf, NegInf | NegInf, PosInf => NegInf
  end.

(** A division by zero gives [inf] or [nan]: NumPy warns and goes on. *)
Definition fdiv (a b : float) : float :=
  match a, b with
  | NaN, _ | _, NaN => NaN
  | Finite x, Finite y =>
      if is_zero y
      then if is_zero x then NaN else sign_inf (is_neg x)
      else round64 (x / y)
  | Finite _, (PosInf | NegInf) => Finite 0
  | PosInf, Finite y => sign_inf (is_neg y)
  | NegInf, Finite y => sign_inf (negb (is_neg y))
  | (PosInf | NegInf), (PosInf | NegInf) => NaN
  end.

(** [a <= b] and [a < b]: false when one of them is [nan]. *)
Definition fle (a b : float) : bool :=
  match a, b with
  | NaN, _ | _, NaN => false
  | NegInf, _ | _, PosInf => true
  | Finite x, Finite y => Qle_bool x y
  | _, _ => false
  end.

Definition flt (a b : float) : bool :=
  match a, b with
  | NaN, _ | _, NaN => false
  | Finite x, Finite y => negb (Qle_bool y x)
  | NegInf, (Finite _ | PosInf) => true
  | Finite _, PosInf => true
  | _, _ => false
  end.

Definition is_nan (a : float) : bool :=
  match a with
  | NaN => true
  | _ => false
  end.

(** The conversion of an integer to float64. *)
Definition of_Z (z : Z) : float := round64 (inject_Z z).

Definition of_nat (n : nat) : float := of_Z (Z.of_nat n).

(** The rational that a finite float is. *)
Definition value_of (a : float) : Q :=
  match a with
  | Finite q => q
  | _ => 0%Q
  end.

(** ** histogram_otsu

    The bins and everything computed from them are float64 numbers. *)

(** The unit roundoff of float64. *)
Definition unit_roundoff : Q := 1 # 9007199254740992.

(** The float [1e-5]. *)
Definition float_1e_5 : float :=
  Eval vm_compute in round64 (1 # 100000).

(** Python's [x / y] on integers: the float nearest to the quotient. *)
Definition py_div (x y : Z) : result float :=
  if (y =? 0)%Z then Raise ZeroDivisionError
  else Ok (round64 (inject_Z x / inject_Z y)).

(** An elementwise operation on two 1-D arrays: of the same length, or one
    of them of length 1, which is broadcast. *)
Definition ew (f : float -> float -> float) (a b : list float)
  : result (list float) :=
  if length a =? length b then Ok (zip_with f a b)
  else match a, b with
       | [x], _ => Ok (map (f x) b)
       | _, [y] => Ok (map (fun x => f x y) a)
       | _, _ => Raise ValueError
       end.

Fixpoint cumsum_from (acc : float) (l : list float) : list float :=
  match l with
  | [] => []
  | x :: l' => fadd acc x :: cumsum_from (fadd acc x) l'
  end.

(** [np.cumsum]: the sums are taken one element after the other. *)
Definition cumsum (l : list float) : list float :=
  match l with
  | [] => []
  | x :: l' => x :: cumsum_from x l'
  end.

(** [np.arange(start, stop, step)] on floats:
    [ceil((stop - start) / step)] values, the first two [start] and
    [start + step], the others [start + i * delta] for the difference
    [delta] of the first two. *)
Definition arange (start stop step : float) : result (list float) :=
  match fdiv (fsub stop start) step with
  | Finite q =>
      let next := fadd start step in
      let delta := fsub next start in
      Ok (map (fun i => match i with
                        | 0 => start
                        | 1 => next
                        | _ => fadd start (fmul (of_nat i) delta)
                        end)
              (seq 0 (Z.to_nat (Qceiling q))))
  | _ => Raise ValueError
  end.

(** The loop of [np.argmax]: an element that is not [<=] the best one so
    far replaces it, and a [nan] ends the search. *)
Fixpoint argmax_from (best : float) (besti i : nat) (l : list float) : nat :=
  match l with
  | [] => besti
  | x :: l' =>
      if fle x best then argmax_from best besti (S i) l'
      else if is_nan x then i
      else argmax_from x i (S i) l'
  end.

(** [np.argmax]: the first position of the largest element, or of the
    first [nan]. *)
Definition argmax (l : list float) : result nat :=
  match l with
  | [] => Raise ValueError
  | x :: l' => Ok (if is_nan x then 0 else argmax_from x 0 1 l')
  end.

(** [l[idx]] for an index that is not negative. *)
Definition getitem {A} (l : list A) (idx : nat) : result A :=
  match nth_error l idx with
  | Some x => Ok x
  | None => Raise IndexError
  end.

(** [hist.astype(float)] changes nothing: [hist + 1e-5] is a float array
    already. *)
Definition histogram_otsu (hist : list float) : result float :=
  let hist := map (fun h => fadd h float_1e_5) hist in
  bin_size <- py_div 1 (Z.of_nat (length hist) - 1) ;;
  bin_centers <-
    arange (Finite 0) (fadd (Finite 1) (fmul (Finite (1 # 2)) bin_size))
           bin_size ;;
  let weight1 := cumsum hist in
  let weight2 := rev (cumsum (rev hist)) in
  hc <- ew fmul hist bin_centers ;;
  mean1 <- ew fdiv (cumsum hc) weight1 ;;
  hc' <- ew fmul hist bin_centers ;;
  m2 <- ew fdiv (cumsum (rev hc')) (rev weight2) ;;
  let mean2 := rev m2 in
  ww <- ew fmul (removelast weight1) (tl weight2) ;;
  diff <- ew fsub (removelast mean1) (tl mean2) ;;
  variance12 <- ew fmul ww (map (fun x => fmul x x) diff) ;;
  idx <- argmax variance12 ;;
  getitem (removelast bin_centers) idx.

(** The array [variance12] that [histogram_otsu] takes the [argmax] of. *)
Definition variance12_of (hist : list float) : result (list float) :=
  let hist := map (fun h => fadd h float_1e_5) hist in
  bin_size <- py_div 1 (Z.of_nat (length hist) - 1) ;;
  bin_centers <-
    arange (Finite 0) (fadd (Finite 1) (fmul (Finite (1 # 2)) bin_size))
           bin_size ;;
  let weight1 := cumsum hist in
  let weight2 := rev (cumsum (rev hist)) in
  hc <- ew fmul hist bin_centers ;;
  mean1 <- ew fdiv (cumsum hc) weight1 ;;
  hc' <- ew fmul hist bin_centers ;;
  m2 <- ew fdiv (cumsum (rev hc')) (rev weight2) ;;
  let mean2 := rev m2 in
  ww <- ew fmul (removelast weight1) (tl weight2) ;;
  diff <- ew fsub (removelast mean1) (tl mean2) ;;
  ew fmul ww (map (fun x => fmul x x) diff).

(** The array [bin_centers] for [n] bins. *)
Definition bin_centers_of (n : nat) : result (list float) :=
  bin_size <- py_div 1 (Z.of_nat n - 1) ;;
  arange (Finite 0) (fadd (Finite 1) (fmul (Finite (1 # 2)) bin_size))
         bin_size.

(** The sum of a list of floats, one element after the other. *)
Definition fsum (l : list float) : float :=
  match l with
  | [] => Finite 0
  | x :: l' => fold_left fadd l' x
  end.

(** The between-class variance [w1 * w2 * (mean1 - mean2)^2] of the split
    after the bin [j], as the code computes it for the bin weights [h] and
    the bin centres [c]: class 1 is made of the bins up to [j] and summed
    from the first bin on, class 2 of the bins after [j], summed from the
    last bin back; the weight of a class is the sum of its bins, its mean
    the sum of its bins times their centres over its weight. *)
Definition between_class_variance (h c : list float) (j : nat) : float :=
  let hc := zip_with fmul h c in
  let w1 := fsum (firstn (S j) h) in
  let w2 := fsum (rev (skipn (S j) h)) in
  let mean1 := fdiv (fsum (firstn (S j) hc)) w1 in
  let mean2 := fdiv (fsum (rev (skipn (S j) hc))) w2 in
  fmul (fmul w1 w2) (fmul (fsub mean1 mean2) (fsub mean1 mean2)).

Definition qsum (l : list Q) : Q := fold_right Qplus 0%Q l.

(** In the words of the specification, in exact arithmetic: the
    between-class variance [w1 * w2 * (mean1 - mean2)^2] of the split after
    the bin [j], for the bin weights [h] and the bin centres [c]. *)
Definition exact_between_class_variance (h c : list Q) (j : nat) : Q :=
  let hc := zip_with Qmult h c in
  let w1 := qsum (firstn (S j) h) in
  let w2 := qsum (skipn (S j) h) in
  let mean1 := (qsum (firstn (S j) hc) / w1)%Q in
  let mean2 := (qsum (skipn (S j) hc) / w2)%Q in
  (w1 * w2 * ((mean1 - mean2) * (mean1 - mean2)))%Q.

(** ** absolute_eigenvaluesh and sortbyabs

    Eigenvalues are floats, taken as the rationals they are; absolute values
    and comparisons of floats are exact. *)

(** How NumPy reads [a[index]] when [index] is a list of arrays: up to
    NumPy 1.22 as [a[tuple(index)]], one index array per axis; from NumPy
    1.23 on as [a[np.array(index)]], one index array for the first axis. *)
Inductive list_index : Type :=
| ListAsTuple
| ListAsArray.

(** What the module needs of [argsort] along a lane: the positions of the
    keys, in ascending order of the keys.  NumPy's default sort is not
    stable: the order of equal keys is not fixed. *)
Definition sorts (argsort : list Q -> list nat) : Prop :=
  forall keys,
    Permutation (argsort keys) (seq 0 (length keys))
    /\ StronglySorted (fun i j => nth i keys 0 <= nth j keys 0)%Q
                      (argsort keys).

Fixpoint insert_by (key : nat -> Q) (i : nat) (l : list nat) : list nat :=
  match l with
  | [] => [i]
  | j :: l' =>
      if Qle_bool (key i) (key j) then i :: l else j :: insert_by key i l'
  end.

(** An [argsort] for the examples: insertion sort, equal keys in the order
    of their positions. *)
Definition insertion_argsort (keys : list Q) : list nat :=
  fold_right (insert_by (fun i => nth i keys 0%Q)) [] (seq 0 (length keys)).

(** The elements of [dt] along one axis of length [len]: [inner] elements
    lie between two neighbours of a lane, [o] counts the positions on the
    axes before and [i] on the axes after. *)
Definition lane (dt : list Q) (len inner o i : nat) : list Q :=
  map (fun j => nth ((o * len + j) * inner + i) dt 0%Q) (seq 0 len).

(** [np.unravel_index] and [np.ravel_multi_index]: the multi-index of the
    flat position [p] in an array of shape [sh], in C order, and back. *)
Fixpoint unravel_index (sh : list nat) (p : nat) : list nat :=
  match sh with
  | [] => []
  | _ :: sh' => p / prod_shape sh' :: unravel_index sh' (p mod prod_shape sh')
  end.

Fixpoint ravel_multi_index (sh m : list nat) : nat :=
  match sh, m with
  | _ :: sh', i :: m' => i * prod_shape sh' + ravel_multi_index sh' m'
  | _, _ => 0
  end.

(** Broadcasting: shapes are aligned at their last axes, and an axis of
    length 1 is stretched. *)
Definition pad (n : nat) (sh : list nat) : list nat :=
  repeat 1 (n - length sh) ++ sh.

Fixpoint broadcast2 (s t : list nat) : option (list nat) :=
  match s, t with
  | [], [] => Some []
  | x :: s', y :: t' =>
      match broadcast2 s' t' with
      | Some r =>
          if x =? 1 then Some (y :: r)
          else if (y =? 1) || (y =? x) then Some (x :: r)
          else None
      | None => None
      end
  | _, _ => None
  end.

Definition broadcast_pair (s t : list nat) : option (list nat) :=
  let n := Nat.max (length s) (length t) in
  broadcast2 (pad n s) (pad n t).

Definition broadcast_shapes (l : list (list nat)) : option (list nat) :=
  fold_left (fun acc s =>
               match acc with
               | Some r => broadcast_pair r s
               | None => None
               end)
            l (Some []).

(** A shape that stretches to [sh]. *)
Definition below (s sh : list nat) : Prop :=
  Forall2 (fun x y => x = 1 \/ x = y) s sh.

(** On an axis of length 1 every position reads the one element. *)
Definition clip (n i : nat) : nat := if n =? 1 then 0 else i.

(** The element that the index array [idx], stretched to the shape [bsh],
    has at the multi-index [m]. *)
Definition stretched (idx : ndarray nat) (bsh m : list nat) : nat :=
  let s := pad (length bsh) (shape idx) in
  nth (ravel_multi_index s (zip_with clip s m)) (data idx) 0.

(** [a[index]] for a tuple [index] of integer arrays, one for each of the
    first axes of [a]: the index arrays are broadcast to one shape, and at
    every position of that shape they name, together, the element of [a], or
    the block of [a] when axes are left, that the result has there. *)
Definition getitem_tuple (a : ndarray Q) (index : list (ndarray nat))
  : result (ndarray Q) :=
  if ndim a <? length index then Raise IndexError
  else
    match broadcast_shapes (map (fun idx => shape idx) index) with
    | None => Raise IndexError
    | Some bsh =>
        let picks :=
          map (fun p =>
                 map (fun idx => stretched idx bsh (unravel_index bsh p)) index)
              (seq 0 (prod_shape bsh)) in
        let axes := firstn (length index) (shape a) in
        let rest := skipn (length index) (shape a) in
        if forallb (fun pick =>
                      forallb (fun '(i, n) => i <? n) (combine pick axes))
                   picks
        then
          Ok (mk_ndarray (bsh ++ rest)
                (flat_map
                   (fun pick =>
                      map (fun q =>
                             nth (ravel_multi_index axes pick * prod_shape rest
                                  + q) (data a) 0%Q)
                          (seq 0 (prod_shape rest)))
                   picks))
        else Raise IndexError
    end.

(** [np.array(index)] for a list of arrays: the arrays stacked along a new
    first axis when they have one shape, [ValueError] (from NumPy 1.24 on)
    when they do not. *)
Definition np_array (l : list (ndarray nat)) : result (ndarray nat) :=
  match l with
  | [] => Ok (mk_ndarray [0] [])
  | x :: l' =>
      if forallb (fun y => if list_eq_dec Nat.eq_dec (shape y) (shape x)
                           then true else false) l'
      then Ok (mk_ndarray (length l :: shape x) (flat_map (fun y => data y) l))
      else Raise ValueError
  end.

(** [np.ix_] of the [np.arange] of every axis: for every axis the positions
    along it, in an array that has the length of the axis on that axis and 1
    on the others. *)
Definition ix_ (sh : list nat) : list (ndarray nat) :=
  map (fun k =>
         mk_ndarray (repeat 1 k ++ nth k sh 0 :: repeat 1 (length sh - S k))
                    (seq 0 (nth k sh 0)))
      (seq 0 (length sh)).

(** [index[k] = v] on a list. *)
Definition setitem_list {A} (l : list A) (k : nat) (v : A) : list A :=
  firstn k l ++ v :: skipn (S k) l.

Section SortByAbs.

(** The NumPy at hand: how it reads a list as an index, and its
    [argsort]. *)
Variable numpy_list_index : list_index.
Variable argsort : list Q -> list nat.

(** [np.abs(a).argsort(k)]: at the position [j] of a lane along the axis
    [k], the position in the lane of the element that comes [j]-th. *)
Definition argsort_abs (a : ndarray Q) (k : nat) : ndarray nat :=
  let len := nth k (shape a) 0 in
  let inner := prod_shape (skipn (S k) (shape a)) in
  mk_ndarray (shape a)
    (map (fun p =>
            let o := p / (len * inner) in
            let j := (p / inner) mod len in
            let i := p mod inner in
            nth j (argsort (map Qabs (lane (data a) len inner o i))) 0)
         (seq 0 (length (data a)))).

(** [a[index]] for a list [index] of arrays. *)
Definition getitem_list (a : ndarray Q) (index : list (ndarray nat))
  : result (ndarray Q) :=
  match numpy_list_index with
  | ListAsTuple => getitem_tuple a index
  | ListAsArray => arr <- np_array index ;; getitem_tuple a [arr]
  end.

Definition sortbyabs (a : ndarray Q) (axis : Z) : result (ndarray Q) :=
  let d := Z.of_nat (ndim a) in
  if ((axis <? - d) || (d <=? axis))%Z then Raise IndexError
  else
    let k := Z.to_nat (axis mod d) in
    let index := ix_ (shape a) in
    let index := setitem_list index k (argsort_abs a k) in
    getitem_list a index.

End SortByAbs.

(** [np.split(a, a.shape[-1], axis=-1)]: one array per position of the last
    axis, that axis kept with length 1. *)
Definition split_last (a : ndarray Q) : result (list (ndarray Q)) :=
  match rev (shape a) with
  | [] => Raise IndexError
  | n :: rbatch =>
      if n =? 0 then Raise ZeroDivisionError
      else
        let batch := rev rbatch in
        Ok (map (fun k =>
                   mk_ndarray (batch ++ [1])
                     (map (fun b => nth (b * n + k) (data a) 0%Q)
                          (seq 0 (prod_shape batch))))
                (seq 0 n))
  end.

(** [np.squeeze(a, axis=-1)]. *)
Definition squeeze_last (a : ndarray Q) : result (ndarray Q) :=
  match rev (shape a) with
  | 1 :: rbatch => Ok (mk_ndarray (rev rbatch) (data a))
  | _ => Raise ValueError
  end.

Fixpoint map_result {A B} (f : A -> result B) (l : list A) : result (list B) :=
  match l with
  | [] => Ok []
  | x :: l' => y <- f x ;; ys <- map_result f l' ;; Ok (y :: ys)
  end.

Section Eigen.

Variable numpy_list_index : list_index.
Variable argsort : list Q -> list nat.

(** [np.linalg.eigvalsh]. *)
Variable eigvalsh : ndarray Q -> ndarray Q.

Definition absolute_eigenvaluesh (nd_array : ndarray Q)
  : result (list (ndarray Q)) :=
  let eigenvalues := eigvalsh nd_array in
  sorted_eigenvalues <- sortbyabs numpy_list_index argsort eigenvalues (-1) ;;
  parts <- split_last sorted_eigenvalues ;;
  map_result squeeze_last parts.

End Eigen.

(** The matrix [[3, 0], [0, -5]]. *)
Definition diag_3_m5 : ndarray Q := mk_ndarray [2; 2] [3; 0; 0; -5]%Q.

(** The eigenvalues of a diagonal matrix are its diagonal; [eigvalsh] gives
    them in ascending order.  A stand-in that knows the matrices of the
    examples. *)
Definition eigvalsh_diag (x : ndarray Q) : ndarray Q :=
  match data x with
  | [a; _; _; b] =>
      mk_ndarray [2] (if Qle_bool a b then [a; b] else [b; a])
  | [a; _; _; b; c; _; _; d] =>
      mk_ndarray [2; 2]
        ((if Qle_bool a b then [a; b] else [b; a])
         ++ (if Qle_bool c d then [c; d] else [d; c]))
  | _ => mk_ndarray [0] []
  end.

(** A stack of two matrices: [[3, 0], [0, -5]] and [[1, 0], [0, 2]]. *)
Definition diag_stack : ndarray Q :=
  mk_ndarray [2; 2; 2] [3; 0; 0; -5; 1; 0; 0; 2]%Q.

(** The values that the arrays of a list hold at the position [b]. *)
Definition rank_tuple (parts : list (ndarray Q)) (b : nat) : list Q :=
  map (fun part => nth b (data part) 0%Q) parts.

(** ** get_3dseed_from_mid_frame *)

(** What the module reads of an entry of [regionprops]. *)
Record region : Type := mk_region {
  region_label : nat;
  centroid : list Q
}.

(** [np.round] on one float: to the nearest integer, halves to the even
    one. *)
Definition round_half_even (x : Q) : Z :=
  let f := Qfloor x in
  let r := (x - inject_Z f)%Q in
  if Qlt_bool r (1 # 2) then f
  else if Qlt_bool (1 # 2) r then (f + 1)%Z
  else if Z.even f then f else (f + 1)%Z.

(** An index [i] on an axis of length [d]: negative indices count from the
    end. *)
Definition norm_index (i : Z) (d : nat) : result nat :=
  if ((i <? - Z.of_nat d) || (Z.of_nat d <=? i))%Z then Raise IndexError
  else Ok (Z.to_nat (i mod Z.of_nat d)).

(** [a[iz, iy, ix] = v]: one element of a 3D array, a whole block of an
    array of more axes. *)
Definition setitem3 (a : ndarray Q) (iz iy ix : Z) (v : Q)
  : result (ndarray Q) :=
  match shape a with
  | d :: h :: w :: rest =>
      z <- norm_index iz d ;;
      y <- norm_index iy h ;;
      x <- norm_index ix w ;;
      let block := prod_shape rest in
      let off := ((z * h + y) * w + x) * block in
      Ok (mk_ndarray (shape a)
            (firstn off (data a) ++ repeat v block
             ++ skipn (off + block) (data a)))
  | _ => Raise IndexError
  end.

(** [a[0, :, :] = v]. *)
Definition fill_plane0 (a : ndarray Q) (v : Q) : result (ndarray Q) :=
  match shape a with
  | d :: h :: w :: rest =>
      if d =? 0 then Raise IndexError
      else
        let plane := prod_shape (h :: w :: rest) in
        Ok (mk_ndarray (shape a) (repeat v plane ++ skipn plane (data a)))
  | _ => Raise IndexError
  end.

(** The loop over [stat]: one seed per region, numbered on from
    [seed_count]. *)
Fixpoint place_seeds (stat : list region) (mid_frame : Z)
         (seed : ndarray Q) (seed_count : Z) : result (ndarray Q) :=
  match stat with
  | [] => Ok seed
  | r :: stat' =>
      match map round_half_even (centroid r) with
      | [py; px] =>
          let seed_count := (seed_count + 1)%Z in
          seed <- setitem3 seed mid_frame py px (inject_Z seed_count) ;;
          place_seeds stat' mid_frame seed seed_count
      | _ => Raise ValueError
      end
  end.

Section Seed.

(** skimage's [remove_small_objects], [label] and [regionprops]. *)
Variable remove_small_objects : ndarray bool -> Z -> ndarray bool.
Variable label : ndarray bool -> nat -> ndarray nat.
Variable regionprops : ndarray nat -> list region.

(** The regions that get a seed. *)
Definition seed_regions {A} `{Scalar A} (bw : ndarray A) (hole_min : Z)
  : list region :=
  let out := remove_small_objects (gt0 bw) hole_min in
  let out1 := label out (ndim out) in
  regionprops out1.

Definition get_3dseed_from_mid_frame {A} `{Scalar A} (bw : ndarray A)
           (stack_shape : list nat) (mid_frame : Z) (hole_min : Z)
           (bg_seed : bool) : result (ndarray Q) :=
  let out := remove_small_objects (gt0 bw) hole_min in
  let out1 := label out (ndim out) in
  let stat := regionprops out1 in
  let seed := full stack_shape 0%Q in
  let seed_count := 0%Z in
  st <- (if bg_seed
         then seed <- fill_plane0 seed 1%Q ;; Ok (seed, (seed_count + 1)%Z)
         else Ok (seed, seed_count)) ;;
  place_seeds stat mid_frame (fst st) (snd st).

End Seed.

(** The flat position, in a stack of planes of [h] rows and [w] columns, of
    the seed of a region in the plane [z]. *)
Definition seed_offset (z h w : nat) (r : region) : nat :=
  match map round_half_even (centroid r) with
  | [py; px] => (z * h + Z.to_nat py) * w + Z.to_nat px
  | _ => 0
  end.

(** The centroid has two coordinates and rounds to a pixel of the plane. *)
Definition centroid_in_plane (h w : nat) (r : region) : bool :=
  match map round_half_even (centroid r) with
  | [py; px] =>
      ((0 <=? py) && (py <? Z.of_nat h) && (0 <=? px) && (px <? Z.of_nat w))%Z
  | _ => false
  end.

(** The id left at the position [p] by seeds written, in this order, at the
    positions [offs] with the ids [c + 1], [c + 2], ...: the id of the last
    one written there. *)
Fixpoint seed_id_at (offs : list nat) (c : Z) (p : nat) : option Z :=
  match offs with
  | [] => None
  | o :: offs' =>
      match seed_id_at offs' (c + 1) p with
      | Some i => Some i
      | None => if o =? p then Some (c + 1)%Z else None
      end
  end.

(** Stand-ins for the library functions of the seeds, on the flooding
    labelling: objects are the components at connectivity 1, and the
    centroid of a label is the mean position of its pixels. *)
Definition remove_small (ar : ndarray bool) (min_size : Z) : ndarray bool :=
  let ccs := flood_label ar 1 in
  let component_sizes := bincount (data ccs) in
  mk_ndarray (shape ar)
    (zip_with (fun (x : bool) l =>
                 if (Z.of_nat (nth l component_sizes 0%nat) <? min_size)%Z
                 then false else x)
              (data ar) (data ccs)).

Definition pixels_of (lab : ndarray nat) (l : nat) : list nat :=
  filter (fun p => nth p (data lab) 0 =? l) (seq 0 (length (data lab))).

Definition mean_coordinate (lab : ndarray nat) (pixels : list nat)
           (axis : nat) : Q :=
  let total :=
    fold_right Nat.add 0
      (map (fun p => nth axis (unravel (shape lab) p) 0) pixels) in
  (inject_Z (Z.of_nat total) / inject_Z (Z.of_nat (length pixels)))%Q.

Definition region_means (lab : ndarray nat) : list region :=
  map (fun l => mk_region l
                  (map (mean_coordinate lab (pixels_of lab l))
                       (seq 0 (ndim lab))))
      (filter (fun l => negb (length (pixels_of lab l) =? 0))
              (seq 1 (fold_right Nat.max 0 (data lab)))).

(** One pixel in a 2x2 image, and two components around the same centre. *)
Definition dot2x2 : ndarray Z := mk_ndarray [2; 2] [1; 0; 0; 0]%Z.

Definition ring_and_dot : ndarray Z :=
  mk_ndarray [5; 5] [1; 1; 1; 1; 1;
                     1; 0; 0; 0; 1;
                     1; 0; 1; 0; 1;
                     1; 0; 0; 0; 1;
                     1; 1; 1; 1; 1]%Z.

(** ** divide_nonzero

    Arrays are objects: [np.copy] makes a new one and the masked assignment
    changes an object in place, so the function is modelled on a store of
    arrays, which it takes and gives back.  An array carries its dtype; an
    assignment converts the value to it. *)

Inductive dtype : Type := Int64 | Float64.

Record array : Type := mk_array {
  dtype_of : dtype;
  values : ndarray Q
}.

(** The float [1e-10], as the rational that it is. *)
Definition tiny : Q :=
  Eval vm_compute in value_of (round64 (1 # 10000000000)).

(** Conversion of a float to an integer dtype: towards zero. *)
Definition truncate (x : Q) : Z :=
  if Qle_bool 0 x then Qfloor x else Qceiling x.

Definition cast (t : dtype) (x : Q) : Q :=
  match t with
  | Float64 => x
  | Int64 => inject_Z (truncate x)
  end.

(** One element of [np.divide]: both operands are converted to float64
    and divided as floats; a zero denominator gives [inf] or [nan] and a
    warning, no exception, and a quotient too large gives [inf]. *)
Definition true_divide (x y : Q) : float :=
  fdiv (round64 x) (round64 y).

Definition heap : Type := list array.

Definition load (hp : heap) (r : nat) : result array :=
  match nth_error hp r with
  | Some a => Ok a
  | None => Raise TypeError
  end.

Definition alloc (hp : heap) (a : array) : heap * nat :=
  (hp ++ [a], length hp).

Definition store (hp : heap) (r : nat) (a : array) : heap :=
  firstn r hp ++ [a] ++ skipn (r + 1) hp.

(** [np.copy(a)]: a new object with the dtype and the elements of [a]. *)
Definition np_copy (hp : heap) (r : nat) : result (heap * nat) :=
  a <- load hp r ;; Ok (alloc hp a).

(** [a[a == 0] = v], in place. *)
Definition set_where_zero (hp : heap) (r : nat) (v : Q) : result heap :=
  a <- load hp r ;;
  let mask := map_nd (fun x => Qeq_bool x 0) (values a) in
  new <- elementwise (fun x (m : bool) => if m then cast (dtype_of a) v else x)
           (values a) mask ;;
  Ok (store hp r (mk_array (dtype_of a) new)).

(** [np.divide(a, b)]: a new float array. *)
Definition np_true_divide (hp : heap) (r1 r2 : nat)
  : result (ndarray float) :=
  a <- load hp r1 ;;
  b <- load hp r2 ;;
  elementwise true_divide (values a) (values b).

Definition divide_nonzero (hp : heap) (array1 array2 : nat)
  : result (heap * ndarray float) :=
  st <- np_copy hp array2 ;;
  let (hp, denominator) := st in
  hp <- set_where_zero hp denominator tiny ;;
  res <- np_true_divide hp array1 denominator ;;
  Ok (hp, res).

(** A float numerator over an integer array that holds a zero. *)
Definition int_zero_heap : heap :=
  [mk_array Float64 (mk_ndarray [2] [1; 6]%Q);
   mk_array Int64 (mk_ndarray [2] [0; 3]%Q)].


(** The part of [safe_zone] that the loop of the thinning leaves for the
    slice [zz]: the voxels farther than [min_thickness + 1e-5] from the
    medial axis of the slice, nothing for a slice without foreground. *)
Definition slice_safe (medial_axis : ndarray bool -> ndarray bool)
           (distance_transform_edt : ndarray bool -> ndarray Q)
           (bw : ndarray bool) (min_thickness : Q) (zz : nat) : list bool :=
  let plane := slice_of bw zz in
  if any plane
  then
    let ctl := medial_axis (gt0 plane) in
    let dist := distance_transform_edt (map_nd (fun b => negb b) ctl) in
    map (fun x => Qlt_bool (min_thickness + eps5)%Q x) (data dist)
  else repeat false (prod_shape (tl (shape bw))).

(** [distance_transform_edt] gives the distance 0 at the zeros of its
    argument. *)
Definition zero_at_zeros (edt : ndarray bool -> ndarray Q) : Prop :=
  forall x p, p < length (data x) -> nth p (data x) false = false ->
              (nth p (data (edt x)) 0 == 0)%Q.

(** ** Further sample inputs *)

(** A 3x3x3 block around one background voxel. *)
Definition shell3x3x3 : ndarray Z :=
  mk_ndarray [3; 3; 3] [1; 1; 1;  1; 1; 1;  1; 1; 1;
                        1; 1; 1;  1; 0; 1;  1; 1; 1;
                        1; 1; 1;  1; 1; 1;  1; 1; 1]%Z.


(** The image that decides whether [hole_filling] fills the voxel [p] of
    the mask [bw], and the position of the voxel in that image: the slice of
    the voxel when a 3D mask is filled slice by slice, the mask itself
    otherwise. *)
Definition fill_unit (bw : ndarray bool) (fill_2d : bool) (p : nat)
  : ndarray bool * nat :=
  if (ndim bw =? 3) && fill_2d
  then let r := prod_shape (tl (shape bw)) in (slice_of bw (p / r), p mod r)
  else (bw, p).


(** The elements that [sortbyabs] returns for lanes of [len] elements that
    lie [inner] elements apart. *)
Definition sort_lanes (argsort : list Q -> list nat) (dt : list Q)
           (len inner : nat) : list Q :=
  map (fun p =>
         let o := p / (len * inner) in
         let j := (p / inner) mod len in
         let i := p mod inner in
         let ln := lane dt len inner o i in
         nth (nth j (argsort (map Qabs ln)) 0) ln 0%Q)
      (seq 0 (length dt)).

(** The axis that a Python index [axis] names in an array of [d] axes. *)
Definition norm_axis (axis : Z) (d : nat) : nat :=
  Z.to_nat (if (axis <? 0)%Z then axis + Z.of_nat d else axis).

(** A 2x3 array of floats. *)
Definition grid2x3 : ndarray Q := mk_ndarray [2; 3] [3; -1; 2; -2; 4; -1]%Q.


(** ** get_middle_frame *)

(** How a call that can end the interpreter comes back: with a value, with
    an exception, or not at all, [quit()] having raised [SystemExit]. *)
Inductive ending (A : Type) : Type :=
| Returns (v : A)
| Raises (e : exn)
| Exits.
Arguments Returns {A} v.
Arguments Raises {A} e.
Arguments Exits {A}.

Record run (A : Type) : Type := mk_run {
  printed : list string;
  ending_of : ending A
}.

Definition run_of {A} (r : result A) : run A :=
  match r with
  | Ok v => mk_run [] (Returns v)
  | Raise e => mk_run [] (Raises e)
  end.

(** [np.count_nonzero] of a boolean array. *)
Definition count_nonzero (a : ndarray bool) : nat :=
  length (filter (fun b : bool => b) (data a)).

(** [l[i] = v] on a 1-D array, for an index that is not negative. *)
Definition setitem1 {A} (l : list A) (i : nat) (v : A) : result (list A) :=
  if i <? length l
  then Ok (firstn i l ++ [v] ++ skipn (S i) l)
  else Raise IndexError.

(** The loop that counts the foreground of every slice. *)
Fixpoint z_profile_loop (bw : ndarray bool) (zs : list nat)
         (z_profile : list nat) : result (list nat) :=
  match zs with
  | [] => Ok z_profile
  | zz :: zs' =>
      plane <- get_plane bw zz ;;
      z_profile <- setitem1 z_profile zz (count_nonzero plane) ;;
      z_profile_loop bw zs' z_profile
  end.

Section MiddleFrame.

(** skimage's [threshold_otsu], which raises on some images, and
    [round(x).astype(int)] on a NumPy float [x]: the built-in [round] hands
    over to NumPy, and what comes back depends on its version. *)
Variable threshold_otsu : ndarray Q -> result Q.
Variable round_astype_int : float -> result Z.

Definition get_middle_frame (struct_img_smooth : ndarray Q) (method : string)
  : run Z :=
  if String.eqb method "intensity" then
    run_of (
      threshold <- threshold_otsu struct_img_smooth ;;
      let bw := map_nd (fun x => Qlt_bool threshold x) struct_img_smooth in
      d <- shape0 bw ;;
      let z_profile := repeat 0 d in
      z_profile <- z_profile_loop bw (seq 0 d) z_profile ;;
      t <- histogram_otsu (map of_nat z_profile) ;;
      d <- shape0 bw ;;
      round_astype_int (fmul t (of_nat d)))
  else if String.eqb method "z" then
    run_of (d <- shape0 struct_img_smooth ;; Ok (Z.of_nat (d / 2)))
  else
    mk_run ["unsupported method"%string] Exits.

End MiddleFrame.

(** The counts that the loop of [get_middle_frame] leaves: the number of
    foreground pixels of every slice. *)
Definition z_profile_of (bw : ndarray bool) : list nat :=
  map (fun zz => count_nonzero (slice_of bw zz)) (seq 0 (hd 0 (shape bw))).

(** [round(x).astype(int)] from NumPy 1.19 on: [round] gives a Python
    [int], which has no [astype]. *)
Definition round_to_python_int (x : float) : result Z := Raise AttributeError.

(** A threshold that suits the examples: the mean of the least and the
    largest element. *)
Definition mid_range (img : ndarray Q) : result Q :=
  match data img with
  | [] => Raise ValueError
  | x :: l =>
      let lo := fold_right (fun a b => if Qle_bool a b then a else b) x l in
      let hi := fold_right (fun a b => if Qle_bool a b then b else a) x l in
      Ok ((lo + hi) / 2)%Q
  end.

(** Three slices of 2x2 pixels, brighter from slice to slice. *)
Definition ramp3x2x2 : ndarray Q :=
  mk_ndarray [3; 2; 2] [0; 0; 0; 1;  0; 4; 4; 4;  4; 4; 4; 4]%Q.

(** One slice of 2x2 pixels. *)
Definition flat1x2x2 : ndarray Q := mk_ndarray [1; 2; 2] [0; 4; 4; 0]%Q.


(** ** levelset_segmentation *)

Inductive heaviside_step : Type :=
| AtanRegularizedHeaviside
| SinRegularizedHeaviside.

(** What the setters of SimpleITK's
    [ScalarChanAndVeseDenseLevelSetImageFilter] are given. *)
Record chan_vese_parameters : Type := mk_chan_vese {
  maximum_rms_error : Q;
  number_of_iterations : Z;
  lambda1 : Q;
  lambda2 : Q;
  epsilon : Q;
  curvature_weight : Q;
  area_weight : Q;
  reinitialization_smoothing_weight : Q;
  volume : Q;
  volume_matching_weight : Q;
  heaviside_step_function : heaviside_step
}.

Section LevelSet.

(** skimage's [find_boundaries] with [mode='outer'], scipy's
    [distance_transform_edt], the [Execute] of the SimpleITK filter on the
    images of an initial level set and of the smoothed image (the
    conversions between arrays and images included), skimage's [label] and
    [ball], and scipy's [binary_opening], which is handed whatever
    [hole_filling] has returned, [None] included. *)
Variable find_boundaries : ndarray bool -> nat -> ndarray bool.
Variable distance_transform_edt : ndarray bool -> ndarray Q.
Variable chan_vese :
  chan_vese_parameters -> ndarray Q -> ndarray Q -> result (ndarray Q).
Variable label : ndarray bool -> nat -> ndarray nat.
Variable footprint : Type.
Variable ball : Z -> footprint.
Variable binary_opening :
  option (ndarray bool) -> footprint -> result (ndarray bool).

(** The initial level set, for a boolean [seed]. *)
Definition init_levelset_of (seed : ndarray bool) : result (ndarray Q) :=
  let level0 := find_boundaries seed 1 in
  init_levelset <-
    elementwise Qminus (distance_transform_edt (invert seed))
                       (distance_transform_edt seed) ;;
  set_where init_levelset level0 0%Q.

Definition levelset_segmentation (smooth_img : ndarray Q) (seed : ndarray bool)
           (niter : Z) (max_error epsilon curvature_weight smoothing_weight : Q)
  : call (ndarray Z) :=
  let ls :=
    init_levelset <- init_levelset_of seed ;;
    chan_vese
      {| maximum_rms_error := max_error;
         number_of_iterations := niter;
         lambda1 := 1;
         lambda2 := 1;
         epsilon := epsilon;
         curvature_weight := curvature_weight;
         area_weight := 0;
         reinitialization_smoothing_weight := smoothing_weight;
         volume := 0;
         volume_matching_weight := 0;
         heaviside_step_function := AtanRegularizedHeaviside |}
      init_levelset smooth_img in
  match ls with
  | Raise e => mk_call [] (RetRaise e)
  | Ok ls =>
      let out := map_nd (fun x => if Qlt_bool 0 x then 1%Z else 0%Z) ls in
      let filled := hole_filling label out 100 1500 false in
      match retval filled with
      | RetRaise e => mk_call (stdout filled) (RetRaise e)
      | returned_value =>
          let out := match returned_value with
                     | RetVal v => Some v
                     | _ => None
                     end in
          match binary_opening out (ball 4) with
          | Ok opened =>
              mk_call (stdout filled)
                (RetVal (map_nd (fun b : bool => if b then 1%Z else 0%Z)
                                opened))
          | Raise e => mk_call (stdout filled) (RetRaise e)
          end
      end
  end.

End LevelSet.

(** Stand-ins for the library functions of the level set: no boundary, a
    filter that returns the smoothed image as the level set, and an opening
    that leaves an array as it is. *)
Definition no_boundary (x : ndarray bool) (connectivity : nat) : ndarray bool :=
  map_nd (fun _ => false) x.

Definition pass_image (p : chan_vese_parameters) (init img : ndarray Q)
  : result (ndarray Q) := Ok img.

Definition open_nothing (x : option (ndarray bool)) (fp : unit)
  : result (ndarray bool) :=
  match x with
  | Some a => Ok a
  | None => Raise TypeError
  end.

(** A 3x3x3 image, bright around a dark voxel. *)
Definition bright_shell : ndarray Q :=
  mk_ndarray [3; 3; 3] [1; 1; 1;  1; 1; 1;  1; 1; 1;
                        1; 1; 1;  1; 0; 1;  1; 1; 1;
                        1; 1; 1;  1; 1; 1;  1; 1; 1]%Q.

(** A seed in the middle of the 3x3x3 image. *)
Definition centre_seed : ndarray bool :=
  mk_ndarray [3; 3; 3]
    (map (fun p => p =? 13) (seq 0 27)).


(** The parameters that [levelset_segmentation] sets the filter to. *)
Definition levelset_parameters (niter : Z)
           (max_error epsilon curvature_weight smoothing_weight : Q)
  : chan_vese_parameters :=
  {| maximum_rms_error := max_error;
     number_of_iterations := niter;
     lambda1 := 1;
     lambda2 := 1;
     epsilon := epsilon;
     curvature_weight := curvature_weight;
     area_weight := 0;
     reinitialization_smoothing_weight := smoothing_weight;
     volume := 0;
     volume_matching_weight := 0;
     heaviside_step_function := AtanRegularizedHeaviside |}.

(** [binary_opening] gives, for an array, an array of the same shape whose
    foreground lies in that of the argument. *)
Definition opening_shrinks {footprint : Type}
           (binary_opening : option (ndarray bool) -> footprint
                             -> result (ndarray bool)) : Prop :=
  forall x fp, exists o,
    binary_opening (Some x) fp = Ok o
    /\ shape o = shape x
    /\ length (data o) = length (data x)
    /\ forall p, nth p (data o) false = true -> nth p (data x) false = true.


(** A float in [[0, 1)]. *)
Definition in_unit (a : float) : bool := fle (Finite 0) a && flt a (Finite 1).

(** [np.arange] yields one centre per bin, all of them but the last in
    [[0, 1)]. *)
Definition centers_fit (n : nat) : bool :=
  match bin_centers_of n with
  | Ok c => (length c =? n) && forallb in_unit (removelast c)
  | Raise _ => false
  end.




(* ===================================================================== *)
(** * Part II: properties                                                  *)
(* ===================================================================== *)

(** ** Arrays *)

Lemma Qlt_bool_iff (x y : Q) : Qlt_bool x y = true <-> (x < y)%Q.
Proof.
  unfold Qlt_bool. rewrite negb_true_iff, <- not_true_iff_false, Qle_bool_iff.
  split; [apply Qnot_le_lt|apply Qlt_not_le].
Qed.

Lemma Qlt_bool_false (x y : Q) : Qlt_bool x y = false <-> (y <= x)%Q.
Proof.
  unfold Qlt_bool. rewrite negb_false_iff. apply Qle_bool_iff.
Qed.


Lemma shape_eqb_refl (s : list nat) : shape_eqb s s = true.
Proof. unfold shape_eqb. destruct (list_eq_dec Nat.eq_dec s s); congruence. Qed.

Lemma shape_eqb_true (s t : list nat) : shape_eqb s t = true -> s = t.
Proof. unfold shape_eqb. destruct (list_eq_dec Nat.eq_dec s t); congruence. Qed.

Lemma elementwise_ok {A B C} (f : A -> B -> C) (a : ndarray A) (b : ndarray B) :
  shape a = shape b ->
  elementwise f a b = Ok (mk_ndarray (shape a) (zip_with f (data a) (data b))).
Proof. intros E. unfold elementwise. rewrite E, shape_eqb_refl. reflexivity. Qed.

Lemma zip_with_length {A B C} (f : A -> B -> C) l k :
  length l = length k -> length (zip_with f l k) = length l.
Proof.
  revert k; induction l as [|x l IH]; intros [|y k]; simpl; intros E;
    try discriminate; auto.
Qed.

Lemma zip_with_nth {A B C} (f : A -> B -> C) l k p da db dc :
  length l = length k -> p < length l ->
  nth p (zip_with f l k) dc = f (nth p l da) (nth p k db).
Proof.
  revert k p; induction l as [|x l IH]; intros [|y k] p; simpl; intros E Hp;
    try discriminate; try lia.
  destruct p as [|p]; [reflexivity|]. apply IH; lia.
Qed.

Lemma zip_with_map_r {A B B' C} (f : A -> B -> C) (g : B' -> B) l k :
  zip_with f l (map g k) = zip_with (fun x y => f x (g y)) l k.
Proof.
  revert k; induction l as [|x l IH]; intros [|y k]; simpl; auto.
  now rewrite IH.
Qed.

Lemma zip_with_diag {A C} (f : A -> A -> C) l :
  zip_with f l l = map (fun x => f x x) l.
Proof. induction l as [|x l IH]; simpl; auto. now rewrite IH. Qed.

Lemma map_nth_lt {A B} (f : A -> B) (l : list A) (d : A) (e : B) p :
  p < length l -> nth p (map f l) e = f (nth p l d).
Proof.
  intros Hp. rewrite (nth_indep _ e (f d)) by now rewrite length_map.
  apply map_nth.
Qed.

Lemma take_list_ok {A} (table : list A) (idx : list nat) (d : A) :
  Forall (fun i => i < length table) idx ->
  take_list table idx = Ok (map (fun i => nth i table d) idx).
Proof.
  induction 1 as [|i idx Hi _ IH]; simpl; [reflexivity|].
  destruct (nth_error table i) as [x|] eqn:E.
  - rewrite IH. simpl. now rewrite (nth_error_nth _ _ d E).
  - apply nth_error_None in E. lia.
Qed.

(** ** bincount *)

Lemma le_fold_max (xs : list nat) v : In v xs -> v <= fold_right Nat.max 0 xs.
Proof.
  induction xs as [|x xs IH]; simpl; [tauto|].
  intros [->|Hin]; [lia|]. specialize (IH Hin). lia.
Qed.

Lemma bincount_covers (xs : list nat) v : In v xs -> v < length (bincount xs).
Proof.
  intros Hin. unfold bincount. destruct xs as [|x xs]; [destruct Hin|].
  rewrite length_map, length_seq. apply le_fold_max in Hin. lia.
Qed.

Lemma bincount_nth (xs : list nat) v :
  nth v (bincount xs) 0 = count_occ Nat.eq_dec xs v.
Proof.
  unfold bincount. destruct xs as [|x xs]; [now destruct v|].
  set (ys := x :: xs). set (m := fold_right Nat.max 0 ys).
  destruct (Nat.lt_ge_cases v (S m)) as [Hlt|Hge].
  - rewrite nth_indep with (d' := count_occ Nat.eq_dec ys 0)
      by now rewrite length_map, length_seq.
    change (count_occ Nat.eq_dec ys 0)
      with ((fun v => count_occ Nat.eq_dec ys v) 0).
    rewrite map_nth, seq_nth by lia. reflexivity.
  - rewrite nth_overflow by (rewrite length_map, length_seq; lia).
    symmetry. apply count_occ_not_In. intros Hin.
    apply le_fold_max in Hin. fold m in Hin. lia.
Qed.

(** ** hole_filling: the size filter *)

Lemma size_filter_ok (lab : ndarray nat) (hole_min hole_max : Z) :
  size_filter lab hole_min hole_max
  = Ok (mk_ndarray (shape lab)
          (map (kept (data lab) hole_min hole_max) (data lab))).
Proof.
  unfold size_filter, take, ravel, set_where, copy.
  assert (Hr : Forall (fun i => i < length (bincount (data lab))) (data lab)).
  { apply Forall_forall. intros v Hv. now apply bincount_covers. }
  rewrite (take_list_ok _ false) by now rewrite length_map.
  simpl. rewrite elementwise_ok by reflexivity. simpl.
  rewrite (take_list_ok _ false) by now rewrite length_map.
  simpl. rewrite elementwise_ok by reflexivity. simpl.
  f_equal. f_equal.
  rewrite !zip_with_map_r.
  assert (G : forall (xs ys : list nat) (f g : nat -> bool),
             zip_with (fun x y => if g y then 0 else x)
               (zip_with (fun x y => if f y then 0 else x) xs ys) ys
             = zip_with (fun x y => if g y then 0 else if f y then 0 else x)
                 xs ys).
  { induction xs as [|x xs IH]; intros [|y ys] f g; simpl; auto.
    now rewrite IH. }
  rewrite G, zip_with_diag. apply map_ext_in. intros l Hl. unfold kept.
  apply bincount_covers in Hl.
  rewrite (map_nth_lt _ _ 0 false), bincount_nth by assumption.
  destruct (Z.of_nat _ <? hole_min)%Z eqn:E1; [reflexivity|].
  rewrite (map_nth_lt _ _ 0 false), bincount_nth by assumption.
  reflexivity.
Qed.

(** ** hole_filling: the slice-wise loop *)

Lemma slice_data_length {A} (l : list A) d r zz :
  length l = d * r -> zz < d -> length (slice_data r l zz) = r.
Proof.
  intros Hl Hz. unfold slice_data. rewrite length_firstn, length_skipn. nia.
Qed.

Section FillSlices.

Variable label : ndarray bool -> nat -> ndarray nat.
Hypothesis label_ok : label_contract label.

Lemma slice_fill_length (bw : ndarray bool) hole_min hole_max d rest zz :
  shape bw = d :: rest -> wf bw -> zz < d ->
  length (slice_fill label bw hole_min hole_max zz) = prod_shape rest.
Proof.
  intros Hs Hw Hz. unfold slice_fill, component_fill, slice_of.
  rewrite length_map.
  rewrite (label_length label_ok). simpl. rewrite length_map, Hs. simpl.
  apply slice_data_length with d; auto.
  unfold wf in Hw. rewrite Hw, Hs. reflexivity.
Qed.

Lemma fill_slices_ok (bw : ndarray bool) hole_min hole_max d rest :
  shape bw = d :: rest -> wf bw ->
  forall n k (fill_out : ndarray bool),
    k + n = d ->
    shape fill_out = d :: rest ->
    length (data fill_out) = d * prod_shape rest ->
    fill_slices label bw hole_min hole_max (seq k n) fill_out
    = Ok (mk_ndarray (d :: rest)
            (firstn (k * prod_shape rest) (data fill_out)
             ++ concat (map (slice_fill label bw hole_min hole_max)
                            (seq k n)))).
Proof.
  intros Hs Hw. induction n as [|n IH]; intros k fill_out Hk Hsf Hlf.
  - simpl. rewrite app_nil_r, firstn_all2 by nia.
    destruct fill_out as [sh dt]; simpl in *. now subst.
  - simpl. unfold get_slice. rewrite Hs.
    assert (Hkd : k < d) by lia.
    apply Nat.ltb_lt in Hkd as Hkd'. rewrite Hkd'. simpl.
    rewrite size_filter_ok. simpl.
    unfold set_slice. rewrite Hsf, Hkd'.
    rewrite (label_shape label_ok). simpl. rewrite shape_eqb_refl. simpl.
    rewrite IH; simpl; auto; try lia.
    + f_equal. f_equal. rewrite map_map.
      set (r := prod_shape rest).
      set (chunk := map _ (data (label _ 1))).
      assert (Hc : chunk = slice_fill label bw hole_min hole_max k).
      { unfold chunk, slice_fill, component_fill, slice_of.
        rewrite Hs. reflexivity. }
      assert (Hcl : length chunk = r).
      { rewrite Hc. now apply slice_fill_length with d. }
      rewrite Hc in *. rewrite app_assoc, firstn_app.
      rewrite firstn_all2
        by (rewrite length_app, length_firstn, Hcl; nia).
      replace (r + k * r - _) with 0
        by (rewrite length_app, length_firstn, Hcl; nia).
      rewrite firstn_O, app_nil_r, <- app_assoc. reflexivity.
    + rewrite !length_app, !length_map, length_firstn, length_skipn.
      rewrite (label_length label_ok). simpl. rewrite length_map.
      fold (slice_data (prod_shape rest) (data bw) k).
      rewrite (@slice_data_length _ _ d); auto.
      * nia.
      * unfold wf in Hw. rewrite Hw, Hs. reflexivity.
Qed.

End FillSlices.

(** ** hole_filling: what each branch returns *)

Section HoleFillingBranches.

Variable label : ndarray bool -> nat -> ndarray nat.
Hypothesis label_ok : label_contract label.

Lemma component_fill_length (m : ndarray bool) hole_min hole_max :
  length (component_fill label m hole_min hole_max) = length (data m).
Proof.
  unfold component_fill. rewrite length_map, (label_length label_ok).
  simpl. apply length_map.
Qed.

(** The whole-array branches (2D, and 3D with [fill_2d] false). *)
Lemma hole_filling_whole {A} `{Scalar A} (bw : ndarray A)
      hole_min hole_max fill_2d :
  ndim bw = 2 \/ (ndim bw = 3 /\ fill_2d = false) ->
  hole_filling label bw hole_min hole_max fill_2d
  = mk_call [] (RetVal (mk_ndarray (shape bw)
      (zip_with orb (data (gt0 bw))
         (component_fill label (gt0 bw) hole_min hole_max)))).
Proof.
  intros Hd. unfold hole_filling.
  assert (E : of_result
                (fill_out <- size_filter (label (invert (gt0 bw)) 1)
                               hole_min hole_max ;;
                 logical_or (gt0 bw) fill_out)
              = mk_call [] (RetVal (mk_ndarray (shape bw)
                  (zip_with orb (data (gt0 bw))
                     (component_fill label (gt0 bw) hole_min hole_max))))).
  { rewrite size_filter_ok. simpl. unfold logical_or.
    rewrite elementwise_ok
      by (simpl; rewrite (label_shape label_ok); reflexivity).
    simpl. unfold component_fill. rewrite !zip_with_map_r. reflexivity. }
  change (ndim (gt0 bw)) with (ndim bw).
  destruct Hd as [Hd|[Hd ->]]; rewrite Hd; simpl; exact E.
Qed.

(** The slice-wise branch. *)
Lemma hole_filling_slices {A} `{Scalar A} (bw : ndarray A)
      hole_min hole_max :
  ndim bw = 3 -> wf bw ->
  hole_filling label bw hole_min hole_max true
  = mk_call [] (RetVal (mk_ndarray (shape bw)
      (zip_with orb (data (gt0 bw))
         (concat (map (slice_fill label (gt0 bw) hole_min hole_max)
                      (seq 0 (hd 0 (shape bw)))))))).
Proof.
  intros Hd Hw. unfold hole_filling.
  change (ndim (gt0 bw)) with (ndim bw). rewrite Hd. simpl.
  unfold ndim in Hd.
  destruct (shape bw) as [|d rest] eqn:Hs; [discriminate|].
  assert (Hw' : wf (gt0 bw)).
  { unfold wf in *. simpl. rewrite length_map, Hw, Hs. reflexivity. }
  assert (Hs' : shape (gt0 bw) = d :: rest) by exact Hs.
  rewrite (@fill_slices_ok label label_ok (gt0 bw) hole_min hole_max d rest
             Hs' Hw' d 0);
    [ | simpl; try rewrite Hs; simpl; rewrite ?repeat_length; auto ..].
  simpl. unfold logical_or_bool.
  rewrite elementwise_ok by (simpl; congruence).
  simpl. rewrite Hs. reflexivity.
Qed.

End HoleFillingBranches.

(** ** Connected components *)

Lemma connected_in_mask c (m : ndarray bool) p q :
  connected c m p q ->
  nth p (data m) false = true -> nth q (data m) false = true.
Proof.
  induction 1 as [p q [_ [Hq _]]| |p q r _ IH1 _ IH2]; auto.
Qed.

(** Paths survive when the mask grows. *)
Lemma connected_mono c (m m' : ndarray bool) p q :
  shape m = shape m' ->
  (forall r, nth r (data m) false = true -> nth r (data m') false = true) ->
  connected c m p q -> connected c m' p q.
Proof.
  intros Hs Hsub. induction 1 as [p q [Hp [Hq Hn]]| |p q r _ IH1 _ IH2].
  - apply rt_step. unfold adj. rewrite <- Hs. auto.
  - apply rt_refl.
  - eapply rt_trans; eauto.
Qed.

(** Paths survive when the mask shrinks to a set closed under steps. *)
Lemma connected_restrict c (m m' : ndarray bool) p q :
  shape m = shape m' ->
  (forall r s, nth r (data m') false = true -> adj c m r s ->
               nth s (data m') false = true) ->
  nth p (data m') false = true ->
  connected c m p q -> connected c m' p q.
Proof.
  intros Hs Hclosed Hp Hc. apply clos_rt_rt1n in Hc.
  induction Hc as [p|p r q Hpr _ IH]; [apply rt_refl|].
  assert (Hr : nth r (data m') false = true) by (eapply Hclosed; eauto).
  eapply rt_trans; [|apply IH; exact Hr].
  apply rt_step. destruct Hpr as [_ [_ Hn]]. unfold adj. rewrite <- Hs. auto.
Qed.

(** ** Counting the pixels of a label *)

Lemma count_occ_positions (xs : list nat) v :
  count_occ Nat.eq_dec xs v
  = length (filter (fun q => nth q xs 0 =? v) (seq 0 (length xs))).
Proof.
  induction xs as [|x xs IH]; [reflexivity|].
  cbn [length seq filter count_occ]. rewrite <- seq_shift, IH.
  change (nth 0 (x :: xs) 0) with x.
  assert (E : forall l, filter (fun q => nth q (x :: xs) 0 =? v) (map S l)
                        = map S (filter (fun q => nth q xs 0 =? v) l)).
  { induction l as [|a l IHl]; [reflexivity|].
    cbn [map filter]. rewrite IHl.
    change (nth (S a) (x :: xs) 0) with (nth a xs 0).
    destruct (nth a xs 0 =? v); reflexivity. }
  rewrite E.
  destruct (Nat.eq_dec x v) as [->|Hne].
  - rewrite Nat.eqb_refl. cbn [length]. now rewrite length_map.
  - apply Nat.eqb_neq in Hne. rewrite Hne. now rewrite length_map.
Qed.

(** A duplicate-free list of exactly the positions carrying [v] has as many
    elements as [v] has occurrences. *)
Lemma count_occ_enum (xs : list nat) v (comp : list nat) :
  NoDup comp ->
  (forall q, In q comp <-> q < length xs /\ nth q xs 0 = v) ->
  count_occ Nat.eq_dec xs v = length comp.
Proof.
  intros Hnd Hin. rewrite count_occ_positions.
  apply Permutation_length, NoDup_Permutation; auto.
  - apply NoDup_filter, seq_NoDup.
  - intros q. rewrite filter_In, in_seq, Nat.eqb_eq, Hin. lia.
Qed.

Lemma count_occ_same_positions (xs ys : list nat) v w :
  length xs = length ys ->
  (forall q, q < length xs -> (nth q xs 0 = v <-> nth q ys 0 = w)) ->
  count_occ Nat.eq_dec xs v = count_occ Nat.eq_dec ys w.
Proof.
  intros Hl Hq. rewrite (@count_occ_enum xs v
    (filter (fun q => nth q ys 0 =? w) (seq 0 (length ys)))).
  - symmetry. apply count_occ_positions.
  - apply NoDup_filter, seq_NoDup.
  - intros q. rewrite filter_In, in_seq, Nat.eqb_eq, <- Hl.
    split; intros [H1 H2]; split; try lia; apply Hq; auto; lia.
Qed.

(** ** hole_filling: which pixels the fill mask holds *)

Lemma kept_zero labels hole_min hole_max : kept labels hole_min hole_max 0 = 0.
Proof.
  unfold kept. destruct (Z.ltb _ hole_min); [reflexivity|].
  destruct (Z.ltb hole_max _); reflexivity.
Qed.

Lemma kept_positive labels hole_min hole_max l :
  l <> 0 ->
  ((0 <? kept labels hole_min hole_max l) = true
   <-> (hole_min <= Z.of_nat (count_occ Nat.eq_dec labels l) <= hole_max)%Z).
Proof.
  intros Hl. unfold kept.
  destruct (Z.ltb_spec (Z.of_nat (count_occ Nat.eq_dec labels l)) hole_min);
    [simpl; split; [discriminate|lia]|].
  destruct (Z.ltb_spec hole_max (Z.of_nat (count_occ Nat.eq_dec labels l)));
    [simpl; split; [discriminate|lia]|].
  rewrite Nat.ltb_lt. split; lia.
Qed.

Section ComponentFill.

Variable label : ndarray bool -> nat -> ndarray nat.
Hypothesis label_ok : label_contract label.

Lemma invert_nth (m : ndarray bool) p :
  p < length (data m) ->
  nth p (data (invert m)) false = negb (nth p (data m) false).
Proof. intros Hp. simpl. now apply map_nth_lt. Qed.

Lemma invert_mask_lt (m : ndarray bool) p :
  nth p (data (invert m)) false = true -> p < length (data m).
Proof.
  intros Hp. destruct (Nat.lt_ge_cases p (length (data m))); auto.
  rewrite nth_overflow in Hp; [discriminate|]. simpl. now rewrite length_map.
Qed.

Lemma component_fill_nth (m : ndarray bool) hole_min hole_max p :
  p < length (data m) ->
  nth p (component_fill label m hole_min hole_max) false
  = (0 <? kept (data (label (invert m) 1)) hole_min hole_max
            (nth p (data (label (invert m) 1)) 0)).
Proof.
  intros Hp. unfold component_fill.
  rewrite (map_nth_lt _ _ 0 false); [reflexivity|].
  rewrite (label_length label_ok). simpl. now rewrite length_map.
Qed.

(** The fill mask is empty on the foreground. *)
Lemma component_fill_foreground (m : ndarray bool) hole_min hole_max p :
  nth p (data m) false = true ->
  nth p (component_fill label m hole_min hole_max) false = false.
Proof.
  intros Hm.
  assert (Hp : p < length (data m)).
  { destruct (Nat.lt_ge_cases p (length (data m))); auto.
    rewrite nth_overflow in Hm; [discriminate|lia]. }
  rewrite component_fill_nth by assumption.
  assert (E : nth p (data (label (invert m) 1)) 0 = 0).
  { apply (label_zero label_ok).
    - simpl. now rewrite length_map.
    - rewrite invert_nth, Hm by assumption. reflexivity. }
  rewrite E, kept_zero. reflexivity.
Qed.

(** The pixels that carry the label of a background pixel [p] are the
    pixels of its component. *)
Lemma label_class (m : ndarray bool) p q :
  p < length (data m) -> nth p (data m) false = false ->
  (q < length (data (label (invert m) 1))
   /\ nth q (data (label (invert m) 1)) 0
      = nth p (data (label (invert m) 1)) 0)
  <-> connected 1 (invert m) p q.
Proof.
  intros Hp Hm.
  assert (Hip : nth p (data (invert m)) false = true)
    by (rewrite invert_nth, Hm; auto).
  assert (Hlp : nth p (data (label (invert m) 1)) 0 <> 0).
  { intros E. apply (label_zero label_ok) in E.
    - congruence.
    - simpl. now rewrite length_map. }
  rewrite (label_length label_ok). split.
  - intros [Hq E].
    assert (Hiq : nth q (data (invert m)) false = true).
    { destruct (nth q (data (invert m)) false) eqn:Eq; auto.
      apply (@label_zero _ label_ok (invert m) 1 q Hq) in Eq.
      congruence. }
    apply (label_same label_ok); auto.
  - intros Hc.
    assert (Hiq : nth q (data (invert m)) false = true)
      by (eapply connected_in_mask; eauto).
    split.
    + simpl. rewrite length_map. now apply invert_mask_lt.
    + symmetry. apply (label_same label_ok); auto.
Qed.

(** A background pixel is in the fill mask exactly when the number of
    pixels of its component lies within the bounds. *)
Lemma component_fill_background (m : ndarray bool) hole_min hole_max p comp :
  p < length (data m) -> nth p (data m) false = false ->
  NoDup comp ->
  (forall q, In q comp <-> connected 1 (invert m) p q) ->
  (nth p (component_fill label m hole_min hole_max) false = true
   <-> (hole_min <= Z.of_nat (length comp) <= hole_max)%Z).
Proof.
  intros Hp Hm Hnd Hcomp.
  rewrite component_fill_nth by assumption.
  rewrite kept_positive.
  - rewrite (@count_occ_enum _ _ comp); [reflexivity|assumption|].
    intros q. rewrite Hcomp. symmetry. now apply label_class.
  - intros E. apply (label_zero label_ok) in E.
    + rewrite invert_nth, Hm in E by assumption. discriminate.
    + simpl. now rewrite length_map.
Qed.

End ComponentFill.

(** ** hole_filling: filling the filled mask again changes nothing *)

Lemma zip_orb_nth (a b : list bool) p :
  length a = length b ->
  nth p (zip_with orb a b) false = nth p a false || nth p b false.
Proof.
  intros Hl. destruct (Nat.lt_ge_cases p (length a)) as [Hp|Hp].
  - now apply zip_with_nth.
  - rewrite !nth_overflow; auto; try lia.
    rewrite zip_with_length; auto.
Qed.

Lemma nth_ext_bool (a b : list bool) :
  length a = length b ->
  (forall p, p < length a -> nth p a false = nth p b false) -> a = b.
Proof. intros Hl Hn. apply (nth_ext a b false false); auto. Qed.

Section FillIdempotent.

Variable label : ndarray bool -> nat -> ndarray nat.
Hypothesis label_ok : label_contract label.

Variable m : ndarray bool.
Variables hole_min hole_max : Z.

Let fill := component_fill label m hole_min hole_max.
Let m' := mk_ndarray (shape m) (zip_with orb (data m) fill).

Lemma filled_length : length (data m') = length (data m).
Proof.
  simpl. apply zip_with_length. unfold fill.
  now rewrite (component_fill_length label_ok).
Qed.

Lemma filled_nth p :
  nth p (data m') false = nth p (data m) false || nth p fill false.
Proof.
  simpl. apply zip_orb_nth. unfold fill.
  now rewrite (component_fill_length label_ok).
Qed.

(** The background of the filled mask lies in the background of [m]. *)
Lemma filled_background p :
  nth p (data (invert m')) false = true ->
  nth p (data (invert m)) false = true.
Proof.
  intros Hp. pose proof (invert_mask_lt _ _ Hp) as Hlt.
  rewrite invert_nth, filled_nth in Hp by assumption.
  rewrite filled_length in Hlt. rewrite invert_nth by assumption.
  destruct (nth p (data m) false); auto.
Qed.

(** The fill mask is constant on every component of the background. *)
Lemma fill_constant p q :
  connected 1 (invert m) p q ->
  nth p (data (invert m)) false = true ->
  nth p fill false = nth q fill false.
Proof.
  intros Hc Hp.
  assert (Hq : nth q (data (invert m)) false = true)
    by (eapply connected_in_mask; eauto).
  apply invert_mask_lt in Hp as Hpl. apply invert_mask_lt in Hq as Hql.
  unfold fill. rewrite !(component_fill_nth label_ok) by assumption.
  f_equal. f_equal. now apply (label_same label_ok).
Qed.

(** The components of the background that are left are those of [m]. *)
Lemma filled_components p q :
  nth p (data (invert m')) false = true ->
  (connected 1 (invert m') p q <-> connected 1 (invert m) p q).
Proof.
  intros Hp. split.
  - apply connected_mono; [reflexivity|]. apply filled_background.
  - apply connected_restrict; [reflexivity| |assumption].
    intros r s Hr Hrs.
    assert (Hr0 : nth r (data (invert m)) false = true)
      by now apply filled_background.
    assert (Hs0 : nth s (data (invert m)) false = true)
      by apply Hrs.
    pose proof (@fill_constant r s (rt_step _ _ _ _ Hrs) Hr0) as Hf.
    apply invert_mask_lt in Hr as Hrl. apply invert_mask_lt in Hs0 as Hsl.
    rewrite invert_nth, filled_nth in Hr by assumption.
    rewrite invert_nth, filled_nth by (rewrite filled_length; assumption).
    rewrite invert_nth in Hs0 by assumption.
    rewrite <- Hf.
    destruct (nth s (data m) false), (nth r (data m) false),
      (nth r fill false); auto.
Qed.

Lemma fill_idem :
  zip_with orb (data m') (component_fill label m' hole_min hole_max)
  = data m'.
Proof.
  assert (Hl2 : length (component_fill label m' hole_min hole_max)
                = length (data m'))
    by apply (component_fill_length label_ok).
  apply nth_ext_bool.
  - apply zip_with_length. now rewrite Hl2.
  - intros p Hp. rewrite zip_with_length in Hp by now rewrite Hl2.
    rewrite zip_orb_nth by now rewrite Hl2.
    destruct (nth p (data m') false) eqn:Em'; [reflexivity|]. simpl.
    assert (Hbg' : nth p (data (invert m')) false = true)
      by (rewrite invert_nth, Em'; auto).
    pose proof Em' as Em. rewrite filled_nth in Em.
    apply orb_false_iff in Em as [Em Ef].
    pose proof Hp as Hp0. rewrite filled_length in Hp0.
    destruct (nth p (component_fill label m' hole_min hole_max) false)
      eqn:E2; [|reflexivity].
    exfalso.
    rewrite (component_fill_nth label_ok) in E2 by assumption.
    unfold fill in Ef.
    rewrite (component_fill_nth label_ok) in Ef by assumption.
    assert (Hne' : nth p (data (label (invert m') 1)) 0 <> 0).
    { intros E. apply (label_zero label_ok) in E; [congruence|].
      simpl. now rewrite length_map. }
    assert (Hne : nth p (data (label (invert m) 1)) 0 <> 0).
    { intros E. apply (label_zero label_ok) in E.
      - rewrite invert_nth, Em in E by assumption. discriminate.
      - simpl. now rewrite length_map. }
    apply kept_positive in E2; [|assumption].
    assert (Hcount :
      count_occ Nat.eq_dec (data (label (invert m') 1))
        (nth p (data (label (invert m') 1)) 0)
      = count_occ Nat.eq_dec (data (label (invert m) 1))
          (nth p (data (label (invert m) 1)) 0)).
    { apply count_occ_same_positions.
      - rewrite !(label_length label_ok). simpl.
        rewrite !length_map. apply zip_with_length. unfold fill.
        now rewrite (component_fill_length label_ok).
      - intros q Hq.
        pose proof (@label_class _ label_ok m' p q Hp Em') as C'.
        pose proof (@label_class _ label_ok m p q Hp0 Em) as C.
        pose proof (@filled_components p q Hbg') as F.
        assert (Hq0 : q < length (data (label (invert m) 1))).
        { rewrite (label_length label_ok) in *. simpl in *.
          rewrite length_map in *.
          rewrite zip_with_length in Hq; auto. unfold fill.
          now rewrite (component_fill_length label_ok). }
        tauto. }
    rewrite Hcount in E2.
    apply (kept_positive (data (label (invert m) 1)) hole_min hole_max)
      in E2; [|exact Hne].
    congruence.
Qed.

End FillIdempotent.

(** ** Slices of the first axis *)

Lemma concat_chunks_length {A} (G : nat -> list A) r k n :
  (forall z, k <= z < k + n -> length (G z) = r) ->
  length (concat (map G (seq k n))) = n * r.
Proof.
  revert k; induction n as [|n IH]; intros k HG; [reflexivity|].
  simpl. rewrite length_app, IH, HG; try lia.
  intros z Hz. apply HG. lia.
Qed.

Lemma slice_data_chunks {A} (G : nat -> list A) r n zz :
  (forall z, z < n -> length (G z) = r) -> zz < n ->
  slice_data r (concat (map G (seq 0 n))) zz = G zz.
Proof.
  intros HG Hz. unfold slice_data.
  assert (E : forall k m, (forall z, k <= z < k + m -> length (G z) = r) ->
              forall j, j < m ->
              firstn r (skipn (j * r) (concat (map G (seq k m)))) = G (k + j)).
  { intros k m; revert k; induction m as [|m IH]; intros k HGk j Hj; [lia|].
    simpl. destruct j as [|j].
    - simpl. rewrite Nat.add_0_r, firstn_app, HGk by lia.
      rewrite Nat.sub_diag, firstn_O, app_nil_r.
      apply firstn_all2. rewrite HGk; lia.
    - rewrite skipn_app, HGk by lia.
      replace (skipn (S j * r) (G k)) with (@nil A)
        by (symmetry; apply skipn_all2; rewrite HGk; simpl; lia).
      simpl. replace (r + j * r - r) with (j * r) by lia.
      rewrite IH; [f_equal; lia| |lia].
      intros z Hz'. apply HGk. lia. }
  apply (E 0 n); auto. intros z Hz'. apply HG. lia.
Qed.

Lemma slice_data_nth {A} (l : list A) (d : A) r zz j :
  j < r -> nth j (slice_data r l zz) d = nth (zz * r + j) l d.
Proof.
  intros Hj. unfold slice_data. rewrite nth_firstn.
  apply Nat.ltb_lt in Hj. rewrite Hj. apply nth_skipn.
Qed.

Lemma chunks_of_data {A} (l : list A) d r :
  length l = d * r -> l = concat (map (slice_data r l) (seq 0 d)).
Proof.
  revert l; induction d as [|d IH]; intros l Hl.
  - destruct l; [reflexivity|discriminate].
  - rewrite <- (firstn_skipn r l) at 1.
    cbn [seq map concat]. f_equal.
    rewrite (IH (skipn r l)) at 1 by (rewrite length_skipn; lia).
    f_equal. rewrite <- seq_shift, map_map. apply map_ext.
    intros z. unfold slice_data. rewrite skipn_skipn. f_equal. f_equal. lia.
Qed.

Lemma zip_with_chunks {A B C} (f : A -> B -> C) (G : nat -> list A)
      (K : nat -> list B) zs :
  (forall z, In z zs -> length (G z) = length (K z)) ->
  zip_with f (concat (map G zs)) (concat (map K zs))
  = concat (map (fun z => zip_with f (G z) (K z)) zs).
Proof.
  induction zs as [|z zs IH]; intros HL; [reflexivity|].
  simpl. rewrite <- IH by (intros; apply HL; now right).
  assert (E : forall (a : list A) (b : list B) a' b',
             length a = length b ->
             zip_with f (a ++ a') (b ++ b')
             = zip_with f a b ++ zip_with f a' b').
  { induction a as [|x a IHa]; intros [|y b] a' b' E; simpl in *;
      try discriminate; auto. rewrite IHa; auto. }
  apply E. apply HL. now left.
Qed.

(** ** hole_filling: the slice-wise result, slice by slice *)

Lemma gt0_bool (a : ndarray bool) : gt0 a = a.
Proof. destruct a as [sh dt]. unfold gt0, map_nd. simpl. now rewrite map_id. Qed.

Section SliceWise.

Variable label : ndarray bool -> nat -> ndarray nat.
Hypothesis label_ok : label_contract label.

Variable bw : ndarray bool.
Variables (d : nat) (rest : list nat).
Hypothesis bw_shape : shape bw = d :: rest.
Hypothesis bw_wf : wf bw.
Variables hole_min hole_max : Z.

Let r := prod_shape rest.

(** One slice of the result: the slice of [bw] with its own fill mask. *)
Let filled_slice (zz : nat) : list bool :=
  zip_with orb (slice_data r (data bw) zz)
           (slice_fill label bw hole_min hole_max zz).

Let out := mk_ndarray (shape bw)
             (zip_with orb (data bw)
                (concat (map (slice_fill label bw hole_min hole_max)
                             (seq 0 d)))).

Lemma bw_length : length (data bw) = d * r.
Proof. unfold wf in bw_wf. rewrite bw_wf, bw_shape. reflexivity. Qed.

Lemma filled_slice_length zz : zz < d -> length (filled_slice zz) = r.
Proof.
  intros Hz. unfold filled_slice. rewrite zip_with_length.
  - apply slice_data_length with d; auto. apply bw_length.
  - rewrite (@slice_fill_length _ label_ok bw _ _ d rest); auto.
    apply slice_data_length with d; auto. apply bw_length.
Qed.

Lemma slicewise_data : data out = concat (map filled_slice (seq 0 d)).
Proof.
  unfold out. cbn [data].
  rewrite (chunks_of_data (data bw) d r bw_length) at 1.
  apply zip_with_chunks. intros z Hz. apply in_seq in Hz.
  rewrite (@slice_fill_length _ label_ok bw _ _ d rest); auto; try lia.
  apply slice_data_length with d; [apply bw_length|lia].
Qed.

Lemma slicewise_slice zz :
  zz < d ->
  slice_of out zz
  = mk_ndarray (shape (slice_of bw zz))
      (zip_with orb (data (slice_of bw zz))
         (component_fill label (slice_of bw zz) hole_min hole_max)).
Proof.
  intros Hz. unfold slice_of at 1. rewrite slicewise_data.
  unfold out. cbn [shape]. rewrite bw_shape. cbn [tl]. fold r.
  rewrite slice_data_chunks with (n := d); auto using filled_slice_length.
  unfold filled_slice, slice_fill, slice_of. rewrite bw_shape. reflexivity.
Qed.

Lemma slicewise_idem :
  zip_with orb (data out)
    (concat (map (slice_fill label out hole_min hole_max) (seq 0 d)))
  = data out.
Proof.
  rewrite slicewise_data at 1. rewrite zip_with_chunks.
  - rewrite slicewise_data. apply f_equal, map_ext_in.
    intros z Hz. apply in_seq in Hz. unfold slice_fill.
    rewrite slicewise_slice by lia.
    pose proof (@fill_idem _ label_ok (slice_of bw z) hole_min hole_max) as E.
    cbn zeta in E. unfold filled_slice, slice_fill.
    replace (slice_data r (data bw) z) with (data (slice_of bw z))
      by (unfold slice_of; rewrite bw_shape; reflexivity).
    exact E.
  - intros z Hz. apply in_seq in Hz.
    rewrite filled_slice_length by lia.
    rewrite (@slice_fill_length _ label_ok out _ _ d rest); auto; try lia.
    unfold wf, out. cbn [shape data]. rewrite zip_with_length.
    + apply bw_wf.
    + rewrite concat_chunks_length with (r := r); [apply bw_length|].
      intros y Hy.
      apply (@slice_fill_length _ label_ok bw _ _ d rest); auto; lia.
Qed.

End SliceWise.

(** ** The flooding labelling meets the contract *)

Lemma zip_with_comm {A C} (f : A -> A -> C) (l k : list A) :
  (forall x y, f x y = f y x) -> zip_with f l k = zip_with f k l.
Proof.
  intros Hf. revert k; induction l as [|x l IH]; intros [|y k]; simpl; auto.
  now rewrite Hf, IH.
Qed.

Lemma neighbours_sym c a b : neighbours c a b = neighbours c b a.
Proof.
  unfold neighbours. rewrite (zip_with_comm dist1 a b); [reflexivity|].
  intros x y. unfold dist1. lia.
Qed.

Lemma connected_sym c (m : ndarray bool) p q :
  connected c m p q -> connected c m q p.
Proof.
  induction 1 as [p q [Hp [Hq Hn]]| |p q r _ IH1 _ IH2].
  - apply rt_step. unfold adj. now rewrite neighbours_sym.
  - apply rt_refl.
  - eapply rt_trans; eauto.
Qed.

Lemma fold_min_le (l : list nat) p :
  fold_right Nat.min p l <= p /\ forall x, In x l -> fold_right Nat.min p l <= x.
Proof.
  induction l as [|y l [IH1 IH2]]; simpl; [split; [lia|tauto]|].
  split; [lia|]. intros x [->|Hx]; [lia|]. specialize (IH2 x Hx). lia.
Qed.

Lemma fold_min_in (l : list nat) p :
  fold_right Nat.min p l = p \/ In (fold_right Nat.min p l) l.
Proof.
  induction l as [|y l IH]; simpl; [now left|].
  destruct (Nat.min_spec y (fold_right Nat.min p l)) as [[_ E]|[_ E]];
    rewrite E; [right; now left|].
  destruct IH as [IH|IH]; [now left|right; now right].
Qed.

Section FloodProofs.

Variable c : nat.
Variable m : ndarray bool.

Let n := length (data m).

Lemma mem_In q s : mem q s = true <-> In q s.
Proof.
  unfold mem. rewrite existsb_exists. split.
  - intros [x [Hx E]]. apply Nat.eqb_eq in E. now subst.
  - intros Hq. exists q. split; [assumption|apply Nat.eqb_refl].
Qed.

Lemma in_mask_lt p : in_mask m p = true -> p < n.
Proof.
  unfold in_mask. intros Hp. destruct (Nat.lt_ge_cases p n); auto.
  rewrite nth_overflow in Hp; [discriminate|assumption].
Qed.

Lemma step_to_adj p q : step_to c m p q = true <-> adj c m p q.
Proof.
  unfold step_to, adj, in_mask. rewrite !andb_true_iff. tauto.
Qed.

Lemma ring_In s q :
  In q (ring c m s)
  <-> ~ In q s /\ exists p, In p s /\ step_to c m p q = true.
Proof.
  unfold ring. rewrite filter_In, in_seq, andb_true_iff, negb_true_iff.
  rewrite existsb_exists, <- not_true_iff_false, mem_In. split.
  - tauto.
  - intros [Hn [p [Hp Hs]]]. repeat split; auto; try lia; eauto.
    apply step_to_adj in Hs. destruct Hs as [_ [Hq _]].
    apply in_mask_lt in Hq. fold n. lia.
Qed.

Let closed := closed c m.

Lemma ring_nil_closed s : ring c m s = [] -> closed s.
Proof.
  intros E p q Hp Hs. destruct (in_dec Nat.eq_dec q s) as [|Hn]; auto.
  assert (Hq : In q (ring c m s)) by (apply ring_In; eauto).
  rewrite E in Hq. destruct Hq.
Qed.

Lemma closed_ring_nil s : closed s -> ring c m s = [].
Proof.
  intros Hc. destruct (ring c m s) as [|q l] eqn:E; auto.
  assert (Hq : In q (ring c m s)) by (rewrite E; now left).
  apply ring_In in Hq. destruct Hq as [Hn [p [Hp Hs]]].
  destruct Hn. eapply Hc; eauto.
Qed.

Lemma grow_NoDup s : NoDup s -> NoDup (grow c m s).
Proof.
  intros Hs. unfold grow. apply NoDup_app; auto.
  - unfold ring. apply NoDup_filter, seq_NoDup.
  - intros q Hq Hr. apply ring_In in Hr. tauto.
Qed.

Lemma grow_bound s :
  (forall q, In q s -> q < n) -> forall q, In q (grow c m s) -> q < n.
Proof.
  intros Hs q Hq. unfold grow in Hq. apply in_app_or in Hq.
  destruct Hq as [Hq|Hq]; auto.
  unfold ring in Hq. apply filter_In in Hq. destruct Hq as [Hq _].
  apply in_seq in Hq. fold n in Hq. lia.
Qed.

Lemma iter_grow_invariant k s :
  NoDup s -> (forall q, In q s -> q < n) ->
  NoDup (Nat.iter k (grow c m) s)
  /\ (forall q, In q (Nat.iter k (grow c m) s) -> q < n)
  /\ (forall q, In q s -> In q (Nat.iter k (grow c m) s)).
Proof.
  intros Hnd Hb. induction k as [|k [IH1 [IH2 IH3]]]; [simpl; auto|].
  rewrite Nat.iter_succ. repeat split.
  - now apply grow_NoDup.
  - now apply grow_bound.
  - intros q Hq. unfold grow at 1. apply in_or_app. left. auto.
Qed.

(** Each round either adds a pixel or has reached a closed set. *)
Lemma iter_grow_progress k s :
  closed (Nat.iter k (grow c m) s)
  \/ length s + k <= length (Nat.iter k (grow c m) s).
Proof.
  induction k as [|k IH]; [right; simpl; lia|].
  rewrite Nat.iter_succ. destruct IH as [IH|IH].
  - left. unfold grow at 1. rewrite (closed_ring_nil IH), app_nil_r.
    exact IH.
  - destruct (ring c m (Nat.iter k (grow c m) s)) as [|q l] eqn:E.
    + left. unfold grow at 1. rewrite E, app_nil_r.
      now apply ring_nil_closed.
    + right. unfold grow at 1. rewrite E, length_app. simpl. lia.
Qed.

Lemma flood_closed p : p < n -> closed (flood c m p).
Proof.
  intros Hp. unfold flood. fold n.
  assert (Hnd : NoDup [p]) by (constructor; [simpl; tauto|constructor]).
  assert (Hb : forall q, In q [p] -> q < n)
    by (intros q [<-|[]]; assumption).
  destruct (iter_grow_progress n [p]) as [Hc|Hlen]; auto.
  destruct (@iter_grow_invariant n [p] Hnd Hb) as [H1 [H2 _]].
  assert (Hle : length (Nat.iter n (grow c m) [p]) <= length (seq 0 n)).
  { apply NoDup_incl_length; auto. intros q Hq. apply in_seq.
    specialize (H2 q Hq). lia. }
  rewrite length_seq in Hle. simpl in Hlen. lia.
Qed.

Lemma iter_grow_sound p k q :
  In q (Nat.iter k (grow c m) [p]) -> connected c m p q.
Proof.
  revert q. induction k as [|k IH].
  - intros q [<-|[]]. apply rt_refl.
  - intros q Hq. rewrite Nat.iter_succ in Hq.
    unfold grow at 1 in Hq. apply in_app_or in Hq.
    destruct Hq as [Hq|Hq]; auto.
    apply ring_In in Hq. destruct Hq as [_ [r [Hr Hs]]].
    eapply rt_trans; [apply IH; eassumption|].
    apply rt_step. now apply step_to_adj.
Qed.

Lemma iter_grow_self p k : In p (Nat.iter k (grow c m) [p]).
Proof.
  induction k as [|k IH]; [now left|].
  rewrite Nat.iter_succ. unfold grow at 1. apply in_or_app. now left.
Qed.

Lemma flood_self p : In p (flood c m p).
Proof. apply iter_grow_self. Qed.

Lemma flood_sound p q : In q (flood c m p) -> connected c m p q.
Proof. apply iter_grow_sound. Qed.

Lemma flood_complete p q :
  p < n -> connected c m p q -> In q (flood c m p).
Proof.
  intros Hp Hc. apply clos_rt_rtn1 in Hc.
  induction Hc as [|r q Hrq _ IH]; [apply flood_self|].
  apply (flood_closed Hp) with r; auto. now apply step_to_adj.
Qed.

Lemma first_pixel_connected p : connected c m p (first_pixel c m p).
Proof.
  unfold first_pixel.
  destruct (fold_min_in (flood c m p) p) as [E|Hin].
  - rewrite E. apply rt_refl.
  - now apply flood_sound.
Qed.

Lemma first_pixel_le p q :
  p < n -> connected c m p q -> first_pixel c m p <= q.
Proof.
  intros Hp Hc. apply fold_min_le. now apply flood_complete.
Qed.

Lemma first_pixel_same p q :
  in_mask m p = true -> in_mask m q = true ->
  (first_pixel c m p = first_pixel c m q <-> connected c m p q).
Proof.
  intros Hp Hq. apply in_mask_lt in Hp as Hpn. apply in_mask_lt in Hq as Hqn.
  split.
  - intros E. eapply rt_trans; [apply first_pixel_connected|].
    rewrite E. apply connected_sym, first_pixel_connected.
  - intros Hc. apply Nat.le_antisymm.
    + apply first_pixel_le; auto.
      eapply rt_trans; [exact Hc|apply first_pixel_connected].
    + apply first_pixel_le; auto.
      eapply rt_trans; [apply connected_sym; exact Hc|].
      apply first_pixel_connected.
Qed.

Lemma first_pixel_is_first p :
  in_mask m p = true -> is_first c m (first_pixel c m p) = true.
Proof.
  intros Hp. unfold is_first.
  assert (Hf : in_mask m (first_pixel c m p) = true).
  { unfold in_mask. eapply connected_in_mask;
      [apply first_pixel_connected|exact Hp]. }
  rewrite Hf. simpl. apply Nat.eqb_eq.
  apply first_pixel_same; auto.
  apply connected_sym, first_pixel_connected.
Qed.

(** The rank of a first pixel among the first pixels identifies it. *)
Lemma rank_lt a b :
  a < b -> is_first c m b = true ->
  length (filter (is_first c m) (seq 0 (S a)))
  < length (filter (is_first c m) (seq 0 (S b))).
Proof.
  intros Hab Hb.
  replace (S b) with (S a + (b - a)) by lia.
  rewrite seq_app, filter_app, length_app.
  assert (Hin : In b (filter (is_first c m) (seq (0 + S a) (b - a)))).
  { apply filter_In. split; [apply in_seq; lia|assumption]. }
  destruct (filter (is_first c m) (seq (0 + S a) (b - a)));
    [destruct Hin|simpl; lia].
Qed.

Lemma rank_inj a b :
  is_first c m a = true -> is_first c m b = true ->
  length (filter (is_first c m) (seq 0 (S a)))
  = length (filter (is_first c m) (seq 0 (S b))) ->
  a = b.
Proof.
  intros Ha Hb E. destruct (Nat.lt_trichotomy a b) as [H|[H|H]]; auto.
  - pose proof (rank_lt H Hb). lia.
  - pose proof (rank_lt H Ha). lia.
Qed.

Lemma flood_label_at_zero p :
  flood_label_at c m p = 0 <-> in_mask m p = false.
Proof.
  unfold flood_label_at. destruct (in_mask m p) eqn:Hp; [|tauto].
  split; [|discriminate]. intros E. exfalso.
  assert (Hin : In (first_pixel c m p)
                   (filter (is_first c m) (seq 0 (S (first_pixel c m p))))).
  { apply filter_In. split; [apply in_seq; lia|].
    now apply first_pixel_is_first. }
  destruct (filter _ _); [destruct Hin|discriminate].
Qed.

Lemma flood_label_at_same p q :
  in_mask m p = true -> in_mask m q = true ->
  (flood_label_at c m p = flood_label_at c m q <-> connected c m p q).
Proof.
  intros Hp Hq. rewrite <- first_pixel_same by assumption.
  unfold flood_label_at. rewrite Hp, Hq. split.
  - apply rank_inj; now apply first_pixel_is_first.
  - now intros ->.
Qed.

(** The flood from a pixel of the mask lists its component, each pixel
    once. *)
Lemma flood_component p :
  in_mask m p = true ->
  NoDup (flood c m p) /\ forall q, In q (flood c m p) <-> connected c m p q.
Proof.
  intros Hp. apply in_mask_lt in Hp as Hpn. split.
  - unfold flood. fold n. apply iter_grow_invariant.
    + constructor; [simpl; tauto|constructor].
    + intros q [<-|[]]. assumption.
  - intros q. split; [apply flood_sound|now apply flood_complete].
Qed.

End FloodProofs.

Lemma flood_label_nth (m : ndarray bool) c p :
  p < length (data m) ->
  nth p (data (flood_label m c)) 0 = flood_label_at c m p.
Proof.
  intros Hp. simpl.
  rewrite (map_nth_lt _ _ 0 0) by now rewrite length_seq.
  now rewrite seq_nth.
Qed.

Lemma flood_label_ok : label_contract flood_label.
Proof.
  constructor.
  - reflexivity.
  - intros m c. simpl. now rewrite length_map, length_seq.
  - intros m c p Hp. rewrite flood_label_nth by assumption.
    apply flood_label_at_zero.
  - intros m c p q Hp Hq.
    rewrite !flood_label_nth by (now apply in_mask_lt).
    now apply flood_label_at_same.
Qed.

(** ** hole_filling: the claims *)

(** C1. For a 2D or 3D volume [bw] and any bounds and [fill_2d],
    [hole_filling] returns an array of the shape of [bw] in which every
    pixel that is foreground in [bw > 0] is foreground. *)
Theorem hole_filling_superset {A} `{Scalar A}
        (label : ndarray bool -> nat -> ndarray nat) (bw : ndarray A)
        (hole_min hole_max : Z) (fill_2d : bool) :
  label_contract label -> wf bw -> ndim bw = 2 \/ ndim bw = 3 ->
  exists out,
    hole_filling label bw hole_min hole_max fill_2d = mk_call [] (RetVal out)
    /\ shape out = shape bw
    /\ length (data out) = length (data bw)
    /\ forall p, nth p (data (gt0 bw)) false = true ->
                 nth p (data out) false = true.
Proof.
  intros Hl Hw Hd.
  assert (Hlen : length (data (gt0 bw)) = length (data bw))
    by (simpl; apply length_map).
  destruct fill_2d eqn:Ef.
  2: { eexists. split; [apply hole_filling_whole; auto; lia|].
       cbn [shape data]. split; [reflexivity|].
       assert (Hcf : length (data (gt0 bw))
                     = length (component_fill label (gt0 bw) hole_min hole_max))
         by now rewrite (component_fill_length Hl).
       split; [rewrite zip_with_length; auto|].
       intros p Hp. rewrite zip_orb_nth, Hp by assumption. reflexivity. }
  destruct Hd as [Hd|Hd].
  - eexists. split; [apply hole_filling_whole; auto|].
    cbn [shape data]. split; [reflexivity|].
    assert (Hcf : length (data (gt0 bw))
                  = length (component_fill label (gt0 bw) hole_min hole_max))
      by now rewrite (component_fill_length Hl).
    split; [rewrite zip_with_length; auto|].
    intros p Hp. rewrite zip_orb_nth, Hp by assumption. reflexivity.
  - eexists. split; [apply hole_filling_slices; auto|].
    cbn [shape data]. split; [reflexivity|].
    unfold ndim in Hd. destruct (shape bw) as [|d rest] eqn:Hs; [discriminate|].
    cbn [hd].
    assert (Hw' : wf (gt0 bw)).
    { unfold wf in *. rewrite Hlen, Hw. simpl. now rewrite Hs. }
    assert (Hcf : length (data (gt0 bw))
                  = length (concat (map (slice_fill label (gt0 bw)
                                           hole_min hole_max) (seq 0 d)))).
    { rewrite concat_chunks_length with (r := prod_shape rest).
      - unfold wf in Hw'. rewrite Hw'. simpl. rewrite Hs. reflexivity.
      - intros z Hz.
        apply (@slice_fill_length _ Hl (gt0 bw) _ _ d rest); auto; lia. }
    split; [rewrite zip_with_length; auto|].
    intros p Hp. rewrite zip_orb_nth, Hp by assumption. reflexivity.
Qed.

Lemma hole_filling_superset_witness :
  exists out,
    hole_filling flood_label stack2x3x3 2 5 true = mk_call [] (RetVal out)
    /\ shape out = shape stack2x3x3
    /\ length (data out) = length (data stack2x3x3)
    /\ forall p, nth p (data (gt0 stack2x3x3)) false = true ->
                 nth p (data out) false = true.
Proof.
  apply (@hole_filling_superset Z _ flood_label stack2x3x3 2 5 true
           flood_label_ok).
  - reflexivity.
  - right. reflexivity.
Defined.

(** C2. On a 2D input a background pixel is filled exactly when the number
    of pixels of its connected component of the inverted mask
    (4-connectivity) lies between [hole_min] and [hole_max], both included:
    larger and smaller components stay out of the fill mask. *)
Theorem hole_filling_2d_fills_by_size {A} `{Scalar A}
        (label : ndarray bool -> nat -> ndarray nat) (bw : ndarray A)
        (hole_min hole_max : Z) (fill_2d : bool) :
  label_contract label -> ndim bw = 2 ->
  exists out,
    hole_filling label bw hole_min hole_max fill_2d = mk_call [] (RetVal out)
    /\ forall p comp,
        p < length (data bw) ->
        nth p (data (gt0 bw)) false = false ->
        NoDup comp ->
        (forall q, In q comp <-> connected 1 (invert (gt0 bw)) p q) ->
        (nth p (data out) false = true
         <-> (hole_min <= Z.of_nat (length comp) <= hole_max)%Z).
Proof.
  intros Hl Hd. eexists. split; [apply hole_filling_whole; auto|].
  intros p comp Hp Hbg Hnd Hcomp. cbn [data].
  assert (Hp' : p < length (data (gt0 bw)))
    by (simpl; now rewrite length_map).
  rewrite zip_orb_nth, Hbg by now rewrite (component_fill_length Hl).
  cbn [orb]. now apply component_fill_background.
Qed.

Lemma hole_filling_2d_fills_by_size_witness :
  exists out,
    hole_filling flood_label ring3x3 1 1 true = mk_call [] (RetVal out)
    /\ nth 4 (data out) false = true
    /\ forall p comp,
        p < length (data ring3x3) ->
        nth p (data (gt0 ring3x3)) false = false ->
        NoDup comp ->
        (forall q, In q comp <-> connected 1 (invert (gt0 ring3x3)) p q) ->
        (nth p (data out) false = true
         <-> (1 <= Z.of_nat (length comp) <= 1)%Z).
Proof.
  destruct (@hole_filling_2d_fills_by_size Z _ flood_label ring3x3 1 1 true
              flood_label_ok) as [out [E Hfill]].
  - reflexivity.
  - exists out. split; [exact E|]. split; [|exact Hfill].
    destruct (@flood_component 1 (invert (gt0 ring3x3)) 4) as [Hnd Hcomp];
      [reflexivity|].
    apply (Hfill 4 (flood 1 (invert (gt0 ring3x3)) 4)); auto.
    + simpl. lia.
    + replace (length (flood 1 (invert (gt0 ring3x3)) 4)) with 1
        by (vm_compute; reflexivity).
      lia.
Defined.

(** C7. An input that is neither 2D nor 3D gets no array back: the call
    prints the line "error" and returns [None], whatever the bounds. *)
Theorem hole_filling_rejects_other_dims {A} `{Scalar A}
        (label : ndarray bool -> nat -> ndarray nat) (bw : ndarray A)
        (hole_min hole_max : Z) (fill_2d : bool) :
  ndim bw <> 2 -> ndim bw <> 3 ->
  hole_filling label bw hole_min hole_max fill_2d
  = mk_call ["error"%string] RetNone.
Proof.
  intros H2 H3. unfold hole_filling.
  change (ndim (gt0 bw)) with (ndim bw).
  apply Nat.eqb_neq in H2, H3. rewrite H2, H3. reflexivity.
Qed.

Lemma hole_filling_rejects_other_dims_witness :
  hole_filling flood_label line5 0 100 true = mk_call ["error"%string] RetNone.
Proof.
  apply (@hole_filling_rejects_other_dims Z _ flood_label line5 0 100 true).
  - vm_compute. lia.
  - vm_compute. lia.
Defined.

(** C8. Filling twice with the same bounds gives what filling once gives:
    on a 2D or 3D volume the call on the result of [hole_filling] returns
    that result again. *)
Theorem hole_filling_idempotent {A} `{Scalar A}
        (label : ndarray bool -> nat -> ndarray nat) (bw : ndarray A)
        (hole_min hole_max : Z) (fill_2d : bool) :
  label_contract label -> wf bw -> ndim bw = 2 \/ ndim bw = 3 ->
  exists out,
    hole_filling label bw hole_min hole_max fill_2d = mk_call [] (RetVal out)
    /\ hole_filling label out hole_min hole_max fill_2d
       = mk_call [] (RetVal out).
Proof.
  intros Hl Hw Hd.
  assert (Hwhole : ndim bw = 2 \/ ndim bw = 3 /\ fill_2d = false ->
    exists out,
      hole_filling label bw hole_min hole_max fill_2d = mk_call [] (RetVal out)
      /\ hole_filling label out hole_min hole_max fill_2d
         = mk_call [] (RetVal out)).
  { intros Hb. eexists. split; [apply hole_filling_whole; auto|].
    rewrite hole_filling_whole by (unfold ndim in *; simpl; auto).
    rewrite gt0_bool. cbn [shape]. f_equal. f_equal. f_equal.
    apply (@fill_idem _ Hl (gt0 bw) hole_min hole_max). }
  destruct fill_2d; [|apply Hwhole; destruct Hd; auto].
  destruct Hd as [Hd|Hd]; [apply Hwhole; auto|].
  eexists. split; [apply hole_filling_slices; auto|].
  unfold ndim in Hd. destruct (shape bw) as [|d rest] eqn:Hs; [discriminate|].
  assert (Hw' : wf (gt0 bw)).
  { unfold wf in *. simpl. rewrite length_map, Hw, Hs. reflexivity. }
  assert (Hs' : shape (gt0 bw) = d :: rest) by exact Hs.
  pose proof (@slicewise_idem _ Hl (gt0 bw) d rest Hs' Hw' hole_min hole_max)
    as Hid.
  change (shape (gt0 bw)) with (shape bw) in Hid. rewrite Hs in Hid.
  cbn [hd].
  rewrite hole_filling_slices; auto.
  - rewrite gt0_bool. cbn [shape hd]. f_equal. f_equal. f_equal.
    exact Hid.
  - unfold wf. cbn [shape data]. rewrite zip_with_length.
    + unfold wf in Hw'. rewrite Hw'. simpl. now rewrite Hs.
    + rewrite concat_chunks_length with (r := prod_shape rest).
      * unfold wf in Hw'. rewrite Hw'. simpl. rewrite Hs. reflexivity.
      * intros z Hz.
        apply (@slice_fill_length _ Hl (gt0 bw) _ _ d rest); auto; lia.
Qed.

Lemma hole_filling_idempotent_witness :
  exists out,
    hole_filling flood_label stack2x3x3 1 9 true = mk_call [] (RetVal out)
    /\ hole_filling flood_label out 1 9 true = mk_call [] (RetVal out).
Proof.
  apply (@hole_filling_idempotent Z _ flood_label stack2x3x3 1 9 true
           flood_label_ok).
  - reflexivity.
  - right. reflexivity.
Defined.

(** ** topology_preserving_thinning *)

Section ThinningProofs.

Variable medial_axis : ndarray bool -> ndarray bool.
Variable distance_transform_edt : ndarray bool -> ndarray Q.
Variable footprint : Type.
Variable ball : Z -> footprint.
Variable erosion : ndarray bool -> footprint -> ndarray bool.

Hypothesis medial_axis_shape : shape_preserving medial_axis.
Hypothesis edt_shape : shape_preserving distance_transform_edt.
Hypothesis erosion_shape :
  forall fp, shape_preserving (fun x => erosion x fp).

Variable bw : ndarray bool.
Variables (d : nat) (rest : list nat).
Hypothesis bw_shape : shape bw = d :: rest.
Hypothesis bw_dim : ndim bw = 3.
Hypothesis bw_wf : wf bw.
Variable min_thickness : Q.

Lemma safe_zone_loop_ok zs :
  Forall (fun zz => zz < d) zs ->
  forall safe_zone : ndarray bool,
    shape safe_zone = shape bw ->
    length (data safe_zone) = length (data bw) ->
    exists sz,
      safe_zone_loop medial_axis distance_transform_edt bw min_thickness
                     zs safe_zone = Ok sz
      /\ shape sz = shape bw
      /\ length (data sz) = length (data bw).
Proof.
  assert (Hlen : length (data bw) = d * prod_shape rest).
  { unfold wf in bw_wf. rewrite bw_wf, bw_shape. reflexivity. }
  induction 1 as [|zz zs Hz _ IH]; intros safe_zone Hs Hl.
  - exists safe_zone. auto.
  - cbn [safe_zone_loop]. unfold get_plane, get_slice.
    rewrite bw_dim, bw_shape. change (3 <? 3) with false. cbv iota.
    apply Nat.ltb_lt in Hz as Hz'. rewrite Hz'. cbn [bind].
    match goal with |- context [any ?pl] => set (plane := pl) end.
    destruct (any plane).
    + unfold set_plane, set_slice. unfold ndim. rewrite Hs.
      fold (ndim bw). rewrite bw_dim, bw_shape.
      change (3 <? 3) with false. cbv iota. rewrite Hz'.
      set (ctl := medial_axis (gt0 plane)).
      set (dist := distance_transform_edt (map_nd (fun b => negb b) ctl)).
      assert (Hsd : shape dist = rest).
      { unfold dist. rewrite (proj1 (edt_shape _)). cbn [shape map_nd].
        unfold ctl. rewrite (proj1 (medial_axis_shape _)). reflexivity. }
      assert (Hld : length (data dist) = prod_shape rest).
      { unfold dist. rewrite (proj2 (edt_shape _)). cbn [data map_nd].
        rewrite length_map. unfold ctl.
        rewrite (proj2 (medial_axis_shape _)). cbn [data gt0 map_nd plane].
        rewrite length_map, length_firstn, length_skipn. nia. }
      cbn [shape map_nd]. rewrite Hsd, shape_eqb_refl. cbn [bind].
      rewrite <- bw_shape. apply IH.
      * reflexivity.
      * cbn [data map_nd].
        rewrite !length_app, !length_map, length_firstn, length_skipn.
        rewrite Hld, Hl, Hlen. nia.
    + cbn [bind]. rewrite <- bw_shape. now apply IH.
Qed.

Lemma safe_zone_of_ok :
  exists sz,
    safe_zone_of medial_axis distance_transform_edt bw min_thickness = Ok sz
    /\ shape sz = shape bw
    /\ length (data sz) = length (data bw).
Proof.
  unfold safe_zone_of, shape0. rewrite bw_shape. cbn [bind].
  rewrite <- bw_shape. apply safe_zone_loop_ok.
  - apply Forall_forall. intros z Hz. apply in_seq in Hz. lia.
  - reflexivity.
  - cbn [zeros_like full data]. rewrite repeat_length. symmetry. apply bw_wf.
Qed.

Lemma firstn_repeat_le {A} (x : A) a b :
  a <= b -> firstn a (repeat x b) = repeat x a.
Proof.
  revert b; induction a as [|a IH]; intros b Hab; [reflexivity|].
  destruct b as [|b]; [lia|]. simpl. rewrite IH by lia. reflexivity.
Qed.

Lemma skipn_repeat_le {A} (x : A) a b :
  skipn a (repeat x b) = repeat x (b - a).
Proof.
  revert b; induction a as [|a IH]; intros b.
  - now rewrite Nat.sub_0_r.
  - destruct b as [|b]; [reflexivity|]. simpl. apply IH.
Qed.

Lemma firstn_plus {A} (l : list A) a b :
  firstn (a + b) l = firstn a l ++ firstn b (skipn a l).
Proof.
  revert l; induction a as [|a IH]; intros l; [reflexivity|].
  destruct l as [|x l]; [now rewrite !firstn_nil|].
  simpl. now rewrite IH.
Qed.

(** What the loop leaves in [safe_zone], slice by slice. *)
Lemma safe_zone_loop_data n :
  forall k (safe_zone : ndarray bool),
    k + n = d ->
    shape safe_zone = shape bw ->
    length (data safe_zone) = d * prod_shape rest ->
    skipn (k * prod_shape rest) (data safe_zone)
    = repeat false (n * prod_shape rest) ->
    safe_zone_loop medial_axis distance_transform_edt bw min_thickness
                   (seq k n) safe_zone
    = Ok (mk_ndarray (shape bw)
            (firstn (k * prod_shape rest) (data safe_zone)
             ++ concat (map (slice_safe medial_axis distance_transform_edt
                                        bw min_thickness)
                            (seq k n)))).
Proof.
  assert (Hlen : length (data bw) = d * prod_shape rest).
  { unfold wf in bw_wf. rewrite bw_wf, bw_shape. reflexivity. }
  set (r := prod_shape rest) in *.
  induction n as [|n IH]; intros k safe_zone Hk Hs Hl Hzero.
  - cbn [seq safe_zone_loop map concat]. rewrite app_nil_r.
    rewrite firstn_all2 by nia.
    destruct safe_zone as [sh dt]. simpl in Hs. now subst.
  - cbn [seq safe_zone_loop map concat]. unfold get_plane, get_slice.
    rewrite bw_dim, bw_shape. change (3 <? 3) with false. cbv iota.
    assert (Hkd : k < d) by lia.
    apply Nat.ltb_lt in Hkd as Hkd'. rewrite Hkd'. cbn [bind]. fold r.
    assert (Hplane : mk_ndarray rest (firstn r (skipn (k * r) (data bw)))
                     = slice_of bw k).
    { unfold slice_of, slice_data. rewrite bw_shape. reflexivity. }
    rewrite Hplane.
    assert (Hss : slice_safe medial_axis distance_transform_edt bw
                    min_thickness k
                  = if any (slice_of bw k)
                    then map (fun x => Qlt_bool (min_thickness + eps5)%Q x)
                           (data (distance_transform_edt
                                    (map_nd (fun b => negb b)
                                       (medial_axis (gt0 (slice_of bw k))))))
                    else repeat false r).
    { unfold slice_safe. rewrite bw_shape. reflexivity. }
    rewrite Hss. clear Hss.
    destruct (any (slice_of bw k)) eqn:Eany.
    + unfold set_plane, set_slice. unfold ndim. rewrite Hs.
      fold (ndim bw). rewrite bw_dim, bw_shape.
      change (3 <? 3) with false. cbv iota. rewrite Hkd'.
      set (ctl := medial_axis (gt0 (slice_of bw k))).
      set (dist := distance_transform_edt (map_nd (fun b => negb b) ctl)).
      assert (Hsd : shape dist = rest).
      { unfold dist. rewrite (proj1 (edt_shape _)). cbn [shape map_nd].
        unfold ctl. rewrite (proj1 (medial_axis_shape _)).
        unfold slice_of. cbn [shape gt0 map_nd]. now rewrite bw_shape. }
      assert (Hld : length (data dist) = r).
      { unfold dist. rewrite (proj2 (edt_shape _)). cbn [data map_nd].
        rewrite length_map. unfold ctl.
        rewrite (proj2 (medial_axis_shape _)).
        cbn [data gt0 map_nd slice_of]. rewrite length_map, bw_shape.
        cbn [tl]. fold r. apply slice_data_length with d; assumption. }
      cbn [shape data map_nd]. rewrite Hsd, shape_eqb_refl. cbn [bind].
      fold r. rewrite map_id.
      set (chunk := map (fun x => Qlt_bool (min_thickness + eps5)%Q x)
                        (data dist)).
      assert (Hcl : length chunk = r) by (unfold chunk; now rewrite length_map).
      assert (Hfl : length (firstn (k * r) (data safe_zone)) = k * r)
        by (rewrite length_firstn; nia).
      rewrite <- bw_shape. rewrite IH.
      * cbn [data]. f_equal. f_equal.
        replace (S k * r) with (k * r + r) by lia.
        rewrite app_assoc, firstn_app.
        rewrite firstn_all2 by (rewrite length_app; lia).
        replace (k * r + r - length (firstn (k * r) (data safe_zone) ++ chunk))
          with 0 by (rewrite length_app; lia).
        rewrite firstn_O, app_nil_r, <- app_assoc. reflexivity.
      * lia.
      * reflexivity.
      * cbn [data]. rewrite !length_app, length_skipn. lia.
      * cbn [data]. rewrite app_assoc, skipn_app.
        rewrite skipn_all2 by (rewrite length_app; lia).
        replace (S k * r - length (firstn (k * r) (data safe_zone) ++ chunk))
          with 0 by (rewrite length_app; lia).
        cbn [skipn app].
        replace (S k * r) with (r + k * r) by lia.
        rewrite <- skipn_skipn, Hzero, skipn_repeat_le. f_equal. lia.
    + cbn [bind]. rewrite <- bw_shape. rewrite IH; auto; try lia.
      * f_equal. f_equal.
        replace (S k * r) with (k * r + r) by lia.
        rewrite firstn_plus, Hzero, firstn_repeat_le by lia.
        now rewrite <- app_assoc.
      * replace (S k * r) with (r + k * r) by lia.
        rewrite <- skipn_skipn, Hzero, skipn_repeat_le. f_equal. lia.
Qed.

Lemma safe_zone_of_data :
  safe_zone_of medial_axis distance_transform_edt bw min_thickness
  = Ok (mk_ndarray (shape bw)
          (concat (map (slice_safe medial_axis distance_transform_edt
                                   bw min_thickness)
                       (seq 0 d)))).
Proof.
  unfold safe_zone_of, shape0. rewrite bw_shape. cbn [bind].
  rewrite <- bw_shape. rewrite safe_zone_loop_data.
  - reflexivity.
  - lia.
  - reflexivity.
  - cbn [zeros_like full data]. rewrite repeat_length, bw_shape. reflexivity.
  - cbn [zeros_like full data skipn Nat.mul]. rewrite bw_shape. reflexivity.
Qed.

Lemma slice_safe_length zz :
  zz < d ->
  length (slice_safe medial_axis distance_transform_edt bw min_thickness zz)
  = prod_shape rest.
Proof.
  intros Hz. unfold slice_safe. cbv zeta.
  assert (Hlen : length (data bw) = d * prod_shape rest).
  { unfold wf in bw_wf. rewrite bw_wf, bw_shape. reflexivity. }
  destruct (any (slice_of bw zz)).
  - rewrite length_map, (proj2 (edt_shape _)). cbn [data map_nd].
    rewrite length_map, (proj2 (medial_axis_shape _)).
    cbn [data gt0 map_nd slice_of]. rewrite length_map, bw_shape. cbn [tl].
    now apply slice_data_length with d.
  - rewrite repeat_length, bw_shape. reflexivity.
Qed.

(** A voxel on the medial axis of its slice is not in the safe zone. *)
Lemma skeleton_not_safe zz j :
  zero_at_zeros distance_transform_edt ->
  (0 <= min_thickness + eps5)%Q ->
  zz < d -> j < prod_shape rest ->
  nth j (data (medial_axis (gt0 (slice_of bw zz)))) false = true ->
  nth j (slice_safe medial_axis distance_transform_edt bw min_thickness zz)
      false = false.
Proof.
  intros Hzero Hmt Hz Hj Hctl. unfold slice_safe. cbv zeta.
  assert (Hlen : length (data bw) = d * prod_shape rest).
  { unfold wf in bw_wf. rewrite bw_wf, bw_shape. reflexivity. }
  destruct (any (slice_of bw zz)).
  - set (ctl := medial_axis (gt0 (slice_of bw zz))) in *.
    assert (Hlc : length (data ctl) = prod_shape rest).
    { unfold ctl. rewrite (proj2 (medial_axis_shape _)).
      cbn [data gt0 map_nd slice_of]. rewrite length_map, bw_shape. cbn [tl].
      now apply slice_data_length with d. }
    rewrite (map_nth_lt _ _ 0%Q false)
      by (rewrite (proj2 (edt_shape _)); cbn [data map_nd];
          rewrite length_map; lia).
    apply Qlt_bool_false.
    rewrite (Hzero (map_nd (fun b => negb b) ctl) j).
    + exact Hmt.
    + cbn [data map_nd]. rewrite length_map. lia.
    + cbn [data map_nd]. rewrite (map_nth_lt _ _ false false) by lia.
      now rewrite Hctl.
  - apply nth_repeat.
Qed.

End ThinningProofs.

(** C4. The voxels set to 0 by [topology_preserving_thinning] are exactly
    those in both [safe_zone] and [rm_candidate]; every other voxel keeps
    the value it has in [bw > 0], so a voxel outside the safe zone is never
    removed, whatever the erosion does to it. *)
Theorem thinning_removes_safe_candidates {A} `{Scalar A}
        (medial_axis : ndarray bool -> ndarray bool)
        (distance_transform_edt : ndarray bool -> ndarray Q)
        (footprint : Type) (ball : Z -> footprint)
        (erosion : ndarray bool -> footprint -> ndarray bool)
        (bw : ndarray A) (min_thickness : Q) (thin : Z) :
  shape_preserving medial_axis ->
  shape_preserving distance_transform_edt ->
  (forall fp, shape_preserving (fun x => erosion x fp)) ->
  ndim bw = 3 -> wf bw ->
  exists safe_zone rm_candidate out,
    safe_zone_of medial_axis distance_transform_edt (gt0 bw) min_thickness
    = Ok safe_zone
    /\ rm_candidate_of ball erosion (gt0 bw) thin = Ok rm_candidate
    /\ topology_preserving_thinning medial_axis distance_transform_edt
         ball erosion bw min_thickness thin = Ok out
    /\ shape out = shape bw
    /\ length (data out) = length (data bw)
    /\ (forall p, p < length (data bw) ->
          nth p (data out) false
          = if nth p (data safe_zone) false && nth p (data rm_candidate) false
            then false
            else nth p (data (gt0 bw)) false)
    /\ (forall p, nth p (data safe_zone) false = false ->
          nth p (data out) false = nth p (data (gt0 bw)) false).
Proof.
  intros Hma Hedt Her Hd Hw.
  assert (Hl0 : length (data (gt0 bw)) = length (data bw))
    by (simpl; apply length_map).
  assert (Hw0 : wf (gt0 bw)) by (unfold wf in *; now rewrite Hl0).
  unfold ndim in Hd. destruct (shape bw) as [|d rest] eqn:Hs; [discriminate|].
  assert (Hs0 : shape (gt0 bw) = d :: rest) by exact Hs.
  assert (Hd0 : ndim (gt0 bw) = 3) by (unfold ndim; now rewrite Hs0).
  destruct (@safe_zone_of_ok medial_axis distance_transform_edt Hma Hedt
              (gt0 bw) d rest Hs0 Hd0 Hw0 min_thickness)
    as [sz [Esz [Hsz Hlz]]].
  set (er := erosion (gt0 (gt0 bw)) (ball thin)).
  assert (Hser : shape er = shape (gt0 bw)).
  { unfold er. rewrite (proj1 (Her _ _)). reflexivity. }
  assert (Hler : length (data er) = length (data bw)).
  { unfold er. rewrite (proj2 (Her _ _)). simpl. now rewrite !length_map. }
  set (rm := mk_ndarray (shape (gt0 (gt0 bw)))
               (zip_with xorb (data (gt0 (gt0 bw))) (data er))).
  assert (Erm : rm_candidate_of ball erosion (gt0 bw) thin = Ok rm).
  { unfold rm_candidate_of, logical_xor. fold er.
    now rewrite elementwise_ok by (rewrite Hser; reflexivity). }
  assert (Hlrm : length (data rm) = length (data bw)).
  { unfold rm. cbn [data]. rewrite zip_with_length; simpl;
      rewrite ?length_map; auto. }
  set (mask := mk_ndarray (shape sz) (zip_with andb (data sz) (data rm))).
  set (out := mk_ndarray (shape (gt0 bw))
                (zip_with (fun x (b : bool) => if b then false else x)
                   (data (gt0 bw)) (data mask))).
  assert (Hlm : length (data mask) = length (data bw)).
  { unfold mask. cbn [data]. rewrite zip_with_length; congruence. }
  assert (Eout : topology_preserving_thinning medial_axis
                   distance_transform_edt ball erosion bw min_thickness thin
                 = Ok out).
  { unfold topology_preserving_thinning. rewrite Esz, Erm. cbn [bind].
    unfold logical_and. rewrite elementwise_ok by (rewrite Hsz; reflexivity).
    cbn [bind]. unfold set_where.
    rewrite elementwise_ok by (cbn [shape]; rewrite Hsz; reflexivity).
    reflexivity. }
  assert (Hnth : forall p, p < length (data bw) ->
            nth p (data out) false
            = if nth p (data sz) false && nth p (data rm) false
              then false else nth p (data (gt0 bw)) false).
  { intros p Hp. unfold out, mask. cbn [data].
    rewrite (zip_with_nth _ _ _ false false) by
      (rewrite ?zip_with_length; congruence).
    rewrite (zip_with_nth _ _ _ false false) by congruence.
    reflexivity. }
  exists sz, rm, out. repeat split; auto.
  - unfold out. cbn [data]. rewrite zip_with_length; congruence.
  - intros p Hp.
    destruct (Nat.lt_ge_cases p (length (data bw))) as [Hlt|Hge].
    + rewrite Hnth, Hp by assumption. reflexivity.
    + rewrite !nth_overflow; auto; try lia.
      unfold out. cbn [data]. rewrite zip_with_length; lia.
Qed.

(** What the thinning returns, voxel by voxel, with the safe zone slice by
    slice. *)
Lemma thinning_unfold {A} `{Scalar A}
      (medial_axis : ndarray bool -> ndarray bool)
      (distance_transform_edt : ndarray bool -> ndarray Q)
      (footprint : Type) (ball : Z -> footprint)
      (erosion : ndarray bool -> footprint -> ndarray bool)
      (bw : ndarray A) (d : nat) (rest : list nat)
      (min_thickness : Q) (thin : Z) :
  shape_preserving medial_axis ->
  shape_preserving distance_transform_edt ->
  (forall fp, shape_preserving (fun x => erosion x fp)) ->
  shape bw = d :: rest -> ndim bw = 3 -> wf bw ->
  exists out,
    topology_preserving_thinning medial_axis distance_transform_edt
      ball erosion bw min_thickness thin = Ok out
    /\ shape out = shape bw
    /\ length (data out) = length (data bw)
    /\ forall p, p < length (data bw) ->
         nth p (data out) false
         = if nth p (concat (map (slice_safe medial_axis
                                    distance_transform_edt (gt0 bw)
                                    min_thickness) (seq 0 d))) false
              && xorb (nth p (data (gt0 bw)) false)
                      (nth p (data (erosion (gt0 bw) (ball thin))) false)
           then false
           else nth p (data (gt0 bw)) false.
Proof.
  intros Hma Hedt Her Hs Hd Hw.
  assert (Hl0 : length (data (gt0 bw)) = length (data bw))
    by (simpl; apply length_map).
  assert (Hw0 : wf (gt0 bw)) by (unfold wf in *; now rewrite Hl0).
  assert (Hs0 : shape (gt0 bw) = d :: rest) by exact Hs.
  assert (Hd0 : ndim (gt0 bw) = 3) by exact Hd.
  pose proof (@safe_zone_of_data medial_axis distance_transform_edt Hma Hedt
                (gt0 bw) d rest Hs0 Hd0 Hw0 min_thickness) as Esz.
  set (safe := concat (map (slice_safe medial_axis distance_transform_edt
                              (gt0 bw) min_thickness) (seq 0 d))) in *.
  assert (Hlsafe : length safe = length (data bw)).
  { unfold safe. rewrite concat_chunks_length with (r := prod_shape rest).
    - unfold wf in Hw. rewrite Hw, Hs. reflexivity.
    - intros z Hz. eapply slice_safe_length; eauto. lia. }
  set (er := erosion (gt0 bw) (ball thin)).
  assert (Hser : shape er = shape (gt0 bw)).
  { unfold er. rewrite (proj1 (Her _ _)). reflexivity. }
  assert (Hler : length (data er) = length (data bw)).
  { unfold er. rewrite (proj2 (Her _ _)). exact Hl0. }
  eexists. split.
  { unfold topology_preserving_thinning. rewrite Esz. cbn [bind].
    unfold rm_candidate_of, logical_xor. rewrite !gt0_bool. fold er.
    rewrite elementwise_ok by (rewrite Hser; reflexivity).
    cbn [bind]. unfold logical_and.
    rewrite elementwise_ok by reflexivity.
    cbn [bind]. unfold set_where.
    rewrite elementwise_ok by reflexivity.
    reflexivity. }
  cbn [shape data].
  assert (Hlx : length (zip_with xorb (data (gt0 bw)) (data er))
                = length (data bw))
    by (rewrite zip_with_length; congruence).
  assert (Hlm : length (zip_with andb safe
                          (zip_with xorb (data (gt0 bw)) (data er)))
                = length (data bw))
    by (rewrite zip_with_length; congruence).
  split; [reflexivity|]. split; [rewrite zip_with_length; congruence|].
  intros p Hp.
  rewrite (zip_with_nth _ _ _ false false) by congruence.
  rewrite (zip_with_nth _ _ _ false false) by congruence.
  rewrite (zip_with_nth _ _ _ false false) by congruence.
  reflexivity.
Qed.

(** X7. A voxel of [bw] on the medial axis that [medial_axis] returns for
    its slice is kept by the thinning: its distance to the axis is 0, so it
    is not in the safe zone.  What the thinning does to a thin line thus
    rests on which of its voxels [medial_axis] keeps. *)
Lemma thinning_keeps_medial_axis {A} `{Scalar A}
      (medial_axis : ndarray bool -> ndarray bool)
      (distance_transform_edt : ndarray bool -> ndarray Q)
      (footprint : Type) (ball : Z -> footprint)
      (erosion : ndarray bool -> footprint -> ndarray bool)
      (bw : ndarray A) (d : nat) (rest : list nat)
      (min_thickness : Q) (thin : Z) (zz j : nat) :
  shape_preserving medial_axis ->
  shape_preserving distance_transform_edt ->
  (forall fp, shape_preserving (fun x => erosion x fp)) ->
  zero_at_zeros distance_transform_edt ->
  (0 <= min_thickness + eps5)%Q ->
  shape bw = d :: rest -> ndim bw = 3 -> wf bw ->
  zz < d -> j < prod_shape rest ->
  nth j (data (medial_axis (gt0 (slice_of (gt0 bw) zz)))) false = true ->
  exists out,
    topology_preserving_thinning medial_axis distance_transform_edt
      ball erosion bw min_thickness thin = Ok out
    /\ nth (zz * prod_shape rest + j) (data out) false
       = nth (zz * prod_shape rest + j) (data (gt0 bw)) false.
Proof.
  intros Hma Hedt Her Hzero Hmt Hs Hd Hw Hz Hj Hctl.
  destruct (@thinning_unfold A _ medial_axis distance_transform_edt
              footprint ball erosion bw d rest min_thickness thin
              Hma Hedt Her Hs Hd Hw)
    as [out [Eout [_ [_ Hn]]]].
  exists out. split; [exact Eout|].
  assert (Hs0 : shape (gt0 bw) = d :: rest) by exact Hs.
  assert (Hd0 : ndim (gt0 bw) = 3) by exact Hd.
  assert (Hw0 : wf (gt0 bw)).
  { unfold wf in *. simpl. now rewrite length_map. }
  rewrite Hn.
  2: { unfold wf in Hw. rewrite Hw, Hs. simpl. fold (prod_shape rest). nia. }
  replace (nth (zz * prod_shape rest + j)
             (concat (map (slice_safe medial_axis distance_transform_edt
                             (gt0 bw) min_thickness) (seq 0 d))) false)
    with false; [reflexivity|].
  symmetry. rewrite <- (slice_data_nth _ false zz Hj).
  rewrite slice_data_chunks with (n := d); auto.
  - eapply skeleton_not_safe; eauto.
  - intros z Hz'. eapply slice_safe_length; eauto.
Qed.

Lemma keep_all_shape : shape_preserving keep_all.
Proof. intros x. split; reflexivity. Qed.

Lemma two_off_zero_shape : shape_preserving two_off_zero.
Proof. intros x. split; [reflexivity|apply length_map]. Qed.

Lemma erode_all_shape fp : shape_preserving (fun x => erode_all x fp).
Proof. intros x. split; [reflexivity|apply length_map]. Qed.

Lemma thinning_removes_safe_candidates_witness :
  exists safe_zone rm_candidate out,
    safe_zone_of keep_all two_off_zero (gt0 stack2x3x3) 1 = Ok safe_zone
    /\ rm_candidate_of unit_ball erode_all (gt0 stack2x3x3) 1
       = Ok rm_candidate
    /\ topology_preserving_thinning keep_all two_off_zero unit_ball erode_all
         stack2x3x3 1 1 = Ok out
    /\ shape out = shape stack2x3x3
    /\ length (data out) = length (data stack2x3x3)
    /\ (forall p, p < length (data stack2x3x3) ->
          nth p (data out) false
          = if nth p (data safe_zone) false && nth p (data rm_candidate) false
            then false
            else nth p (data (gt0 stack2x3x3)) false)
    /\ (forall p, nth p (data safe_zone) false = false ->
          nth p (data out) false = nth p (data (gt0 stack2x3x3)) false).
Proof.
  apply (@thinning_removes_safe_candidates Z _ keep_all two_off_zero unit
           unit_ball erode_all stack2x3x3 1 1
           keep_all_shape two_off_zero_shape erode_all_shape).
  - reflexivity.
  - reflexivity.
Defined.


(** ** Floats: rounding *)

(** The nearest integer is within a half. *)
Lemma div_nearest_even_bound (s t : Z) :
  (0 < t)%Z ->
  (- t <= 2 * (div_nearest_even s t * t - s) <= t)%Z.
Proof.
  intros Ht. unfold div_nearest_even. cbv zeta.
  pose proof (Z.div_mod s t ltac:(lia)) as E.
  pose proof (Z.mod_pos_bound s t Ht) as Hr.
  destruct (Z.compare_spec (2 * (s mod t)) t) as [H|H|H].
  - destruct (Z.even (s / t)); nia.
  - nia.
  - nia.
Qed.

Lemma scale2_pos (n d : Pos.t) (e : Z) :
  (0 < fst (scale2 (Zpos n) (Zpos d) e))%Z
  /\ (0 < snd (scale2 (Zpos n) (Zpos d) e))%Z.
Proof.
  unfold scale2. destruct (Z.leb_spec 0 e) as [H|H]; cbn [fst snd].
  - split; [lia|]. apply Z.mul_pos_pos; [lia|]. apply Z.pow_pos_nonneg; lia.
  - split; [|lia]. apply Z.mul_pos_pos; [lia|]. apply Z.pow_pos_nonneg; lia.
Qed.

Lemma pow2_pos (e : Z) : (0 < pow2 e)%Q.
Proof.
  unfold pow2. destruct (Z.leb_spec 0 e) as [H|H].
  - rewrite <- (Zlt_Qlt 0). apply Z.pow_pos_nonneg; lia.
  - reflexivity.
Qed.

(** [scale2] keeps the value: [s / t * 2 ^ e = n / d]. *)
Lemma scale2_value (n d : Pos.t) (e : Z) :
  let s := fst (scale2 (Zpos n) (Zpos d) e) in
  let t := snd (scale2 (Zpos n) (Zpos d) e) in
  (inject_Z s * pow2 e == (Zpos n # d) * inject_Z t)%Q.
Proof.
  cbv zeta. unfold scale2, pow2.
  destruct (Z.leb_spec 0 e) as [H|H]; cbn [fst snd].
  - assert (Hp : (0 < 2 ^ e)%Z) by (apply Z.pow_pos_nonneg; lia).
    unfold Qeq, Qmult, inject_Z. cbn [Qnum Qden]. lia.
  - assert (Hp : (0 < 2 ^ (- e))%Z) by (apply Z.pow_pos_nonneg; lia).
    unfold Qeq, Qmult, inject_Z. cbn [Qnum Qden].
    rewrite !Pos2Z.inj_mul, Z2Pos.id by exact Hp. lia.
Qed.

(** One step down in the exponent doubles the scaled value. *)
Lemma scale2_pred (n d : Pos.t) (e : Z) :
  let s := fst (scale2 (Zpos n) (Zpos d) e) in
  let t := snd (scale2 (Zpos n) (Zpos d) e) in
  let s' := fst (scale2 (Zpos n) (Zpos d) (e - 1)) in
  let t' := snd (scale2 (Zpos n) (Zpos d) (e - 1)) in
  (s' * t = 2 * s * t')%Z.
Proof.
  cbv zeta. unfold scale2.
  destruct (Z.leb_spec 0 e) as [H|H];
    destruct (Z.leb_spec 0 (e - 1)) as [H'|H']; cbn [fst snd]; try lia.
  - replace e with (Z.succ (e - 1)) at 1 by lia.
    rewrite Z.pow_succ_r by lia. lia.
  - replace e with 0%Z by lia. simpl. lia.
  - replace (- (e - 1))%Z with (Z.succ (- e)) by lia.
    rewrite Z.pow_succ_r by lia. lia.
Qed.

(** At the exponent [e0] the scaled value is above [2 ^ 51]. *)
Lemma scale2_e0 (n d : Pos.t) :
  let e0 := (Z.log2 (Zpos n) - Z.log2 (Zpos d) - 52)%Z in
  let s := fst (scale2 (Zpos n) (Zpos d) e0) in
  let t := snd (scale2 (Zpos n) (Zpos d) e0) in
  (2 ^ 51 * t < s)%Z.
Proof.
  cbv zeta.
  pose proof (Z.log2_spec (Zpos n) ltac:(lia)) as [Hn1 Hn2].
  pose proof (Z.log2_spec (Zpos d) ltac:(lia)) as [Hd1 Hd2].
  pose proof (Z.log2_nonneg (Zpos n)) as Hln.
  pose proof (Z.log2_nonneg (Zpos d)) as Hld.
  set (ln := Z.log2 (Zpos n)) in *. set (ld := Z.log2 (Zpos d)) in *.
  unfold scale2. destruct (Z.leb_spec 0 (ln - ld - 52)) as [H|H];
    cbn [fst snd].
  - assert (E : (2 ^ ln = 2 ^ 51 * (2 ^ Z.succ ld * 2 ^ (ln - ld - 52)))%Z).
    { rewrite <- !Z.pow_add_r by lia. f_equal. lia. }
    assert (Hp : (0 < 2 ^ (ln - ld - 52))%Z) by (apply Z.pow_pos_nonneg; lia).
    nia.
  - assert (E : (2 ^ ln * 2 ^ (- (ln - ld - 52)) = 2 ^ 51 * 2 ^ Z.succ ld)%Z).
    { rewrite <- !Z.pow_add_r by lia. f_equal. lia. }
    assert (Hp : (0 < 2 ^ (- (ln - ld - 52)))%Z)
      by (apply Z.pow_pos_nonneg; lia).
    nia.
Qed.

(** At the exponent that [round_pos] settles on, the scaled value is at
    least [2 ^ 52]. *)
Lemma scale2_e1 (n d : Pos.t) :
  let e0 := (Z.log2 (Zpos n) - Z.log2 (Zpos d) - 52)%Z in
  let e1 := if (fst (scale2 (Zpos n) (Zpos d) e0)
                / snd (scale2 (Zpos n) (Zpos d) e0) <? 2 ^ 52)%Z
            then (e0 - 1)%Z else e0 in
  (2 ^ 52 * snd (scale2 (Zpos n) (Zpos d) e1)
   <= fst (scale2 (Zpos n) (Zpos d) e1))%Z
  /\ (e0 - 1 <= e1 <= e0)%Z.
Proof.
  cbv zeta.
  set (e0 := (Z.log2 (Zpos n) - Z.log2 (Zpos d) - 52)%Z).
  pose proof (scale2_e0 n d) as H0. cbv zeta in H0. fold e0 in H0.
  destruct (scale2_pos n d e0) as [Hs Ht].
  destruct (Z.ltb_spec (fst (scale2 (Zpos n) (Zpos d) e0)
                        / snd (scale2 (Zpos n) (Zpos d) e0)) (2 ^ 52))
    as [H|H].
  - split; [|lia].
    pose proof (scale2_pred n d e0) as Hp. cbv zeta in Hp.
    destruct (scale2_pos n d (e0 - 1)) as [Hs' Ht'].
    set (s := fst (scale2 (Zpos n) (Zpos d) e0)) in *.
    set (t := snd (scale2 (Zpos n) (Zpos d) e0)) in *.
    set (s' := fst (scale2 (Zpos n) (Zpos d) (e0 - 1))) in *.
    set (t' := snd (scale2 (Zpos n) (Zpos d) (e0 - 1))) in *.
    change (2 ^ 52)%Z with (2 * 2 ^ 51)%Z.
    set (c := (2 ^ 51)%Z) in *.
    assert (H1 : (2 * c * t' * t < s' * t)%Z).
    { rewrite Hp. nia. }
    nia.
  - split; [|lia].
    set (s := fst (scale2 (Zpos n) (Zpos d) e0)) in *.
    set (t := snd (scale2 (Zpos n) (Zpos d) e0)) in *.
    pose proof (Z.mul_div_le s t Ht). nia.
Qed.

(** The relative error of [round_pos] away from the ends of the range. *)
Lemma round_pos_error (n d : Pos.t) :
  (Zpos d <= Zpos n * 2 ^ 1000)%Z ->
  (Zpos n <= Zpos d * 2 ^ 1000)%Z ->
  exists r,
    round_pos n d = Finite r
    /\ ((Zpos n # d) * (1 - unit_roundoff) <= r)%Q
    /\ (r <= (Zpos n # d) * (1 + unit_roundoff))%Q.
Proof.
  intros Hlo Hhi. unfold round_pos.
  set (e0 := (Z.log2 (Zpos n) - Z.log2 (Zpos d) - 52)%Z).
  destruct (scale2_e1 n d) as [H52 He1]. cbv zeta in H52, He1.
  fold e0 in H52, He1.
  set (e1 := if (fst (scale2 (Zpos n) (Zpos d) e0)
                 / snd (scale2 (Zpos n) (Zpos d) e0) <? 2 ^ 52)%Z
             then (e0 - 1)%Z else e0) in *.
  assert (Hlog1 : (Z.log2 (Zpos d) <= Z.log2 (Zpos n) + 1000)%Z).
  { rewrite Z.add_comm.
    rewrite <- (Z.log2_mul_pow2 (Zpos n) 1000) by lia.
    now apply Z.log2_le_mono. }
  assert (Hlog2 : (Z.log2 (Zpos n) <= Z.log2 (Zpos d) + 1000)%Z).
  { rewrite Z.add_comm.
    rewrite <- (Z.log2_mul_pow2 (Zpos d) 1000) by lia.
    now apply Z.log2_le_mono. }
  cbv zeta.
  rewrite Z.max_l by lia.
  replace ((971 <? e1)%Z) with false by (symmetry; apply Z.ltb_ge; lia).
  replace ((e1 =? 971)%Z) with false by (symmetry; apply Z.eqb_neq; lia).
  cbn [orb andb].
  destruct (scale2_pos n d e1) as [Hs Ht].
  pose proof (div_nearest_even_bound (fst (scale2 (Zpos n) (Zpos d) e1)) Ht)
    as Hm.
  pose proof (scale2_value n d e1) as Hv. cbv zeta in Hv.
  set (s := fst (scale2 (Zpos n) (Zpos d) e1)) in *.
  set (t := snd (scale2 (Zpos n) (Zpos d) e1)) in *.
  set (m := div_nearest_even s t) in *.
  pose proof (pow2_pos e1) as HP. set (P := pow2 e1) in *.
  eexists. split; [reflexivity|].
  rewrite Qred_correct.
  set (q := (Zpos n # d)%Q) in *.
  assert (HtQ : (0 < inject_Z t)%Q) by (rewrite <- (Zlt_Qlt 0); exact Ht).
  (* everything times [t] *)
  assert (Hq : (q == inject_Z s * P / inject_Z t)%Q).
  { rewrite Hv. field. intros E. rewrite E in HtQ. discriminate. }
  assert (H1 : (inject_Z (2 ^ 52) * inject_Z t <= inject_Z s)%Q).
  { rewrite <- inject_Z_mult, <- Zle_Qle. exact H52. }
  assert (H2 : (- t <= 2 * (m * t) + - (2 * s))%Z) by lia.
  assert (H3 : (2 * (m * t) + - (2 * s) <= t)%Z) by lia.
  rewrite Zle_Qle in H2, H3.
  repeat rewrite ?inject_Z_plus, ?inject_Z_opp, ?inject_Z_mult in H2.
  repeat rewrite ?inject_Z_plus, ?inject_Z_opp, ?inject_Z_mult in H3.
  change (inject_Z 2) with 2%Q in H2, H3.
  change (inject_Z (2 ^ 52)) with 4503599627370496%Q in H1.
  unfold unit_roundoff.
  set (S := inject_Z s) in *. set (T := inject_Z t) in *.
  set (M := inject_Z m) in *. set (MT := (M * T)%Q) in *.
  assert (Hlow : (0 <= MT - S * (1 - (1 # 9007199254740992)))%Q) by lra.
  assert (Hupp : (0 <= S * (1 + (1 # 9007199254740992)) - MT)%Q) by lra.
  split.
  - apply Qmult_le_r with T; [exact HtQ|].
    setoid_replace (q * (1 - (1 # 9007199254740992)) * T)%Q
      with (P * (S * (1 - (1 # 9007199254740992))))%Q
      by (rewrite <- (Qmult_assoc q), (Qmult_comm _ T), Qmult_assoc, <- Hv;
          ring).
    setoid_replace (M * P * T)%Q with (P * MT)%Q by (unfold MT; ring).
    apply Qmult_le_l; [exact HP|lra].
  - apply Qmult_le_r with T; [exact HtQ|].
    setoid_replace (q * (1 + (1 # 9007199254740992)) * T)%Q
      with (P * (S * (1 + (1 # 9007199254740992))))%Q
      by (rewrite <- (Qmult_assoc q), (Qmult_comm _ T), Qmult_assoc, <- Hv;
          ring).
    setoid_replace (M * P * T)%Q with (P * MT)%Q by (unfold MT; ring).
    apply Qmult_le_l; [exact HP|lra].
Qed.



Lemma is_zero_false (d : Q) : ~ (d == 0)%Q -> is_zero d = false.
Proof.
  intros Hd. unfold is_zero. apply Z.eqb_neq. intros E. apply Hd.
  unfold Qeq. simpl. lia.
Qed.



(** Between [2 ^ -200] and [2 ^ 200] a rational is rounded to a float within
    the relative error [2 ^ -53]. *)
Lemma round64_near (q : Q) :
  (1 # 1606938044258990275541962092341162602522202993782792835301376 <= q)%Q ->
  (q <= 1606938044258990275541962092341162602522202993782792835301376)%Q ->
  exists r,
    round64 q = Finite r
    /\ (q * (1 - unit_roundoff) <= r)%Q
    /\ (r <= q * (1 + unit_roundoff))%Q.
Proof.
  intros Hlo Hhi. destruct q as [N D].
  assert (HN : (0 < N)%Z).
  { unfold Qle in Hlo. cbn [Qnum Qden] in Hlo. lia. }
  destruct N as [|n|n]; try lia.
  unfold round64. cbn [Qnum Qden].
  apply round_pos_error.
  - unfold Qle in Hlo. cbn [Qnum Qden] in Hlo.
    assert (H : (1606938044258990275541962092341162602522202993782792835301376 <= 2 ^ 1000)%Z)
      by (apply Z.leb_le; vm_compute; reflexivity).
    nia.
  - unfold Qle in Hhi. cbn [Qnum Qden] in Hhi.
    assert (H : (1606938044258990275541962092341162602522202993782792835301376 <= 2 ^ 1000)%Z)
      by (apply Z.leb_le; vm_compute; reflexivity).
    nia.
Qed.

Lemma Qceiling_unique (x : Q) (z : Z) :
  (inject_Z (z - 1) < x)%Q -> (x <= inject_Z z)%Q -> Qceiling x = z.
Proof.
  intros Hlo Hhi.
  assert (H1 : (Qceiling x <= z)%Z).
  { rewrite <- (Qceiling_Z z). now apply Qceiling_resp_le. }
  assert (H2 : (z - 1 < Qceiling x)%Z).
  { rewrite Zlt_Qlt. eapply Qlt_le_trans; [exact Hlo|apply Qle_ceiling]. }
  lia.
Qed.

Lemma removelast_map_seq {A} (f : nat -> A) (n : nat) :
  removelast (map f (seq 0 n)) = map f (seq 0 (n - 1)).
Proof.
  destruct n as [|n]; [reflexivity|].
  replace (S n - 1) with n by lia.
  rewrite seq_S, map_app. cbn [map Nat.add]. apply removelast_last.
Qed.

Ltac round_near q r E Hlo Hhi :=
  destruct (@round64_near q) as [r [E [Hlo Hhi]]];
  [| |unfold unit_roundoff in Hlo, Hhi].

(** The length that [np.arange] computes for the bin centres of [n] bins,
    and the first two centres and their difference. *)
Lemma bin_centers_steps (n : nat) :
  2 <= n -> (Z.of_nat n <= 2 ^ 40)%Z ->
  let m := inject_Z (Z.of_nat n - 1) in
  exists b stop c1 delta,
    py_div 1 (Z.of_nat n - 1) = Ok (Finite b)
    /\ fadd (Finite 1) (fmul (Finite (1 # 2)) (Finite b)) = Finite stop
    /\ fdiv (fsub (Finite stop) (Finite 0)) (Finite b)
       = Finite (value_of (fdiv (fsub (Finite stop) (Finite 0)) (Finite b)))
    /\ Qceiling (value_of (fdiv (fsub (Finite stop) (Finite 0)) (Finite b)))
       = Z.of_nat n
    /\ fadd (Finite 0) (Finite b) = Finite c1
    /\ fsub (Finite c1) (Finite 0) = Finite delta
    /\ (0 <= c1)%Q /\ (c1 * m <= 1 + (1 # 1125899906842624))%Q
    /\ (1 # 2199023255552 <= delta)%Q
    /\ (delta * m <= 1 + (1 # 1125899906842624))%Q.
Proof.
  intros Hn Hn40 m.
  assert (Hm1 : (1 <= m)%Q).
  { unfold m. rewrite <- (Zle_Qle 1). lia. }
  assert (Hm40 : (m <= 1099511627776)%Q).
  { unfold m. change 1099511627776%Q with (inject_Z (2 ^ 40)).
    rewrite <- Zle_Qle. lia. }
  assert (Hy : (Z.of_nat n - 1 =? 0)%Z = false) by (apply Z.eqb_neq; lia).
  unfold py_div. rewrite Hy. fold m. change (inject_Z 1) with 1%Q.
  set (a := (1 / m)%Q).
  assert (Ham : (a * m == 1)%Q).
  { unfold a. field. intros E. lra. }
  assert (Ha1 : (a <= 1)%Q).
  { unfold a. apply Qle_shift_div_r; lra. }
  assert (Ha40 : (1 # 1099511627776 <= a)%Q).
  { unfold a. apply Qle_shift_div_l; lra. }
  round_near a b Eb Hb1 Hb2; [lra|lra|].
  round_near ((1 # 2) * b)%Q h Eh Hh1 Hh2; [lra|lra|].
  round_near (1 + h)%Q stop Es Hs1 Hs2; [lra|lra|].
  round_near (stop + 0)%Q s4 E4 H41 H42; [lra|lra|].
  assert (Hbz : is_zero b = false).
  { apply is_zero_false. intros E. rewrite E in Hb1. lra. }
  assert (Hbpos : (0 < b)%Q) by lra.
  (* [b * m] and the quotient times [b] *)
  assert (HY1 : (1 - (1 # 9007199254740992) <= b * m)%Q).
  { setoid_replace (1 - (1 # 9007199254740992))%Q
      with ((a * (1 - (1 # 9007199254740992))) * m)%Q
      by (rewrite <- (Qmult_comm m), Qmult_assoc, (Qmult_comm m), Ham; ring).
    apply Qmult_le_r; lra. }
  assert (HY2 : (b * m <= 1 + (1 # 9007199254740992))%Q).
  { setoid_replace (1 + (1 # 9007199254740992))%Q
      with ((a * (1 + (1 # 9007199254740992))) * m)%Q
      by (rewrite <- (Qmult_comm m), Qmult_assoc, (Qmult_comm m), Ham; ring).
    apply Qmult_le_r; lra. }
  set (Y := (b * m)%Q) in *.
  assert (Hq5lo : (m + (1 # 4) <= s4 / b)%Q).
  { apply Qle_shift_div_l; [exact Hbpos|].
    setoid_replace ((m + (1 # 4)) * b)%Q with (Y + (1 # 4) * b)%Q
      by (unfold Y; ring).
    lra. }
  assert (Hq5hi : (s4 / b <= m + (3 # 4))%Q).
  { apply Qle_shift_div_r; [exact Hbpos|].
    setoid_replace ((m + (3 # 4)) * b)%Q with (Y + (3 # 4) * b)%Q
      by (unfold Y; ring).
    lra. }
  round_near (s4 / b)%Q L EL HL1 HL2; [lra|lra|].
  round_near (0 + b)%Q c1 Ec HC1 HC2; [lra|lra|].
  round_near (c1 + 0)%Q delta Ed HD1 HD2; [lra|lra|].
  assert (Efs : fsub (Finite stop) (Finite 0) = Finite s4).
  { unfold fsub. cbn [fneg fadd]. change (Qred (- 0)) with 0%Q. exact E4. }
  assert (Efd : fdiv (fsub (Finite stop) (Finite 0)) (Finite b) = Finite L).
  { rewrite Efs. cbn [fdiv]. rewrite Hbz. exact EL. }
  exists b, stop, c1, delta.
  rewrite Eb, Efd. cbn [fmul fadd value_of]. rewrite Eh, Es, Ec.
  unfold fsub. cbn [fneg fadd]. change (Qred (- 0)) with 0%Q. rewrite Ed.
  assert (Hn1 : (inject_Z (Z.of_nat n) == m + 1)%Q).
  { unfold m. change 1%Q with (inject_Z 1). rewrite <- inject_Z_plus.
    now replace (Z.of_nat n - 1 + 1)%Z with (Z.of_nat n) by lia. }
  assert (Hc1m : (c1 * m <= Y * (1 + (1 # 9007199254740992)))%Q).
  { setoid_replace (Y * (1 + (1 # 9007199254740992)))%Q
      with ((0 + b) * (1 + (1 # 9007199254740992)) * m)%Q
      by (unfold Y; ring).
    apply Qmult_le_r; lra. }
  assert (Hdm : (delta * m
                 <= Y * ((1 + (1 # 9007199254740992))
                         * (1 + (1 # 9007199254740992))))%Q).
  { setoid_replace (Y * ((1 + (1 # 9007199254740992))
                         * (1 + (1 # 9007199254740992))))%Q
      with ((0 + b) * (1 + (1 # 9007199254740992))
            * (1 + (1 # 9007199254740992)) * m)%Q
      by (unfold Y; ring).
    apply Qmult_le_r; lra. }
  repeat split; try reflexivity.
  - apply Qceiling_unique; [fold m; lra|rewrite Hn1; lra].
  - lra.
  - lra.
  - lra.
  - lra.
Qed.

Lemma in_unit_finite (c : Q) :
  (0 <= c)%Q -> (c < 1)%Q -> in_unit (Finite c) = true.
Proof.
  intros H0 H1. unfold in_unit. cbn [fle flt].
  apply andb_true_iff. split.
  - now apply Qle_bool_iff.
  - apply negb_true_iff. apply not_true_is_false. intros H.
    apply Qle_bool_iff in H. lra.
Qed.

(** For up to [2 ^ 40] bins [np.arange] yields one centre per bin, all of
    them but the last in [[0, 1)]. *)
Lemma centers_fit_ok (n : nat) :
  2 <= n -> (Z.of_nat n <= 2 ^ 40)%Z -> centers_fit n = true.
Proof.
  intros Hn Hn40.
  destruct (bin_centers_steps Hn Hn40)
    as [b [stop [c1 [delta [Epy [Estop [Efd [Ecl [Ec1 [Ed
         [Hc0 [Hc1m [Hdlo Hdm]]]]]]]]]]]]].
  cbv zeta in Hc1m, Hdm. set (m := inject_Z (Z.of_nat n - 1)) in *.
  unfold centers_fit, bin_centers_of. rewrite Epy. cbn [bind].
  rewrite Estop. unfold arange. rewrite Efd, Ecl, Nat2Z.id.
  rewrite Ec1, Ed. rewrite length_map, length_seq, Nat.eqb_refl.
  cbn [andb]. rewrite removelast_map_seq.
  apply forallb_forall. intros x Hx.
  apply in_map_iff in Hx as [i [<- Hi]]. apply in_seq in Hi.
  assert (Him : (inject_Z (Z.of_nat i) + 1 <= m)%Q).
  { unfold m. change 1%Q with (inject_Z 1).
    rewrite <- inject_Z_plus, <- Zle_Qle. lia. }
  destruct i as [|[|i]].
  - reflexivity.
  - apply in_unit_finite; [exact Hc0|].
    assert (H2 : (c1 * 2 <= c1 * m)%Q).
    { rewrite !(Qmult_comm c1). apply Qmult_le_compat_r; [|exact Hc0].
      change (inject_Z (Z.of_nat 1)) with 1%Q in Him. lra. }
    lra.
  - set (iq := inject_Z (Z.of_nat (S (S i)))) in *.
    assert (Hi2 : (2 <= iq)%Q).
    { unfold iq. rewrite <- (Zle_Qle 2). lia. }
    assert (Hm40 : (m <= 1099511627776)%Q).
    { unfold m. change 1099511627776%Q with (inject_Z (2 ^ 40)).
      rewrite <- Zle_Qle. lia. }
    unfold of_nat, of_Z. fold iq.
    round_near iq iv EI HI1 HI2; [lra|lra|].
    rewrite EI. cbn [fmul].
    assert (Hz1 : (delta <= iv * delta)%Q).
    { rewrite <- (Qmult_1_l delta) at 1. apply Qmult_le_compat_r; lra. }
    assert (Hz2 : (iv * delta
                   <= (1 + (1 # 9007199254740992))
                      * (delta * m - delta))%Q).
    { setoid_replace ((1 + (1 # 9007199254740992)) * (delta * m - delta))%Q
        with (((m - 1) * (1 + (1 # 9007199254740992))) * delta)%Q by ring.
      apply Qmult_le_compat_r; lra. }
    set (z1 := (iv * delta)%Q) in *. set (dm := (delta * m)%Q) in *.
    round_near z1 p Ep Hp1 Hp2; [lra|lra|].
    rewrite Ep. cbn [fadd].
    round_near (0 + p)%Q c Ec Hc1 Hc2; [lra|lra|].
    rewrite Ec. apply in_unit_finite; lra.
Qed.

(** ** Floats: the order *)

Lemma fle_refl (a : float) : is_nan a = false -> fle a a = true.
Proof.
  destruct a; simpl; try reflexivity; try discriminate.
  intros _. apply Qle_bool_iff, Qle_refl.
Qed.

Lemma fle_trans (a b c : float) :
  fle a b = true -> fle b c = true -> fle a c = true.
Proof.
  destruct a, b, c; simpl; try reflexivity; try discriminate.
  rewrite !Qle_bool_iff. apply Qle_trans.
Qed.

Lemma flt_fle (a b : float) : flt a b = true -> fle a b = true.
Proof.
  destruct a, b; simpl; try reflexivity; try discriminate.
  rewrite negb_true_iff. intros E. apply Qle_bool_iff.
  apply Qlt_le_weak, Qnot_le_lt. intros H. apply Qle_bool_iff in H.
  congruence.
Qed.

Lemma not_fle_flt (a b : float) :
  is_nan a = false -> is_nan b = false -> fle a b = false -> flt b a = true.
Proof.
  destruct a, b; simpl; try reflexivity; try discriminate.
  intros _ _ E. now rewrite E.
Qed.

Lemma flt_fle_trans (a b c : float) :
  flt a b = true -> fle b c = true -> flt a c = true.
Proof.
  destruct a, b, c; simpl; try reflexivity; try discriminate.
  rewrite !negb_true_iff, Qle_bool_iff. intros E H.
  apply not_true_iff_false. intros H1. apply Qle_bool_iff in H1.
  apply not_true_iff_false in E. apply E. apply Qle_bool_iff.
  eapply Qle_trans; eauto.
Qed.

Lemma fle_flt_trans (a b c : float) :
  fle a b = true -> flt b c = true -> flt a c = true.
Proof.
  destruct a, b, c; simpl; try reflexivity; try discriminate.
  rewrite !negb_true_iff, Qle_bool_iff. intros H E.
  apply not_true_iff_false. intros H1. apply Qle_bool_iff in H1.
  apply not_true_iff_false in E. apply E. apply Qle_bool_iff.
  eapply Qle_trans; eauto.
Qed.

(** ** histogram_otsu *)

Lemma cumsum_from_length acc l : length (cumsum_from acc l) = length l.
Proof. revert acc; induction l as [|x l IH]; intros acc; simpl; auto. Qed.

Lemma cumsum_length l : length (cumsum l) = length l.
Proof. destruct l; simpl; auto using cumsum_from_length. Qed.

Lemma ew_ok f a b :
  length a = length b -> ew f a b = Ok (zip_with f a b).
Proof. intros E. unfold ew. now rewrite E, Nat.eqb_refl. Qed.

(** [argmax] gives a position of the list. *)
Lemma argmax_from_bound l : forall best besti i,
  besti < i ->
  argmax_from best besti i l = besti
  \/ i <= argmax_from best besti i l < i + length l.
Proof.
  induction l as [|x l IH]; intros best besti i Hlt; [now left|].
  cbn [argmax_from length]. destruct (fle x best).
  - destruct (IH best besti (S i)) as [H|H]; [lia|now left|right; lia].
  - destruct (is_nan x); [right; lia|].
    destruct (IH x i (S i)) as [H|H]; [lia|right; lia|right; lia].
Qed.

Lemma argmax_bound (l : list float) :
  l <> [] -> exists idx, argmax l = Ok idx /\ idx < length l.
Proof.
  destruct l as [|x l]; [congruence|]. intros _. cbn [argmax length].
  eexists. split; [reflexivity|]. destruct (is_nan x); [lia|].
  destruct (@argmax_from_bound l x 0 1) as [H|H]; lia.
Qed.

(** Without a [nan], no element is larger than the one at that position,
    and every element before it is smaller. *)
Lemma argmax_from_spec l : forall best besti i,
  besti < i ->
  is_nan best = false ->
  (forall x, In x l -> is_nan x = false) ->
  let r := argmax_from best besti i l in
  let v := fun k => if k =? besti then best else nth (k - i) l best in
  (r = besti \/ i <= r < i + length l)
  /\ fle best (v r) = true
  /\ (forall k, i <= k < i + length l -> fle (v k) (v r) = true)
  /\ (forall k, i <= k < r -> flt (v k) (v r) = true)
  /\ (r <> besti -> flt best (v r) = true).
Proof.
  induction l as [|x l IH]; intros best besti i Hlt Hnb Hnl; cbn zeta.
  - simpl. rewrite Nat.eqb_refl. repeat split; auto; try lia.
    now apply fle_refl.
  - assert (Hnx : is_nan x = false) by (apply Hnl; now left).
    assert (Hnl' : forall y, In y l -> is_nan y = false)
      by (intros y Hy; apply Hnl; now right).
    cbn [argmax_from length]. destruct (fle x best) eqn:Eb.
    + assert (Hlt' : besti < S i) by lia.
      destruct (IH best besti (S i) Hlt' Hnb Hnl') as [H1 [H2 [H3 [H4 H5]]]].
      set (r := argmax_from best besti (S i) l) in *.
      assert (Hr : r = besti \/ S i <= r < S i + length l) by exact H1.
      assert (Hv : (if r =? besti then best else nth (r - S i) l best)
                   = (if r =? besti then best
                      else nth (r - i) (x :: l) best)).
      { destruct (Nat.eqb_spec r besti) as [->|Hne]; [reflexivity|].
        destruct Hr as [Hr|Hr]; [contradiction|].
        replace (r - i) with (S (r - S i)) by lia. reflexivity. }
      rewrite Hv in *.
      repeat split.
      * destruct Hr; [now left|right; lia].
      * exact H2.
      * intros k Hk.
        destruct (Nat.eqb_spec k besti) as [->|Hkb]; [lia|].
        destruct (Nat.eq_dec k i) as [->|Hki].
        -- rewrite Nat.sub_diag. cbn [nth].
           eapply fle_trans; [exact Eb|exact H2].
        -- assert (Hk' : S i <= k < S i + length l) by lia.
           specialize (H3 k Hk').
           assert (Ek : (k =? besti) = false) by now apply Nat.eqb_neq.
           rewrite Ek in H3.
           replace (k - i) with (S (k - S i)) by lia. exact H3.
      * intros k Hk.
        assert (Hrb : r <> besti) by lia.
        destruct (Nat.eqb_spec k besti) as [->|Hkb]; [lia|].
        destruct (Nat.eq_dec k i) as [->|Hki].
        -- rewrite Nat.sub_diag. cbn [nth].
           eapply fle_flt_trans; [exact Eb|now apply H5].
        -- assert (Hk' : S i <= k < r) by lia.
           specialize (H4 k Hk').
           assert (Ek : (k =? besti) = false) by now apply Nat.eqb_neq.
           rewrite Ek in H4.
           replace (k - i) with (S (k - S i)) by lia. exact H4.
      * exact H5.
    + rewrite Hnx.
      pose proof (not_fle_flt _ _ Hnx Hnb Eb) as Ebx.
      destruct (IH x i (S i) (Nat.lt_succ_diag_r i) Hnx Hnl')
        as [H1 [H2 [H3 [H4 H5]]]].
      set (r := argmax_from x i (S i) l) in *.
      assert (Hr : r = i \/ S i <= r < S i + length l) by exact H1.
      assert (Hrb : r <> besti) by lia.
      apply Nat.eqb_neq in Hrb as Hrb'. rewrite Hrb'.
      assert (Hv : (if r =? i then x else nth (r - S i) l x)
                   = nth (r - i) (x :: l) best).
      { destruct (Nat.eqb_spec r i) as [->|Hne].
        - now rewrite Nat.sub_diag.
        - destruct Hr as [Hr|Hr]; [contradiction|].
          replace (r - i) with (S (r - S i)) by lia. cbn [nth].
          apply nth_indep. lia. }
      rewrite Hv in *.
      assert (Hbest : flt best (nth (r - i) (x :: l) best) = true)
        by (eapply flt_fle_trans; eauto).
      repeat split.
      * right. lia.
      * now apply flt_fle.
      * intros k Hk.
        destruct (Nat.eqb_spec k besti) as [->|Hkb]; [lia|].
        destruct (Nat.eq_dec k i) as [->|Hki].
        -- rewrite Nat.sub_diag. exact H2.
        -- assert (Hk' : S i <= k < S i + length l) by lia.
           specialize (H3 k Hk').
           assert (Ek : (k =? i) = false) by now apply Nat.eqb_neq.
           rewrite Ek in H3.
           replace (k - i) with (S (k - S i)) by lia. cbn [nth].
           rewrite (nth_indep l best x) by lia. exact H3.
      * intros k Hk.
        destruct (Nat.eqb_spec k besti) as [->|Hkb]; [lia|].
        destruct (Nat.eq_dec k i) as [->|Hki].
        -- rewrite Nat.sub_diag. cbn [nth]. apply H5. lia.
        -- assert (Hk' : S i <= k < r) by lia.
           specialize (H4 k Hk').
           assert (Ek : (k =? i) = false) by now apply Nat.eqb_neq.
           rewrite Ek in H4.
           replace (k - i) with (S (k - S i)) by lia. cbn [nth].
           rewrite (nth_indep l best x) by lia. exact H4.
      * intros _. exact Hbest.
Qed.

Lemma argmax_spec (l : list float) (idx : nat) :
  argmax l = Ok idx ->
  (forall k, k < length l -> is_nan (nth k l NaN) = false) ->
  (forall k, k < length l -> fle (nth k l NaN) (nth idx l NaN) = true)
  /\ (forall k, k < idx -> flt (nth k l NaN) (nth idx l NaN) = true).
Proof.
  destruct l as [|x l]; [discriminate|]. cbn [argmax]. intros E Hn.
  assert (Hnx : is_nan x = false) by (apply (Hn 0); simpl; lia).
  rewrite Hnx in E. injection E as <-.
  assert (Hnl : forall y, In y l -> is_nan y = false).
  { intros y Hy. apply (In_nth _ _ NaN) in Hy. destruct Hy as [k [Hk <-]].
    apply (Hn (S k)). simpl. lia. }
  destruct (@argmax_from_spec l x 0 1 (Nat.lt_succ_diag_r 0) Hnx Hnl)
    as [H1 [H2 [H3 [H4 H5]]]].
  set (r := argmax_from x 0 1 l) in *.
  assert (Hr : r = 0 \/ 1 <= r < 1 + length l) by exact H1.
  assert (Hv : forall k, k < length (x :: l) ->
            (if k =? 0 then x else nth (k - 1) l x) = nth k (x :: l) NaN).
  { intros k Hk. destruct k as [|k]; [reflexivity|].
    cbn [Nat.eqb nth]. replace (S k - 1) with k by lia. apply nth_indep.
    simpl in Hk. lia. }
  assert (Hrl : r < length (x :: l)) by (simpl; lia).
  rewrite (Hv r Hrl) in *.
  split.
  - intros k Hk. rewrite <- (Hv k Hk).
    destruct k as [|k]; [exact H2|]. apply H3. simpl in Hk. lia.
  - intros k Hk. rewrite <- (Hv k) by lia.
    destruct k as [|k]; [apply H5; lia|]. apply H4. lia.
Qed.

Lemma removelast_length {A} (l : list A) :
  length (removelast l) = length l - 1.
Proof.
  rewrite removelast_firstn_len, length_firstn. lia.
Qed.

Lemma removelast_nth {A} (l : list A) (d : A) k :
  k < length l - 1 -> nth k (removelast l) d = nth k l d.
Proof.
  intros Hk. rewrite removelast_firstn_len.
  rewrite <- (firstn_skipn (pred (length l)) l) at 3.
  rewrite app_nth1; [reflexivity|]. rewrite length_firstn. lia.
Qed.

Lemma getitem_ok {A} (l : list A) (d : A) idx :
  idx < length l -> getitem l idx = Ok (nth idx l d).
Proof.
  intros Hi. unfold getitem.
  destruct (nth_error l idx) eqn:E.
  - now rewrite (nth_error_nth _ _ d E).
  - apply nth_error_None in E. lia.
Qed.

(** The running sums are the sums of the prefixes, taken in the same
    order. *)
Lemma cumsum_from_nth acc l k d :
  k < length l ->
  nth k (cumsum_from acc l) d = fold_left fadd (firstn (S k) l) acc.
Proof.
  revert acc k. induction l as [|x l IH]; intros acc k Hk; [simpl in Hk; lia|].
  destruct k as [|k]; [reflexivity|].
  cbn [cumsum_from nth]. rewrite IH by (simpl in Hk; lia). reflexivity.
Qed.

Lemma cumsum_nth l k d :
  k < length l -> nth k (cumsum l) d = fsum (firstn (S k) l).
Proof.
  destruct l as [|x l]; intros Hk; [simpl in Hk; lia|].
  destruct k as [|k]; [reflexivity|].
  cbn [cumsum nth]. rewrite cumsum_from_nth by (simpl in Hk; lia).
  reflexivity.
Qed.

(** The running sums of the reversed list are the sums of the suffixes,
    taken from the last element back. *)
Lemma rev_cumsum_rev_nth l k d :
  k < length l ->
  nth k (rev (cumsum (rev l))) d = fsum (rev (skipn k l)).
Proof.
  intros Hk.
  rewrite rev_nth by (now rewrite cumsum_length, length_rev).
  rewrite cumsum_length, length_rev.
  rewrite cumsum_nth by (rewrite length_rev; lia).
  rewrite firstn_rev. f_equal. f_equal. f_equal. lia.
Qed.

Lemma tl_nth {A} (l : list A) (d : A) k : nth k (tl l) d = nth (S k) l d.
Proof. destruct l; [now destruct k|reflexivity]. Qed.

Section Otsu.

Variable hist : list float.
Hypothesis hist_bins : 2 <= length hist.

Let n := length hist.

Variable bin_centers : list float.
Hypothesis bin_centers_ok : bin_centers_of n = Ok bin_centers.
Hypothesis bin_centers_length : length bin_centers = n.

Let biased := map (fun h => fadd h float_1e_5) hist.
Let weight1 := cumsum biased.
Let weight2 := rev (cumsum (rev biased)).
Let hc := zip_with fmul biased bin_centers.
Let mean1 := zip_with fdiv (cumsum hc) weight1.
Let mean2 := rev (zip_with fdiv (cumsum (rev hc)) (rev weight2)).
Let variance12 :=
  zip_with fmul
    (zip_with fmul (removelast weight1) (tl weight2))
    (map (fun x => fmul x x)
         (zip_with fsub (removelast mean1) (tl mean2))).

Lemma biased_length : length biased = n.
Proof. unfold biased. apply length_map. Qed.

Lemma otsu_bin_centers :
  (bin_size <- py_div 1 (Z.of_nat (length biased) - 1) ;;
   arange (Finite 0) (fadd (Finite 1) (fmul (Finite (1 # 2)) bin_size))
          bin_size)
  = Ok bin_centers.
Proof. rewrite biased_length. exact bin_centers_ok. Qed.

Lemma variance12_length : length variance12 = n - 1.
Proof.
  unfold variance12, mean1, mean2, weight1, weight2, hc.
  repeat (rewrite ?zip_with_length, ?length_map, ?removelast_length,
            ?length_tl, ?length_rev, ?cumsum_length, ?biased_length,
            ?bin_centers_length; try reflexivity).
Qed.

Lemma variance12_of_ok : variance12_of hist = Ok variance12.
Proof.
  pose proof otsu_bin_centers as Ec. unfold variance12_of. fold biased.
  destruct (py_div 1 (Z.of_nat (length biased) - 1)) as [bs|];
    [|discriminate].
  cbn [bind] in Ec |- *. rewrite Ec. cbn [bind].
  rewrite !ew_ok by (now rewrite biased_length, bin_centers_length).
  cbn [bind]. fold hc.
  assert (Hhc : length hc = n).
  { unfold hc. rewrite zip_with_length; rewrite biased_length; auto. }
  rewrite ew_ok by (now rewrite !cumsum_length, Hhc, biased_length).
  cbn [bind]. rewrite ew_ok
    by (now rewrite rev_involutive, !cumsum_length, !length_rev, Hhc,
          biased_length).
  cbn [bind]. fold weight1 weight2 mean1 mean2.
  assert (Hm1 : length mean1 = n).
  { unfold mean1, weight1. rewrite zip_with_length;
      rewrite !cumsum_length, ?Hhc, ?biased_length; auto. }
  assert (Hm2 : length mean2 = n).
  { unfold mean2, weight2. rewrite length_rev, zip_with_length;
      rewrite ?rev_involutive, !cumsum_length, !length_rev, ?Hhc,
        ?biased_length; auto. }
  assert (Hw1 : length weight1 = n)
    by (unfold weight1; now rewrite cumsum_length, biased_length).
  assert (Hw2 : length weight2 = n)
    by (unfold weight2;
        now rewrite length_rev, cumsum_length, length_rev, biased_length).
  rewrite ew_ok by (now rewrite removelast_length, length_tl, Hw1, Hw2).
  cbn [bind].
  rewrite ew_ok by (now rewrite removelast_length, length_tl, Hm1, Hm2).
  cbn [bind].
  rewrite ew_ok; [reflexivity|].
  rewrite length_map, !zip_with_length;
    rewrite ?removelast_length, ?length_tl; congruence.
Qed.

Lemma histogram_otsu_unfold :
  histogram_otsu hist
  = (idx <- argmax variance12 ;; getitem (removelast bin_centers) idx).
Proof.
  pose proof variance12_of_ok as E. unfold variance12_of in E.
  pose proof otsu_bin_centers as Ec.
  unfold histogram_otsu. fold biased in E |- *.
  destruct (py_div 1 (Z.of_nat (length biased) - 1)) as [bs|];
    [|discriminate].
  cbn [bind] in E, Ec |- *. rewrite Ec in E |- *. cbn [bind] in E |- *.
  destruct (ew fmul biased bin_centers) as [x|]; [|discriminate].
  cbn [bind] in E |- *.
  destruct (ew fdiv (cumsum x) (cumsum biased)) as [y|]; [|discriminate].
  cbn [bind] in E |- *.
  destruct (ew fdiv (cumsum (rev x)) _) as [z|]; [|discriminate].
  cbn [bind] in E |- *.
  destruct (ew fmul (removelast (cumsum biased)) _) as [w|]; [|discriminate].
  cbn [bind] in E |- *.
  destruct (ew fsub (removelast y) _) as [u|]; [|discriminate].
  cbn [bind] in E |- *. rewrite E. reflexivity.
Qed.

(** The entries of [variance12] are the between-class variances of the
    splits. *)
Lemma variance12_nth j :
  j < n - 1 ->
  nth j variance12 NaN = between_class_variance biased bin_centers j.
Proof.
  intros Hj.
  assert (Hhc : length hc = n).
  { unfold hc. rewrite zip_with_length; rewrite biased_length; auto. }
  assert (Hw1 : length weight1 = n)
    by (unfold weight1; now rewrite cumsum_length, biased_length).
  assert (Hw2 : length weight2 = n)
    by (unfold weight2;
        now rewrite length_rev, cumsum_length, length_rev, biased_length).
  assert (Hm1 : length mean1 = n).
  { unfold mean1. rewrite zip_with_length; rewrite cumsum_length; congruence. }
  assert (Hz2 : length (zip_with fdiv (cumsum (rev hc)) (rev weight2)) = n).
  { rewrite zip_with_length; rewrite cumsum_length, !length_rev; congruence. }
  assert (Hm2 : length mean2 = n) by (unfold mean2; now rewrite length_rev).
  unfold variance12.
  rewrite (zip_with_nth _ _ _ NaN NaN)
    by (rewrite ?length_map, !zip_with_length;
        rewrite ?removelast_length, ?length_tl; lia).
  rewrite (zip_with_nth _ _ _ NaN NaN)
    by (rewrite ?removelast_length, ?length_tl; lia).
  rewrite (map_nth_lt _ _ NaN NaN)
    by (rewrite zip_with_length; rewrite ?removelast_length, ?length_tl; lia).
  rewrite (zip_with_nth _ _ _ NaN NaN)
    by (rewrite ?removelast_length, ?length_tl; lia).
  rewrite !removelast_nth, !tl_nth by lia.
  assert (E1 : nth j weight1 NaN = fsum (firstn (S j) biased)).
  { unfold weight1. apply cumsum_nth. rewrite biased_length. lia. }
  assert (E2 : nth (S j) weight2 NaN = fsum (rev (skipn (S j) biased))).
  { unfold weight2. apply rev_cumsum_rev_nth. rewrite biased_length. lia. }
  assert (E3 : nth j mean1 NaN
               = fdiv (fsum (firstn (S j) hc)) (fsum (firstn (S j) biased))).
  { unfold mean1.
    rewrite (zip_with_nth _ _ _ NaN NaN)
      by (rewrite cumsum_length; lia).
    rewrite (cumsum_nth hc) by lia. now rewrite E1. }
  assert (E4 : nth (S j) mean2 NaN
               = fdiv (fsum (rev (skipn (S j) hc)))
                      (fsum (rev (skipn (S j) biased)))).
  { unfold mean2. rewrite rev_nth by lia. rewrite Hz2.
    rewrite (zip_with_nth _ _ _ NaN NaN)
      by (rewrite cumsum_length, !length_rev; lia).
    unfold weight2. rewrite rev_involutive.
    rewrite !cumsum_nth by (rewrite length_rev, ?biased_length; lia).
    rewrite !firstn_rev, Hhc, biased_length.
    replace (n - S (n - S (S j))) with (S j) by lia.
    reflexivity. }
  unfold between_class_variance. fold hc. cbv zeta.
  rewrite E1, E2, E3, E4. reflexivity.
Qed.

End Otsu.

Lemma in_unit_spec (a : float) :
  in_unit a = true -> exists c, a = Finite c /\ (0 <= c < 1)%Q.
Proof.
  unfold in_unit. destruct a as [c| | |]; simpl; try discriminate.
  rewrite andb_true_iff, negb_true_iff. intros [H0 H1].
  exists c. split; [reflexivity|]. split.
  - now apply Qle_bool_iff.
  - apply Qnot_le_lt. intros H. apply Qle_bool_iff in H. congruence.
Qed.

Lemma centers_fit_spec (n : nat) :
  centers_fit n = true ->
  exists centers,
    bin_centers_of n = Ok centers
    /\ length centers = n
    /\ forall i, i < n - 1 -> in_unit (nth i centers NaN) = true.
Proof.
  unfold centers_fit. destruct (bin_centers_of n) as [c|]; [|discriminate].
  rewrite andb_true_iff, Nat.eqb_eq, forallb_forall. intros [Hl Hu].
  exists c. repeat split; auto. intros i Hi.
  rewrite <- (removelast_nth c NaN) by lia.
  apply Hu, nth_In. rewrite removelast_length. lia.
Qed.

(** What [histogram_otsu] returns for at least two bins. *)
Lemma histogram_otsu_bin (hist : list float) (centers : list float) :
  2 <= length hist ->
  bin_centers_of (length hist) = Ok centers ->
  length centers = length hist ->
  exists variance12 idx,
    variance12_of hist = Ok variance12
    /\ length variance12 = length hist - 1
    /\ argmax variance12 = Ok idx
    /\ idx < length hist - 1
    /\ histogram_otsu hist = Ok (nth idx centers NaN).
Proof.
  intros Hn Hc Hl.
  pose proof (@variance12_of_ok hist centers Hc Hl) as Ev.
  pose proof (@variance12_length hist centers Hl) as Hlen.
  pose proof (@histogram_otsu_unfold hist centers Hc Hl) as Eo.
  cbv zeta in *.
  match type of Ev with _ = Ok ?v => set (variance12 := v) in * end.
  assert (Hne : variance12 <> []).
  { intros E. rewrite E in Hlen. simpl in Hlen. lia. }
  destruct (argmax_bound Hne) as [idx [Ea Hi]].
  exists variance12, idx. rewrite Hlen in Hi. repeat split; auto.
  rewrite Eo, Ea. cbn [bind].
  rewrite (getitem_ok _ NaN) by (rewrite removelast_length; lia).
  rewrite removelast_nth by lia. reflexivity.
Qed.

(** C5, as the code has it.  For a histogram of at least two and at most
    [2 ^ 40] bins, the all-zero histogram among them, [histogram_otsu]
    raises nothing and returns the centre of a bin other than the last, a
    float in [[0, 1)]: the bin [idx] that [np.argmax] picks in [variance12],
    whose entries are the between-class variances
    [w1 * w2 * (mean1 - mean2)^2] of the splits as float64 arithmetic gives
    them.  Where no entry is [nan], no entry is larger than the one at
    [idx] and those before it are smaller: only entries that are equal as
    floats are resolved to the first. *)
Theorem histogram_otsu_threshold (hist : list float) :
  let n := length hist in
  2 <= n -> (Z.of_nat n <= 2 ^ 40)%Z ->
  let biased := map (fun h => fadd h float_1e_5) hist in
  exists centers variance12 idx,
    bin_centers_of n = Ok centers
    /\ length centers = n
    /\ variance12_of hist = Ok variance12
    /\ length variance12 = n - 1
    /\ (forall j, j < n - 1 ->
          nth j variance12 NaN = between_class_variance biased centers j)
    /\ idx < n - 1
    /\ histogram_otsu hist = Ok (nth idx centers NaN)
    /\ (exists c, nth idx centers NaN = Finite c /\ (0 <= c < 1)%Q)
    /\ ((forall k, k < n - 1 -> is_nan (nth k variance12 NaN) = false) ->
        (forall k, k < n - 1 ->
           fle (nth k variance12 NaN) (nth idx variance12 NaN) = true)
        /\ (forall k, k < idx ->
              flt (nth k variance12 NaN) (nth idx variance12 NaN) = true)).
Proof.
  intros n Hn Hn40 biased.
  destruct (@centers_fit_spec n (centers_fit_ok Hn Hn40))
    as [centers [Hc [Hl Hu]]].
  destruct (@histogram_otsu_bin hist centers Hn Hc Hl)
    as [variance12 [idx [Ev [Hlen [Ea [Hi Eo]]]]]].
  exists centers, variance12, idx. fold n in Hlen, Hi.
  assert (Hnth : forall j, j < n - 1 ->
            nth j variance12 NaN = between_class_variance biased centers j).
  { pose proof (@variance12_of_ok hist centers Hc Hl) as Ev'.
    cbv zeta in Ev'. rewrite Ev in Ev'. injection Ev' as ->.
    intros j Hj. eapply variance12_nth; eassumption. }
  repeat split; auto.
  - apply in_unit_spec. now apply Hu.
  - intros k Hk. apply (@argmax_spec variance12 idx Ea); rewrite Hlen; auto.
  - intros k Hk. apply (@argmax_spec variance12 idx Ea); rewrite ?Hlen; auto.
Qed.

Lemma histogram_otsu_threshold_witness :
  exists threshold c,
    histogram_otsu [Finite 0; Finite 0; Finite 0] = Ok threshold
    /\ threshold = Finite c /\ (0 <= c < 1)%Q.
Proof.
  destruct (@histogram_otsu_threshold [Finite 0; Finite 0; Finite 0])
    as [centers [variance12 [idx [_ [_ [_ [_ [_ [_ [E [[c [Ec Hc]] _]]]]]]]]]]].
  - simpl. lia.
  - simpl. lia.
  - exists (nth idx centers NaN), c. auto.
Defined.

(** The claim C5 as it is written fails on the histogram of five empty
    bins: the between-class variances of the second and the third split are
    equal and the largest, so that the first occurrence is the second
    split, with the centre 1/4; in float64 arithmetic the third comes out
    larger by one rounding, and the code returns its centre 1/2. *)
Lemma histogram_otsu_tie_by_rounding :
  let h := repeat (value_of float_1e_5) 5 in
  let c := [0; 1 # 4; 1 # 2; 3 # 4; 1]%Q in
  bin_centers_of 5 = Ok (map Finite c)
  /\ (exact_between_class_variance h c 1
      == exact_between_class_variance h c 2)%Q
  /\ (forall j, j < 4 ->
        (exact_between_class_variance h c j
         <= exact_between_class_variance h c 1)%Q)
  /\ (exact_between_class_variance h c 0
      < exact_between_class_variance h c 1)%Q
  /\ histogram_otsu (repeat (Finite 0) 5) = Ok (Finite (1 # 2))
  /\ histogram_otsu (repeat (Finite 0) 5) <> Ok (Finite (1 # 4)).
Proof.
  cbv zeta. split; [vm_compute; reflexivity|].
  split; [vm_compute; reflexivity|]. split.
  { intros j Hj.
    destruct j as [|[|[|[|j]]]]; try lia;
      vm_compute; intros H; discriminate H. }
  split; [vm_compute; reflexivity|].
  split; [vm_compute; reflexivity|].
  vm_compute. intros H. discriminate H.
Qed.

(** ** sortbyabs and absolute_eigenvaluesh *)

Section ArgSort.

Variable key : nat -> Q.

Let key_le (i j : nat) : Prop := (key i <= key j)%Q.

Lemma insert_by_perm i l : Permutation (insert_by key i l) (i :: l).
Proof.
  induction l as [|j l IH]; simpl; [reflexivity|].
  destruct (Qle_bool (key i) (key j)); [reflexivity|].
  rewrite IH. apply perm_swap.
Qed.

Lemma insert_by_sorted i l :
  StronglySorted key_le l -> StronglySorted key_le (insert_by key i l).
Proof.
  induction 1 as [|j l Hs IH Hall]; simpl.
  - constructor; constructor.
  - destruct (Qle_bool (key i) (key j)) eqn:E.
    + apply Qle_bool_iff in E. constructor.
      * constructor; assumption.
      * constructor; [exact E|].
        eapply Forall_impl; [|exact Hall]. intros a Ha. unfold key_le in *.
        eapply Qle_trans; eauto.
    + constructor; [exact IH|].
      assert (Hji : (key j <= key i)%Q).
      { apply Qlt_le_weak. apply Qnot_le_lt. intros H.
        apply Qle_bool_iff in H. congruence. }
      refine (Permutation_Forall (x := i :: l) _ _).
      * symmetry. apply insert_by_perm.
      * constructor; assumption.
Qed.

Lemma fold_insert_perm l : Permutation (fold_right (insert_by key) [] l) l.
Proof.
  induction l as [|i l IH]; simpl; [reflexivity|].
  rewrite insert_by_perm. now constructor.
Qed.

Lemma fold_insert_sorted l :
  StronglySorted key_le (fold_right (insert_by key) [] l).
Proof.
  induction l as [|i l IH]; simpl; [constructor|].
  now apply insert_by_sorted.
Qed.

End ArgSort.

(** The insertion sort of the examples is an [argsort]. *)
Lemma insertion_argsort_sorts : sorts insertion_argsort.
Proof.
  intros keys. split; [apply fold_insert_perm|apply fold_insert_sorted].
Qed.

Lemma map_nth_seq {A} (l : list A) (d : A) :
  map (fun i => nth i l d) (seq 0 (length l)) = l.
Proof.
  apply (nth_ext _ _ d d).
  - now rewrite length_map, length_seq.
  - intros k Hk. rewrite length_map, length_seq in Hk.
    rewrite (map_nth_lt _ _ 0 d) by now rewrite length_seq.
    now rewrite seq_nth.
Qed.

Lemma map_via_nth {A B} (g : A -> B) (l : list A) (d : A) :
  map (fun k => g (nth k l d)) (seq 0 (length l)) = map g l.
Proof. rewrite <- (map_map (fun k => nth k l d) g). now rewrite map_nth_seq. Qed.

Section Sorts.

Variable argsort : list Q -> list nat.
Hypothesis argsort_sorts : sorts argsort.

Lemma argsort_perm (keys : list Q) :
  Permutation (argsort keys) (seq 0 (length keys)).
Proof. apply argsort_sorts. Qed.

Lemma argsort_length (keys : list Q) : length (argsort keys) = length keys.
Proof. now rewrite (Permutation_length (argsort_perm keys)), length_seq. Qed.

Lemma argsort_sorted (keys : list Q) :
  StronglySorted (fun i j => nth i keys 0 <= nth j keys 0)%Q (argsort keys).
Proof. apply argsort_sorts. Qed.

Lemma argsort_bound (keys : list Q) (j : nat) :
  j < length keys -> nth j (argsort keys) 0 < length keys.
Proof.
  intros Hj.
  assert (Hin : In (nth j (argsort keys) 0) (seq 0 (length keys))).
  { apply (Permutation_in _ (argsort_perm keys)), nth_In.
    now rewrite argsort_length. }
  apply in_seq in Hin. lia.
Qed.

(** A lane put in the order of the [argsort] of its absolute values. *)
Lemma sorted_lane_perm (ln : list Q) :
  Permutation (map (fun x => nth x ln 0%Q) (argsort (map Qabs ln))) ln.
Proof.
  rewrite (Permutation_map _ (argsort_perm (map Qabs ln))).
  rewrite length_map, map_nth_seq. reflexivity.
Qed.

Lemma sorted_lane_sorted (ln : list Q) :
  StronglySorted (fun x y => Qabs x <= Qabs y)%Q
    (map (fun x => nth x ln 0%Q) (argsort (map Qabs ln))).
Proof.
  pose proof (argsort_sorted (map Qabs ln)) as Hs.
  assert (Hb : Forall (fun i => i < length ln) (argsort (map Qabs ln))).
  { refine (Permutation_Forall (x := seq 0 (length (map Qabs ln))) _ _).
    - symmetry. apply argsort_perm.
    - apply Forall_forall. intros i Hi. apply in_seq in Hi.
      rewrite length_map in Hi. lia. }
  induction Hs as [|i l Hs IH Hall]; simpl; [constructor|].
  inversion Hb as [|? ? Hi Hb']; subst.
  constructor; [apply IH; assumption|].
  apply Forall_map, Forall_forall. intros j Hj.
  rewrite Forall_forall in Hall, Hb'. specialize (Hall j Hj).
  specialize (Hb' j Hj). cbv beta in *.
  rewrite !(map_nth_lt Qabs ln 0%Q 0%Q) in Hall by assumption.
  exact Hall.
Qed.

End Sorts.

Lemma prod_shape_app (s t : list nat) :
  prod_shape (s ++ t) = prod_shape s * prod_shape t.
Proof.
  induction s as [|x s IH]; simpl; [lia|]. rewrite IH. lia.
Qed.

Lemma lane_index (len inner o j i : nat) :
  j < len -> i < inner ->
  ((o * len + j) * inner + i) / (len * inner) = o
  /\ (((o * len + j) * inner + i) / inner) mod len = j
  /\ ((o * len + j) * inner + i) mod inner = i.
Proof.
  intros Hj Hi.
  assert (E1 : ((o * len + j) * inner + i) / inner = o * len + j)
    by (symmetry; apply Nat.div_unique with i; lia).
  rewrite E1. repeat split.
  - symmetry. apply Nat.div_unique with (j * inner + i); nia.
  - symmetry. apply Nat.mod_unique with o; lia.
  - symmetry. apply Nat.mod_unique with (o * len + j); lia.
Qed.

Lemma lane_index_inv (len inner p : nat) :
  len <> 0 -> inner <> 0 ->
  p = ((p / (len * inner)) * len + (p / inner) mod len) * inner
      + p mod inner.
Proof.
  intros Hl Hi.
  pose proof (Nat.div_mod_eq p inner) as E1.
  pose proof (Nat.div_mod_eq (p / inner) len) as E2.
  assert (E3 : p / inner / len = p / (len * inner)).
  { rewrite Nat.Div0.div_div. f_equal. lia. }
  rewrite E3 in E2. nia.
Qed.

Lemma prod_shape_split (sh : list nat) (k : nat) :
  k < length sh ->
  prod_shape sh
  = prod_shape (firstn k sh) * nth k sh 0 * prod_shape (skipn (S k) sh).
Proof.
  revert k; induction sh as [|x sh IH]; intros k Hk; [simpl in Hk; lia|].
  destruct k as [|k].
  - simpl. lia.
  - simpl in Hk. specialize (IH k ltac:(lia)). unfold prod_shape in *.
    change (skipn (S (S k)) (x :: sh)) with (skipn (S k) sh).
    cbn [firstn nth fold_right]. rewrite IH. ring.
Qed.

Lemma norm_axis_mod (axis : Z) (d : nat) :
  (- Z.of_nat d <= axis < Z.of_nat d)%Z ->
  Z.to_nat (axis mod Z.of_nat d) = norm_axis axis d /\ norm_axis axis d < d.
Proof.
  intros Ha. unfold norm_axis.
  destruct (Z.ltb_spec axis 0) as [Hn|Hn].
  - replace (axis mod Z.of_nat d)%Z with (axis + Z.of_nat d)%Z; [lia|].
    apply Z.mod_unique with (-1)%Z; lia.
  - rewrite Z.mod_small by lia. lia.
Qed.

(** Multi-indices. *)

Lemma unravel_index_length (sh : list nat) (p : nat) :
  length (unravel_index sh p) = length sh.
Proof.
  revert p; induction sh as [|n sh IH]; intros p; simpl; [reflexivity|].
  now rewrite IH.
Qed.

Lemma unravel_index_bound (sh : list nat) (p : nat) :
  p < prod_shape sh -> Forall2 lt (unravel_index sh p) sh.
Proof.
  revert p; induction sh as [|n sh IH]; intros p Hp; simpl; [constructor|].
  change (prod_shape (n :: sh)) with (n * prod_shape sh) in Hp.
  assert (H0 : prod_shape sh <> 0) by nia.
  constructor.
  - apply Nat.Div0.div_lt_upper_bound. lia.
  - apply IH. now apply Nat.mod_upper_bound.
Qed.

Lemma ravel_unravel (sh : list nat) (p : nat) :
  p < prod_shape sh -> ravel_multi_index sh (unravel_index sh p) = p.
Proof.
  revert p; induction sh as [|n sh IH]; intros p Hp; simpl.
  - simpl in Hp. lia.
  - change (prod_shape (n :: sh)) with (n * prod_shape sh) in Hp.
    assert (H0 : prod_shape sh <> 0) by nia.
    rewrite IH by now apply Nat.mod_upper_bound.
    pose proof (Nat.div_mod_eq p (prod_shape sh)). lia.
Qed.

Lemma unravel_split (k : nat) :
  forall (sh : list nat) (o j i : nat),
    k < length sh ->
    o < prod_shape (firstn k sh) -> j < nth k sh 0 ->
    i < prod_shape (skipn (S k) sh) ->
    unravel_index sh ((o * nth k sh 0 + j) * prod_shape (skipn (S k) sh) + i)
    = unravel_index (firstn k sh) o
      ++ j :: unravel_index (skipn (S k) sh) i.
Proof.
  induction k as [|k IH]; intros [|n sh] o j i Hk Ho Hj Hi;
    try (simpl in Hk; lia).
  - cbn [firstn skipn nth unravel_index app] in *.
    change (prod_shape []) with 1 in Ho.
    replace o with 0 by lia. cbn [Nat.mul Nat.add].
    f_equal.
    + symmetry. apply Nat.div_unique with i; lia.
    + f_equal. symmetry. apply Nat.mod_unique with j; lia.
  - change (firstn (S k) (n :: sh)) with (n :: firstn k sh) in *.
    change (skipn (S (S k)) (n :: sh)) with (skipn (S k) sh) in *.
    change (nth (S k) (n :: sh) 0) with (nth k sh 0) in *.
    change (prod_shape (n :: firstn k sh))
      with (n * prod_shape (firstn k sh)) in Ho.
    simpl in Hk.
    set (outer := prod_shape (firstn k sh)) in *.
    set (len := nth k sh 0) in *.
    set (inner := prod_shape (skipn (S k) sh)) in *.
    assert (HP : prod_shape sh = outer * len * inner)
      by (apply prod_shape_split; lia).
    assert (H0 : outer <> 0) by nia.
    pose proof (Nat.div_mod_eq o outer) as Eo.
    pose proof (Nat.mod_upper_bound o outer H0) as Hr.
    set (q := o / outer) in *. set (r := o mod outer) in *.
    assert (Hsmall : (r * len + j) * inner + i < outer * len * inner).
    { assert (H1 : r * len + j + 1 <= outer * len) by nia.
      assert (H2 : (r * len + j + 1) * inner <= outer * len * inner)
        by (apply Nat.mul_le_mono_r; exact H1).
      lia. }
    assert (Ep : (o * len + j) * inner + i
                 = outer * len * inner * q + ((r * len + j) * inner + i)).
    { rewrite Eo. ring. }
    cbn [unravel_index app]. rewrite HP.
    f_equal.
    + symmetry. apply Nat.div_unique with ((r * len + j) * inner + i);
        [exact Hsmall|exact Ep].
    + replace (((o * len + j) * inner + i) mod (outer * len * inner))
        with ((r * len + j) * inner + i).
      * apply IH; auto; lia.
      * apply Nat.mod_unique with q; [exact Hsmall|exact Ep].
Qed.

Lemma ravel_split (k : nat) :
  forall (sh mo : list nat) (j : nat) (mi : list nat),
    k < length sh -> length mo = k ->
    ravel_multi_index sh (mo ++ j :: mi)
    = (ravel_multi_index (firstn k sh) mo * nth k sh 0 + j)
      * prod_shape (skipn (S k) sh)
      + ravel_multi_index (skipn (S k) sh) mi.
Proof.
  induction k as [|k IH]; intros [|n sh] mo j mi Hk Hm;
    try (simpl in Hk; lia).
  - destruct mo; [|discriminate]. simpl. lia.
  - destruct mo as [|x mo]; [discriminate|]. simpl in Hk, Hm.
    change (firstn (S k) (n :: sh)) with (n :: firstn k sh).
    change (skipn (S (S k)) (n :: sh)) with (skipn (S k) sh).
    change (nth (S k) (n :: sh) 0) with (nth k sh 0).
    cbn [app ravel_multi_index].
    rewrite (IH sh mo j mi) by lia.
    rewrite (@prod_shape_split sh k) by lia. ring.
Qed.

(** Broadcasting. *)

Lemma below_refl (sh : list nat) : below sh sh.
Proof. induction sh; constructor; auto. Qed.

Lemma below_length (s sh : list nat) : below s sh -> length s = length sh.
Proof. apply Forall2_length. Qed.

Lemma pad_same (n : nat) (s : list nat) : length s = n -> pad n s = s.
Proof. intros <-. unfold pad. now rewrite Nat.sub_diag. Qed.

Lemma broadcast2_below (s t sh : list nat) :
  below s sh -> below t sh ->
  exists r, broadcast2 s t = Some r /\ below r sh.
Proof.
  intros Hs; revert t; induction Hs as [|x y s sh Hx Hs IH]; intros t Ht.
  - inversion Ht; subst. exists []. split; [reflexivity|constructor].
  - inversion Ht as [|x' ? t' ? Hx' Ht']; subst.
    destruct (IH t' Ht') as [r [Er Hr]]. cbn [broadcast2]. rewrite Er.
    destruct (Nat.eqb_spec x 1) as [->|Hx1].
    + eexists. split; [reflexivity|]. now constructor.
    + assert (x = y) by (destruct Hx; congruence). subst x.
      assert (Hy : (x' =? 1) || (x' =? y) = true).
      { destruct Hx' as [->| ->]; [reflexivity|].
        rewrite Nat.eqb_refl. apply orb_true_r. }
      rewrite Hy. eexists. split; [reflexivity|]. constructor; auto.
Qed.

Lemma broadcast2_full_l (sh t : list nat) :
  below t sh -> broadcast2 sh t = Some sh.
Proof.
  induction 1 as [|x y t sh Hx Ht IH]; [reflexivity|].
  cbn [broadcast2]. rewrite IH.
  destruct (Nat.eqb_spec y 1) as [->|Hy1].
  - destruct Hx as [->| ->]; reflexivity.
  - assert (Hy : (x =? 1) || (x =? y) = true).
    { destruct Hx as [->| ->]; [reflexivity|].
      rewrite Nat.eqb_refl. apply orb_true_r. }
    now rewrite Hy.
Qed.

Lemma broadcast2_full_r (s sh : list nat) :
  below s sh -> broadcast2 s sh = Some sh.
Proof.
  induction 1 as [|x y s sh Hx Hs IH]; [reflexivity|].
  cbn [broadcast2]. rewrite IH.
  destruct (Nat.eqb_spec x 1) as [->|Hx1]; [reflexivity|].
  assert (x = y) by (destruct Hx; congruence). subst x.
  rewrite Nat.eqb_refl, orb_true_r. reflexivity.
Qed.

Lemma broadcast2_ones (s : list nat) :
  broadcast2 (repeat 1 (length s)) s = Some s.
Proof.
  induction s as [|x s IH]; [reflexivity|].
  cbn [length repeat broadcast2]. now rewrite IH.
Qed.

Lemma broadcast_pair_nil (s : list nat) : broadcast_pair [] s = Some s.
Proof.
  unfold broadcast_pair. cbn [length Nat.max].
  rewrite (@pad_same (length s) s) by reflexivity.
  unfold pad. cbn [length]. rewrite Nat.sub_0_r, app_nil_r.
  apply broadcast2_ones.
Qed.

Lemma broadcast_pair_same (s t : list nat) :
  length s = length t -> broadcast_pair s t = broadcast2 s t.
Proof.
  intros E. unfold broadcast_pair. rewrite E, Nat.max_id.
  now rewrite !pad_same by auto.
Qed.

Lemma broadcast_shapes_full (l1 l2 : list (list nat)) (sh : list nat) :
  Forall (fun s => below s sh) l1 -> Forall (fun s => below s sh) l2 ->
  broadcast_shapes (l1 ++ sh :: l2) = Some sh.
Proof.
  intros H1 H2. unfold broadcast_shapes.
  set (step := fun acc s => match acc with
                            | Some r => broadcast_pair r s
                            | None => None
                            end).
  assert (E1 : forall acc, acc = [] \/ below acc sh ->
                 exists r, fold_left step l1 (Some acc) = Some r
                           /\ (r = [] \/ below r sh)).
  { induction H1 as [|s l1 Hs H1 IH]; intros acc Hacc.
    - exists acc. split; [reflexivity|exact Hacc].
    - cbn [fold_left step]. destruct Hacc as [->|Hacc].
      + rewrite broadcast_pair_nil. apply IH. now right.
      + rewrite broadcast_pair_same
          by now rewrite (below_length Hacc), (below_length Hs).
        destruct (broadcast2_below Hacc Hs) as [r [Er Hr]].
        rewrite Er. apply IH. now right. }
  assert (E2 : fold_left step l2 (Some sh) = Some sh).
  { induction H2 as [|s l2 Hs H2 IH]; [reflexivity|].
    cbn [fold_left step].
    rewrite broadcast_pair_same by now rewrite (below_length Hs).
    now rewrite (broadcast2_full_l Hs). }
  rewrite fold_left_app. destruct (E1 [] (or_introl eq_refl)) as [r [Er Hr]].
  rewrite Er. cbn [fold_left step].
  replace (broadcast_pair r sh) with (Some sh); [exact E2|].
  symmetry. destruct Hr as [->|Hr]; [apply broadcast_pair_nil|].
  rewrite broadcast_pair_same by now apply below_length.
  now apply broadcast2_full_r.
Qed.

Lemma prod_shape_ones (r : nat) : prod_shape (repeat 1 r) = 1.
Proof.
  induction r as [|r IH]; [reflexivity|].
  change (prod_shape (repeat 1 (S r))) with (1 * prod_shape (repeat 1 r)).
  lia.
Qed.

Lemma unit_shape_below (sh : list nat) (k : nat) :
  k < length sh ->
  below (repeat 1 k ++ nth k sh 0 :: repeat 1 (length sh - S k)) sh.
Proof.
  revert k; induction sh as [|n sh IH]; intros k Hk; [simpl in Hk; lia|].
  destruct k as [|k].
  - replace (length (n :: sh) - 1) with (length sh) by (simpl; lia).
    cbn [repeat app nth]. constructor; [now right|].
    clear. induction sh; constructor; auto.
  - simpl in Hk.
    replace (length (n :: sh) - S (S k)) with (length sh - S k)
      by (simpl; lia).
    cbn [repeat app nth]. constructor; [now left|].
    apply IH. lia.
Qed.

Lemma zip_clip_id (s m : list nat) :
  Forall2 lt m s -> zip_with clip s m = m.
Proof.
  induction 1 as [|i n m s Hi Hm IH]; [reflexivity|].
  cbn [zip_with]. rewrite IH. f_equal. unfold clip.
  destruct (Nat.eqb_spec n 1); lia.
Qed.

Lemma ravel_ones (r : nat) (m : list nat) :
  ravel_multi_index (repeat 1 r) (zip_with clip (repeat 1 r) m) = 0.
Proof.
  revert m; induction r as [|r IH]; intros [|i m]; try reflexivity.
  cbn [repeat zip_with ravel_multi_index]. rewrite IH. reflexivity.
Qed.

Lemma ravel_unit (t r n : nat) :
  forall m : list nat,
    length m = t + S r ->
    ravel_multi_index (repeat 1 t ++ n :: repeat 1 r)
      (zip_with clip (repeat 1 t ++ n :: repeat 1 r) m)
    = clip n (nth t m 0).
Proof.
  induction t as [|t IH]; intros [|i m] Hm; try discriminate.
  - cbn [repeat app zip_with ravel_multi_index nth].
    rewrite ravel_ones, prod_shape_ones. lia.
  - cbn [repeat app zip_with ravel_multi_index nth].
    rewrite IH by (simpl in Hm; lia). reflexivity.
Qed.

Lemma Forall2_lt_nth (m sh : list nat) (t : nat) :
  Forall2 lt m sh -> t < length sh -> nth t m 0 < nth t sh 0.
Proof.
  intros H; revert t; induction H as [|i n m sh Hi Hm IH]; intros t Ht.
  - simpl in Ht. lia.
  - destruct t as [|t]; [exact Hi|]. simpl in *. apply IH. lia.
Qed.

(** The index array of [np.ix_] for the axis [t], stretched, gives the
    position along that axis. *)
Lemma stretched_ix (sh m : list nat) (t : nat) :
  t < length sh -> Forall2 lt m sh ->
  stretched
    (mk_ndarray (repeat 1 t ++ nth t sh 0 :: repeat 1 (length sh - S t))
                (seq 0 (nth t sh 0)))
    sh m
  = nth t m 0.
Proof.
  intros Ht Hm. unfold stretched. cbn [shape data].
  rewrite pad_same
    by (rewrite length_app; cbn [length]; rewrite !repeat_length; lia).
  rewrite ravel_unit
    by (rewrite (Forall2_length Hm); lia).
  pose proof (Forall2_lt_nth Hm Ht) as Hb.
  assert (E : clip (nth t sh 0) (nth t m 0) = nth t m 0).
  { unfold clip. destruct (Nat.eqb_spec (nth t sh 0) 1); lia. }
  rewrite E, seq_nth by assumption. reflexivity.
Qed.

(** An index array of the shape of the whole, at the multi-index of a
    position, gives its element at the position. *)
Lemma stretched_full (idx : ndarray nat) (p : nat) :
  p < prod_shape (shape idx) ->
  stretched idx (shape idx) (unravel_index (shape idx) p)
  = nth p (data idx) 0.
Proof.
  intros Hp. unfold stretched. rewrite pad_same by reflexivity.
  rewrite zip_clip_id by now apply unravel_index_bound.
  now rewrite ravel_unravel.
Qed.

Lemma skipn_nth_cons {A} (l : list A) (d : A) (s : nat) :
  s < length l -> skipn s l = nth s l d :: skipn (S s) l.
Proof.
  revert s; induction l as [|x l IH]; intros s Hs; [simpl in Hs; lia|].
  destruct s as [|s]; [reflexivity|]. simpl in Hs.
  change (skipn (S s) (x :: l)) with (skipn s l).
  change (skipn (S (S s)) (x :: l)) with (skipn (S s) l).
  cbn [nth]. apply IH. lia.
Qed.

Lemma map_nth_range {A} (l : list A) (d : A) (c : nat) :
  forall s, s + c <= length l ->
    map (fun t => nth t l d) (seq s c) = firstn c (skipn s l).
Proof.
  induction c as [|c IH]; intros s Hs; [reflexivity|].
  cbn [seq map]. rewrite (@skipn_nth_cons _ l d s) by lia.
  cbn [firstn]. f_equal. rewrite IH by lia. reflexivity.
Qed.

Lemma shape_split (sh : list nat) (k : nat) :
  k < length sh -> sh = firstn k sh ++ nth k sh 0 :: skipn (S k) sh.
Proof.
  intros Hk. rewrite <- (@skipn_nth_cons _ sh 0 k Hk).
  symmetry. apply firstn_skipn.
Qed.

Lemma firstn_upto {A} (l k : list A) : firstn (length l) (l ++ k) = l.
Proof. induction l as [|x l IH]; simpl; [now destruct k|]. now rewrite IH. Qed.

Lemma skipn_past {A} (l : list A) (x : A) (k : list A) :
  skipn (S (length l)) (l ++ x :: k) = k.
Proof. induction l as [|y l IH]; [reflexivity|]. exact IH. Qed.

Lemma in_firstn {A} (n : nat) (l : list A) (x : A) :
  In x (firstn n l) -> In x l.
Proof.
  intros H. rewrite <- (firstn_skipn n l). apply in_or_app. now left.
Qed.

Lemma in_skipn {A} (n : nat) (l : list A) (x : A) :
  In x (skipn n l) -> In x l.
Proof.
  intros H. rewrite <- (firstn_skipn n l). apply in_or_app. now right.
Qed.

Lemma flat_map_single {A B} (f : A -> B) (l : list A) :
  flat_map (fun x => [f x]) l = map f l.
Proof. induction l as [|x l IH]; simpl; [reflexivity|]. now rewrite IH. Qed.

Lemma forallb_lt_combine (m sh : list nat) :
  Forall2 lt m sh -> forallb (fun '(i, n) => i <? n) (combine m sh) = true.
Proof.
  induction 1 as [|i n m sh Hi Hm IH]; [reflexivity|].
  cbn [combine forallb]. rewrite IH, andb_true_r. now apply Nat.ltb_lt.
Qed.

Lemma lane_length (l : list Q) (len inner o i : nat) :
  length (lane l len inner o i) = len.
Proof. unfold lane. now rewrite length_map, length_seq. Qed.

Lemma lane_nth (dt : list Q) (len inner o i s : nat) :
  s < len ->
  nth s (lane dt len inner o i) 0%Q = nth ((o * len + s) * inner + i) dt 0%Q.
Proof.
  intros Hs. unfold lane.
  rewrite (map_nth_lt _ _ 0 0%Q) by now rewrite length_seq.
  now rewrite seq_nth.
Qed.

Section SortByAbsTuple.

Variable argsort : list Q -> list nat.
Hypothesis argsort_sorts : sorts argsort.

Variable a : ndarray Q.
Variable k : nat.
Hypothesis a_wf : wf a.
Hypothesis k_axis : k < ndim a.

Let outer := prod_shape (firstn k (shape a)).
Let len := nth k (shape a) 0.
Let inner := prod_shape (skipn (S k) (shape a)).

Lemma lanes_cover : length (data a) = outer * len * inner.
Proof. unfold wf in a_wf. rewrite a_wf. now apply prod_shape_split. Qed.

Lemma lane_position (o j i : nat) :
  o < outer -> j < len -> i < inner ->
  (o * len + j) * inner + i < prod_shape (shape a).
Proof.
  intros Ho Hj Hi. rewrite (@prod_shape_split (shape a) k k_axis).
  fold outer len inner.
  assert (H1 : o * len + j + 1 <= outer * len) by nia.
  assert (H2 : (o * len + j + 1) * inner <= outer * len * inner)
    by (apply Nat.mul_le_mono_r; exact H1).
  lia.
Qed.

Lemma sorted_position (o j i : nat) :
  j < len ->
  nth j (argsort (map Qabs (lane (data a) len inner o i))) 0 < len.
Proof.
  intros Hj.
  pose proof (@argsort_bound argsort argsort_sorts
                (map Qabs (lane (data a) len inner o i)) j) as Hb.
  rewrite length_map, lane_length in Hb. auto.
Qed.

(** The elements of [a] that the index arrays name at a position. *)
Lemma pick_tuple (o j i : nat) :
  o < outer -> j < len -> i < inner ->
  map (fun idx =>
         stretched idx (shape a)
           (unravel_index (shape a) ((o * len + j) * inner + i)))
      (setitem_list (ix_ (shape a)) k (argsort_abs argsort a k))
  = unravel_index (firstn k (shape a)) o
    ++ nth j (argsort (map Qabs (lane (data a) len inner o i))) 0
    :: unravel_index (skipn (S k) (shape a)) i.
Proof.
  intros Ho Hj Hi.
  pose proof (lane_position Ho Hj Hi) as Hp.
  set (p := (o * len + j) * inner + i) in *.
  set (m := unravel_index (shape a) p).
  assert (Hm : Forall2 lt m (shape a)) by now apply unravel_index_bound.
  assert (Hlm : length m = ndim a) by apply unravel_index_length.
  assert (Em : m = unravel_index (firstn k (shape a)) o
                   ++ j :: unravel_index (skipn (S k) (shape a)) i).
  { unfold m, p, len, inner. now apply unravel_split. }
  assert (Hlo : length (unravel_index (firstn k (shape a)) o) = k).
  { rewrite unravel_index_length, length_firstn. unfold ndim in k_axis. lia. }
  unfold setitem_list, ix_. rewrite map_app. cbn [map].
  rewrite <- firstn_map, <- skipn_map, !map_map.
  fold (ndim a).
  assert (Eix : map (fun t =>
                       stretched
                         (mk_ndarray
                            (repeat 1 t ++ nth t (shape a) 0
                             :: repeat 1 (ndim a - S t))
                            (seq 0 (nth t (shape a) 0)))
                         (shape a) m)
                    (seq 0 (ndim a))
                = m).
  { transitivity (map (fun t => nth t m 0) (seq 0 (length m)));
      [|apply map_nth_seq].
    rewrite Hlm. apply map_ext_in. intros t Ht. apply in_seq in Ht.
    apply stretched_ix; [unfold ndim in Ht; lia|exact Hm]. }
  rewrite Eix.
  f_equal; [|f_equal].
  - rewrite Em at 1. rewrite <- Hlo at 1. apply firstn_upto.
  - assert (Es : stretched (argsort_abs argsort a k) (shape a) m
                 = nth p (data (argsort_abs argsort a k)) 0)
      by (apply (@stretched_full (argsort_abs argsort a k) p); exact Hp).
    rewrite Es. unfold argsort_abs. cbn [data]. unfold wf in a_wf.
    rewrite (map_nth_lt _ _ 0 0) by (rewrite length_seq, a_wf; exact Hp).
    rewrite seq_nth by (rewrite a_wf; exact Hp). cbn [Nat.add]. cbv zeta.
    fold len inner. destruct (lane_index o Hj Hi) as [E1 [E2 E3]].
    fold p in E1, E2, E3. rewrite E1, E2, E3. reflexivity.
  - rewrite Em at 1. rewrite <- Hlo at 1. apply skipn_past.
Qed.

(** With the list read as a tuple, [sortbyabs] sorts the lanes. *)
Lemma getitem_tuple_sorted :
  getitem_tuple a (setitem_list (ix_ (shape a)) k (argsort_abs argsort a k))
  = Ok (mk_ndarray (shape a) (sort_lanes argsort (data a) len inner)).
Proof.
  unfold getitem_tuple.
  set (index := setitem_list (ix_ (shape a)) k (argsort_abs argsort a k)).
  assert (Hli : length index = ndim a).
  { unfold index, setitem_list, ix_.
    rewrite length_app. cbn [length].
    rewrite length_firstn, length_skipn, length_map, length_seq.
    unfold ndim in *. lia. }
  rewrite Hli, Nat.ltb_irrefl.
  assert (Eb : broadcast_shapes (map (fun idx => shape idx) index)
               = Some (shape a)).
  { unfold index, setitem_list, ix_. rewrite map_app. cbn [map shape].
    rewrite <- firstn_map, <- skipn_map, !map_map. cbn [shape].
    assert (Hall : Forall (fun s => below s (shape a))
                     (map (fun t => repeat 1 t ++ nth t (shape a) 0
                                    :: repeat 1 (length (shape a) - S t))
                          (seq 0 (length (shape a))))).
    { apply Forall_map, Forall_forall. intros t Ht. apply in_seq in Ht.
      apply unit_shape_below. lia. }
    apply broadcast_shapes_full.
    - rewrite Forall_forall in *. intros s Hs. apply Hall.
      now apply (@in_firstn _ k).
    - rewrite Forall_forall in *. intros s Hs. apply Hall.
      now apply (@in_skipn _ (S k)). }
  rewrite Eb.
  unfold ndim. rewrite firstn_all, skipn_all.
  change (prod_shape []) with 1. cbn [seq map].
  set (G := fun p => map (fun idx => stretched idx (shape a)
                                       (unravel_index (shape a) p)) index).
  assert (HG : forall p, p < prod_shape (shape a) ->
             let o := p / (len * inner) in
             let j := (p / inner) mod len in
             let i := p mod inner in
             o < outer /\ j < len /\ i < inner
             /\ G p = unravel_index (firstn k (shape a)) o
                      ++ nth j (argsort
                                  (map Qabs (lane (data a) len inner o i))) 0
                      :: unravel_index (skipn (S k) (shape a)) i).
  { intros p Hp o j i.
    rewrite (@prod_shape_split (shape a) k k_axis) in Hp.
    fold outer len inner in Hp.
    assert (Hl0 : len <> 0) by nia. assert (Hi0 : inner <> 0) by nia.
    assert (Ho : o < outer).
    { unfold o. apply Nat.Div0.div_lt_upper_bound. nia. }
    assert (Hj : j < len) by (unfold j; now apply Nat.mod_upper_bound).
    assert (Hi : i < inner) by (unfold i; now apply Nat.mod_upper_bound).
    repeat split; auto.
    rewrite <- (pick_tuple Ho Hj Hi). unfold G. fold index.
    pose proof (lane_index_inv p Hl0 Hi0) as Ep. fold o j i in Ep.
    now rewrite <- Ep. }
  replace (forallb _ (map G (seq 0 (prod_shape (shape a))))) with true.
  2: { symmetry. apply forallb_forall. intros pick Hpick.
       apply in_map_iff in Hpick as [p [<- Hp]]. apply in_seq in Hp.
       destruct (HG p ltac:(lia)) as [Ho [Hj [Hi E]]]. rewrite E.
       apply forallb_lt_combine.
       rewrite (@shape_split (shape a) k k_axis) at 3.
       apply Forall2_app; [now apply unravel_index_bound|].
       constructor; [now apply sorted_position|].
       now apply unravel_index_bound. }
  f_equal. rewrite app_nil_r. f_equal.
  rewrite (flat_map_single
             (fun pick => nth (ravel_multi_index (shape a) pick * 1 + 0)
                              (data a) 0%Q)).
  rewrite map_map. unfold sort_lanes. unfold wf in a_wf. rewrite a_wf.
  apply map_ext_in. intros p Hp. apply in_seq in Hp.
  destruct (HG p ltac:(lia)) as [Ho [Hj [Hi E]]]. rewrite E. cbv zeta.
  set (o := p / (len * inner)) in *. set (j := (p / inner) mod len) in *.
  set (i := p mod inner) in *.
  rewrite (@ravel_split k)
    by (auto; rewrite unravel_index_length, length_firstn;
        unfold ndim in k_axis; lia).
  rewrite !ravel_unravel by assumption. fold len inner.
  rewrite lane_nth by now apply sorted_position.
  f_equal. lia.
Qed.

End SortByAbsTuple.

Lemma axis_in_range (axis : Z) (d : nat) :
  (- Z.of_nat d <= axis < Z.of_nat d)%Z ->
  (axis <? - Z.of_nat d)%Z || (Z.of_nat d <=? axis)%Z = false.
Proof.
  intros Ha. apply orb_false_iff. split; [apply Z.ltb_ge|apply Z.leb_gt]; lia.
Qed.

Lemma sortbyabs_ok (argsort : list Q -> list nat) (a : ndarray Q) (axis : Z) :
  sorts argsort -> wf a ->
  (- Z.of_nat (ndim a) <= axis < Z.of_nat (ndim a))%Z ->
  sortbyabs ListAsTuple argsort a axis
  = Ok (mk_ndarray (shape a)
          (sort_lanes argsort (data a)
             (nth (norm_axis axis (ndim a)) (shape a) 0)
             (prod_shape (skipn (S (norm_axis axis (ndim a))) (shape a))))).
Proof.
  intros Hsorts Hw Ha. unfold sortbyabs. rewrite (@axis_in_range _ _ Ha).
  cbv zeta. destruct (@norm_axis_mod axis (ndim a) Ha) as [-> Hk].
  unfold getitem_list. now apply getitem_tuple_sorted.
Qed.

(** [np.array] of arrays of different shapes. *)
Lemma np_array_ragged (x y : ndarray nat) (l : list (ndarray nat)) :
  In y l -> shape y <> shape x -> np_array (x :: l) = Raise ValueError.
Proof.
  intros Hy Hne. unfold np_array.
  replace (forallb _ l) with false; [reflexivity|].
  symmetry. apply not_true_is_false. intros Hall.
  rewrite forallb_forall in Hall. specialize (Hall y Hy).
  destruct (list_eq_dec Nat.eq_dec (shape y) (shape x)); congruence.
Qed.

Lemma nth_ones (r t : nat) : t < r -> nth t (repeat 1 r) 0 = 1.
Proof.
  revert t; induction r as [|r IH]; intros t Ht; [lia|].
  destruct t as [|t]; [reflexivity|]. simpl. apply IH. lia.
Qed.

(** With the list read as one index array, the index arrays of an array of
    two or more axes do not stack when the axis to sort has two or more
    elements. *)
Lemma sortbyabs_array_raises (argsort : list Q -> list nat) (a : ndarray Q)
      (axis : Z) :
  2 <= ndim a ->
  (- Z.of_nat (ndim a) <= axis < Z.of_nat (ndim a))%Z ->
  2 <= nth (norm_axis axis (ndim a)) (shape a) 0 ->
  sortbyabs ListAsArray argsort a axis = Raise ValueError.
Proof.
  intros Hd Ha Hn. unfold sortbyabs. rewrite (@axis_in_range _ _ Ha).
  cbv zeta. destruct (@norm_axis_mod axis (ndim a) Ha) as [-> Hk].
  revert Hn Hk. generalize (norm_axis axis (ndim a)). intros k Hn Hk.
  unfold getitem_list, setitem_list, ix_.
  assert (HA : shape (argsort_abs argsort a k) = shape a) by reflexivity.
  revert HA. generalize (argsort_abs argsort a k). intros A HA.
  unfold ndim in *. revert Hd Hn Hk HA.
  destruct (shape a) as [|n0 [|n1 rest]]; intros Hd Hn Hk HA;
    try (simpl in Hd; lia).
  cbn [length seq map].
  destruct k as [|k].
  - cbn [firstn skipn app].
    rewrite (@np_array_ragged A
               (mk_ndarray (repeat 1 1 ++ nth 1 (n0 :: n1 :: rest) 0
                            :: repeat 1 (S (S (length rest)) - 2))
                           (seq 0 (nth 1 (n0 :: n1 :: rest) 0))));
      [reflexivity|now left|].
    rewrite HA. cbn [shape repeat app nth] in *. intros E.
    injection E as E _. lia.
  - cbn [firstn app].
    rewrite (@np_array_ragged _ A); [reflexivity| |].
    + apply in_or_app. right. now left.
    + rewrite HA. cbn [shape repeat app]. intros E.
      apply (f_equal (fun l => nth (S k) l 0)) in E.
      rewrite E in Hn. cbn [nth] in Hn.
      rewrite nth_ones in Hn by (simpl in Hk; simpl; lia).
      lia.
Qed.

(** With the list read as one index array, a 1-D array comes back sorted,
    with an axis of length 1 before its own. *)
Lemma sortbyabs_array_1d (argsort : list Q -> list nat) (a : ndarray Q)
      (n : nat) (axis : Z) :
  sorts argsort -> wf a -> shape a = [n] ->
  (-1 <= axis < 1)%Z ->
  sortbyabs ListAsArray argsort a axis
  = Ok (mk_ndarray [1; n] (sort_lanes argsort (data a) n 1)).
Proof.
  intros Hsorts Hw Hs Ha.
  assert (Hd : ndim a = 1) by (unfold ndim; now rewrite Hs).
  assert (Hl : length (data a) = n).
  { unfold wf in Hw. rewrite Hw, Hs. simpl. lia. }
  unfold sortbyabs. rewrite Hd. rewrite (@axis_in_range axis 1) by lia.
  cbv zeta. rewrite Z.mod_1_r. change (Z.to_nat 0) with 0.
  set (A := argsort_abs argsort a 0).
  assert (HA : shape A = [n]) by exact Hs.
  assert (HlA : length (data A) = n).
  { unfold A, argsort_abs. cbn [data]. now rewrite length_map, length_seq. }
  assert (HAb : forall p, p < n -> nth p (data A) 0 < n).
  { intros p Hp. unfold A, argsort_abs. cbn [data]. rewrite Hs.
    cbn [nth skipn]. change (prod_shape []) with 1.
    rewrite (map_nth_lt _ _ 0 0) by (rewrite length_seq; lia).
    rewrite seq_nth by lia. cbn [Nat.add]. cbv zeta.
    pose proof (@argsort_bound argsort Hsorts
                  (map Qabs (lane (data a) n 1 (p / (n * 1)) (p mod 1)))
                  ((p / 1) mod n)) as Hb.
    rewrite length_map, lane_length in Hb. apply Hb.
    apply Nat.mod_upper_bound. lia. }
  unfold getitem_list, setitem_list, ix_. rewrite Hs.
  cbn [length seq map firstn skipn app bind np_array forallb flat_map].
  rewrite app_nil_r. rewrite HA.
  set (arr := mk_ndarray [1; n] (data A)).
  unfold getitem_tuple. rewrite Hd, Hs. cbn [length map shape].
  change (1 <? 1) with false. cbv iota.
  unfold broadcast_shapes. cbn [fold_left]. rewrite broadcast_pair_nil.
  cbn [firstn skipn].
  change (prod_shape []) with 1. cbn [seq map].
  assert (HP : prod_shape [1; n] = n) by (simpl; lia).
  change (shape arr) with [1; n]. rewrite HP.
  assert (Epicks :
            map (fun p => [stretched arr [1; n] (unravel_index [1; n] p)])
                (seq 0 n)
            = map (fun p => [nth p (data A) 0]) (seq 0 n)).
  { apply map_ext_in. intros p Hp. apply in_seq in Hp. f_equal.
    apply (@stretched_full arr p). cbn [shape arr]. lia. }
  rewrite Epicks.
  replace (forallb _ (map (fun p => [nth p (data A) 0]) (seq 0 n))) with true.
  2: { symmetry. apply forallb_forall. intros pick Hpick.
       apply in_map_iff in Hpick as [p [<- Hp]]. apply in_seq in Hp.
       cbn [combine forallb]. rewrite andb_true_r. apply Nat.ltb_lt.
       apply HAb. lia. }
  f_equal. cbn [app]. f_equal.
  rewrite (flat_map_single
             (fun pick => nth (ravel_multi_index [n] pick * 1 + 0)
                              (data a) 0%Q)).
  rewrite map_map. unfold sort_lanes. rewrite Hl.
  apply map_ext_in. intros p Hp. apply in_seq in Hp. cbv zeta.
  cbn [ravel_multi_index]. change (prod_shape []) with 1.
  assert (E : nth p (data A) 0
              = nth ((p / 1) mod n)
                    (argsort (map Qabs (lane (data a) n 1 (p / (n * 1))
                                          (p mod 1)))) 0).
  { unfold A, argsort_abs. cbn [data]. rewrite Hs.
    cbn [nth skipn]. change (prod_shape []) with 1.
    rewrite (map_nth_lt _ _ 0 0) by (rewrite length_seq; lia).
    rewrite seq_nth by lia. reflexivity. }
  rewrite <- E. rewrite lane_nth by (apply HAb; lia).
  replace (p / (n * 1)) with 0
    by (symmetry; apply Nat.div_small; lia).
  rewrite Nat.mod_1_r. f_equal. lia.
Qed.

Section Lanes.

Variable argsort : list Q -> list nat.
Hypothesis argsort_sorts : sorts argsort.

Variable dt : list Q.
Variables outer len inner : nat.
Hypothesis dt_length : length dt = outer * len * inner.

Lemma sort_lanes_length :
  length (sort_lanes argsort dt len inner) = length dt.
Proof. unfold sort_lanes. now rewrite length_map, length_seq. Qed.

Lemma sort_lanes_nth o j i :
  o < outer -> j < len -> i < inner ->
  nth ((o * len + j) * inner + i) (sort_lanes argsort dt len inner) 0%Q
  = nth (nth j (argsort (map Qabs (lane dt len inner o i))) 0)
        (lane dt len inner o i) 0%Q.
Proof.
  intros Ho Hj Hi. unfold sort_lanes.
  assert (Hp : (o * len + j) * inner + i < length dt).
  { rewrite dt_length.
    assert (H1 : o * len + j + 1 <= outer * len) by nia.
    assert (H2 : (o * len + j + 1) * inner <= outer * len * inner)
      by (apply Nat.mul_le_mono_r; exact H1).
    lia. }
  rewrite (map_nth_lt _ _ 0 0%Q) by now rewrite length_seq.
  rewrite seq_nth by assumption. cbn [Nat.add]. cbv zeta.
  destruct (lane_index o Hj Hi) as [E1 [E2 E3]].
  rewrite E1, E2, E3. reflexivity.
Qed.

(** A lane of the result is the lane of the argument in the order of its
    [argsort]. *)
Lemma sort_lanes_lane o i :
  o < outer -> i < inner ->
  lane (sort_lanes argsort dt len inner) len inner o i
  = map (fun x => nth x (lane dt len inner o i) 0%Q)
        (argsort (map Qabs (lane dt len inner o i))).
Proof.
  intros Ho Hi.
  rewrite <- (map_via_nth (fun x => nth x (lane dt len inner o i) 0%Q)
                (argsort (map Qabs (lane dt len inner o i))) 0).
  rewrite (argsort_length argsort_sorts), length_map, lane_length.
  unfold lane at 1. apply map_ext_in. intros j Hj. apply in_seq in Hj.
  apply sort_lanes_nth; auto; lia.
Qed.

End Lanes.

Lemma map_result_ok {A B C} (f : B -> result C) (g : A -> B) (h : A -> C) l :
  (forall x, In x l -> f (g x) = Ok (h x)) ->
  map_result f (map g l) = Ok (map h l).
Proof.
  induction l as [|x l IH]; intros Hf; simpl; [reflexivity|].
  rewrite Hf by now left. simpl. rewrite IH; [reflexivity|].
  intros y Hy. apply Hf. now right.
Qed.

Lemma lane_row (dt : list Q) (B n b : nat) :
  length dt = B * n -> b < B -> lane dt n 1 b 0 = slice_data n dt b.
Proof.
  intros Hl Hb. apply (nth_ext _ _ 0%Q 0%Q).
  - unfold lane. rewrite length_map, length_seq.
    symmetry. now apply slice_data_length with B.
  - intros j Hj. unfold lane in *. rewrite length_map, length_seq in Hj.
    rewrite (map_nth_lt _ _ 0 0%Q) by now rewrite length_seq.
    rewrite seq_nth, slice_data_nth by assumption.
    f_equal. lia.
Qed.

(** The arrays that [np.split] and [np.squeeze] make of an array whose
    rows along the last axis are sorted by [sortbyabs]. *)
Lemma split_sorted_rows (argsort : list Q -> list nat) (dt : list Q)
      (batch : list nat) (n : nat) :
  sorts argsort -> length dt = prod_shape batch * n -> 0 < n ->
  exists parts,
    (parts <- split_last
                (mk_ndarray (batch ++ [n]) (sort_lanes argsort dt n 1)) ;;
     map_result squeeze_last parts) = Ok parts
    /\ length parts = n
    /\ Forall (fun part => shape part = batch
                           /\ length (data part) = prod_shape batch) parts
    /\ forall b, b < prod_shape batch ->
         let row := slice_data n dt b in
         rank_tuple parts b
         = map (fun x => nth x row 0%Q) (argsort (map Qabs row)).
Proof.
  intros Hsorts Hlen Hn. set (B := prod_shape batch) in *.
  unfold split_last. cbn [shape data].
  rewrite rev_app_distr. cbn [rev app].
  assert (Hn0 : (n =? 0) = false) by (apply Nat.eqb_neq; lia).
  rewrite Hn0, rev_involutive. fold B. cbn [bind].
  set (S1 := sort_lanes argsort dt n 1).
  set (G := fun k : nat =>
              mk_ndarray batch
                (map (fun b => nth (b * n + k) S1 0%Q) (seq 0 B))).
  rewrite (map_result_ok _ _ G).
  2: { intros k _. unfold squeeze_last. cbn [shape data].
       rewrite rev_app_distr. cbn [rev app]. now rewrite rev_involutive. }
  exists (map G (seq 0 n)). split; [reflexivity|].
  split; [now rewrite length_map, length_seq|].
  split.
  { apply Forall_map, Forall_forall. intros k _. unfold G. cbn [shape data].
    split; [reflexivity|]. now rewrite length_map, length_seq. }
  intros b Hb. set (row := slice_data n dt b).
  unfold rank_tuple. rewrite map_map.
  assert (Hl1 : length dt = B * n * 1) by lia.
  assert (Hrow : lane dt n 1 b 0 = row) by now apply lane_row with B.
  assert (Hrl : length row = n).
  { unfold row. now apply slice_data_length with B. }
  rewrite <- (map_via_nth (fun x => nth x row 0%Q)
                (argsort (map Qabs row)) 0).
  rewrite (argsort_length Hsorts), length_map, Hrl.
  apply map_ext_in. intros k Hk. apply in_seq in Hk.
  unfold G. cbn [data].
  rewrite (map_nth_lt _ _ 0 0%Q) by now rewrite length_seq.
  rewrite seq_nth by assumption. cbn [Nat.add].
  replace (b * n + k) with ((b * n + k) * 1 + 0) by lia.
  unfold S1.
  rewrite (@sort_lanes_nth argsort dt B n 1 Hl1 b k 0) by lia.
  rewrite Hrow. reflexivity.
Qed.

Lemma Forall2_Qeq_refl (l : list Q) : Forall2 Qeq l l.
Proof. induction l; constructor; auto. reflexivity. Qed.

Lemma Forall2_Qeq_trans (l1 l2 l3 : list Q) :
  Forall2 Qeq l1 l2 -> Forall2 Qeq l2 l3 -> Forall2 Qeq l1 l3.
Proof.
  intros H; revert l3; induction H as [|x y l1 l2 Hxy H IH]; intros l3 H3;
    inversion H3; subst; constructor.
  - etransitivity; eauto.
  - now apply IH.
Qed.

Lemma Forall2_Qeq_shift (a : Q) (u v : list Q) :
  Forall (fun x => x == a)%Q u ->
  forall t, Forall2 Qeq t (u ++ v) -> Forall2 Qeq (a :: t) (u ++ a :: v).
Proof.
  induction 1 as [|x u Hx Hu IH]; intros t Ht; simpl in *.
  - constructor; [reflexivity|exact Ht].
  - inversion Ht as [|b ? t' ? Hb Ht']; subst.
    constructor; [now symmetry|].
    apply Forall2_Qeq_trans with (a :: t'); [|now apply IH].
    constructor; [now rewrite Hb|apply Forall2_Qeq_refl].
Qed.

Lemma StronglySorted_remove (u : list Q) (a : Q) (v : list Q) :
  StronglySorted Qle (u ++ a :: v) -> StronglySorted Qle (u ++ v).
Proof.
  induction u as [|x u IH]; simpl; intros H.
  - now inversion H.
  - inversion H as [|? ? Hs Hall]; subst. constructor; [now apply IH|].
    rewrite Forall_app in *. destruct Hall as [Hu Hv].
    split; [exact Hu|now inversion Hv].
Qed.

Lemma StronglySorted_before (u : list Q) (a : Q) (v : list Q) :
  StronglySorted Qle (u ++ a :: v) -> Forall (fun x => x <= a)%Q u.
Proof.
  induction u as [|x u IH]; simpl; intros H; [constructor|].
  inversion H as [|? ? Hs Hall]; subst. constructor; [|now apply IH].
  rewrite Forall_app in Hall. destruct Hall as [_ Hv]. now inversion Hv.
Qed.

(** Two arrangements of the same elements, both in ascending order, agree
    at every place up to the equality of rationals. *)
Lemma sorted_unique (n : nat) :
  forall l1 l2 : list Q,
    length l1 = n ->
    Permutation l1 l2 ->
    StronglySorted Qle l1 -> StronglySorted Qle l2 ->
    Forall2 Qeq l1 l2.
Proof.
  induction n as [|n IH]; intros l1 l2 Hn Hp H1 H2.
  - destruct l1; [|discriminate].
    apply Permutation_nil in Hp. subst. constructor.
  - destruct l1 as [|a t1]; [discriminate|]. simpl in Hn.
    assert (Ha : In a l2) by (apply (Permutation_in _ Hp); now left).
    apply in_split in Ha as [u [v ->]].
    apply Permutation_cons_app_inv in Hp.
    inversion H1 as [|? ? H1' Hall1]; subst.
    apply Forall2_Qeq_shift.
    + pose proof (StronglySorted_before _ _ _ H2) as Hle.
      rewrite Forall_forall in *. intros x Hx. apply Qle_antisym.
      * now apply Hle.
      * apply Hall1. apply (Permutation_in _ (Permutation_sym Hp)).
        apply in_or_app. now left.
    + apply IH; [lia|exact Hp|exact H1'|].
      now apply StronglySorted_remove with a.
Qed.

Lemma StronglySorted_abs (l : list Q) :
  StronglySorted (fun x y => Qabs x <= Qabs y)%Q l ->
  StronglySorted Qle (map Qabs l).
Proof.
  induction 1 as [|x l Hs IH Hall]; cbn [map]; constructor; auto.
  now apply Forall_map.
Qed.

Lemma Forall2_Qeq_nth (l1 l2 : list Q) (j : nat) (d : Q) :
  Forall2 Qeq l1 l2 -> (nth j l1 d == nth j l2 d)%Q.
Proof.
  intros H; revert j; induction H as [|x y l1 l2 Hxy H IH]; intros [|j];
    simpl; auto; reflexivity.
Qed.

(** Sorting a sorted lane once more leaves the absolute values in place. *)
Lemma sorted_lane_abs (argsort : list Q -> list nat) (ln : list Q) (j : nat) :
  sorts argsort ->
  StronglySorted (fun x y => Qabs x <= Qabs y)%Q ln ->
  (Qabs (nth j (map (fun x => nth x ln 0%Q) (argsort (map Qabs ln))) 0)
   == Qabs (nth j ln 0))%Q.
Proof.
  intros Hsorts Hs.
  set (l2 := map (fun x => nth x ln 0%Q) (argsort (map Qabs ln))).
  assert (H : Forall2 Qeq (map Qabs l2) (map Qabs ln)).
  { apply sorted_unique with (length (map Qabs l2)); auto.
    - apply Permutation_map. now apply sorted_lane_perm.
    - apply StronglySorted_abs. now apply sorted_lane_sorted.
    - now apply StronglySorted_abs. }
  pose proof (Forall2_Qeq_nth j (Qabs 0) H) as E.
  now rewrite !map_nth in E.
Qed.

Lemma norm_axis_last (d : nat) : norm_axis (-1) (S d) = d.
Proof. unfold norm_axis. cbn [Z.ltb Z.compare]. lia. Qed.

(** What [absolute_eigenvaluesh] returns where the list of index arrays is
    read as a tuple, in terms of the rows of the array of eigenvalues. *)
Lemma absolute_eigenvaluesh_rows (argsort : list Q -> list nat)
      (eigvalsh : ndarray Q -> ndarray Q)
      (nd_array : ndarray Q) (batch : list nat) (n : nat) :
  sorts argsort ->
  shape (eigvalsh nd_array) = batch ++ [n] ->
  wf (eigvalsh nd_array) ->
  0 < n ->
  exists parts,
    absolute_eigenvaluesh ListAsTuple argsort eigvalsh nd_array = Ok parts
    /\ length parts = n
    /\ Forall (fun part => shape part = batch
                           /\ length (data part) = prod_shape batch) parts
    /\ forall b, b < prod_shape batch ->
         let row := slice_data n (data (eigvalsh nd_array)) b in
         rank_tuple parts b
         = map (fun x => nth x row 0%Q) (argsort (map Qabs row)).
Proof.
  intros Hsorts Hs Hw Hn. set (ev := eigvalsh nd_array) in *.
  assert (Hlen : length (data ev) = prod_shape batch * n).
  { unfold wf in Hw. rewrite Hw, Hs, prod_shape_app. simpl. lia. }
  assert (Hd : ndim ev = S (length batch)).
  { unfold ndim. rewrite Hs, length_app. simpl. lia. }
  unfold absolute_eigenvaluesh. fold ev.
  rewrite sortbyabs_ok by (auto; rewrite Hd; lia).
  rewrite Hd, norm_axis_last, Hs, nth_middle.
  rewrite skipn_all2 by (rewrite length_app; simpl; lia).
  change (prod_shape []) with 1. cbn [bind].
  now apply split_sorted_rows.
Qed.

(** The same where the list is read as one index array, for the
    eigenvalues of a single matrix. *)
Lemma absolute_eigenvaluesh_rows_array (argsort : list Q -> list nat)
      (eigvalsh : ndarray Q -> ndarray Q) (nd_array : ndarray Q) (n : nat) :
  sorts argsort ->
  shape (eigvalsh nd_array) = [n] ->
  wf (eigvalsh nd_array) ->
  0 < n ->
  exists parts,
    absolute_eigenvaluesh ListAsArray argsort eigvalsh nd_array = Ok parts
    /\ length parts = n
    /\ Forall (fun part => shape part = [1] /\ length (data part) = 1) parts
    /\ rank_tuple parts 0
       = map (fun x => nth x (data (eigvalsh nd_array)) 0%Q)
             (argsort (map Qabs (data (eigvalsh nd_array)))).
Proof.
  intros Hsorts Hs Hw Hn. set (ev := eigvalsh nd_array) in *.
  assert (Hlen : length (data ev) = prod_shape [1] * n).
  { unfold wf in Hw. rewrite Hw, Hs. simpl. lia. }
  unfold absolute_eigenvaluesh. fold ev.
  rewrite (@sortbyabs_array_1d argsort ev n (-1)) by (auto; lia).
  cbn [bind].
  destruct (@split_sorted_rows argsort (data ev) [1] n Hsorts Hlen Hn)
    as [parts [Ep [Hl [Hsh Hrows]]]].
  exists parts. split; [exact Ep|]. split; [exact Hl|]. split; [exact Hsh|].
  specialize (Hrows 0 ltac:(simpl; lia)). cbv zeta in Hrows.
  replace (slice_data n (data ev) 0) with (data ev) in Hrows; [exact Hrows|].
  unfold slice_data. cbn [Nat.mul skipn]. symmetry. apply firstn_all2.
  simpl in Hlen. lia.
Qed.

(** The one arrangement of 3 and -5 in ascending order of the absolute
    values. *)
Lemma sorted_3_m5 (l : list Q) :
  Permutation l [3; -5]%Q ->
  StronglySorted (fun x y => Qabs x <= Qabs y)%Q l ->
  l = [3; -5]%Q.
Proof.
  intros Hp Hs. apply Permutation_sym, Permutation_length_2_inv in Hp.
  destruct Hp as [->| ->]; [reflexivity|].
  inversion Hs as [|? ? _ Hall]; subst.
  inversion Hall as [|? ? Hle _]; subst.
  exfalso. revert Hle. unfold Qle. simpl. lia.
Qed.

(** Two arrays of one element each are known by their shape and their
    elements. *)
Lemma parts_of_ranks (parts : list (ndarray Q)) (sh : list nat) (x y : Q) :
  Forall (fun part => shape part = sh /\ length (data part) = 1) parts ->
  rank_tuple parts 0 = [x; y] ->
  parts = [mk_ndarray sh [x]; mk_ndarray sh [y]].
Proof.
  intros Hshape Hr.
  destruct parts as [|[s0 d0] [|[s1 d1] [|? ?]]]; try discriminate.
  inversion Hshape as [|? ? [Hs0 Hd0] Hshape']; subst.
  inversion Hshape' as [|? ? [Hs1 Hd1] _]; subst.
  cbn [shape data] in *.
  destruct d0 as [|x0 [|? ?]]; try discriminate.
  destruct d1 as [|x1 [|? ?]]; try discriminate.
  unfold rank_tuple in Hr. cbn in Hr. now inversion Hr; subst.
Qed.

(** C9, where the code departs from it.  [sortbyabs] indexes with a list of
    index arrays.  Where NumPy reads that list as a tuple (up to NumPy
    1.22), [absolute_eigenvaluesh] returns one array per rank, of the shape
    of the batch, and for every matrix the values of the ranks are its
    eigenvalues in ascending order of their absolute values: [3] then [-5]
    for the matrix [[3, 0], [0, -5]].  Where NumPy reads the list as one
    index array (from NumPy 1.23 on), the call raises [ValueError] for every
    batch of matrices with two or more eigenvalues each, and for a single
    matrix the arrays of the ranks, sorted as before, have the shape [(1,)]:
    an axis is added for the one that is squeezed away. *)
Theorem absolute_eigenvaluesh_sorted_by_abs
        (argsort : list Q -> list nat)
        (eigvalsh : ndarray Q -> ndarray Q) (nd_array : ndarray Q)
        (batch : list nat) (n : nat) :
  sorts argsort ->
  shape (eigvalsh nd_array) = batch ++ [n] ->
  wf (eigvalsh nd_array) ->
  0 < n ->
  (exists parts,
      absolute_eigenvaluesh ListAsTuple argsort eigvalsh nd_array = Ok parts
      /\ length parts = n
      /\ Forall (fun part => shape part = batch
                             /\ length (data part) = prod_shape batch) parts
      /\ (forall b, b < prod_shape batch ->
            Permutation (rank_tuple parts b)
                        (slice_data n (data (eigvalsh nd_array)) b)
            /\ StronglySorted (fun x y => Qabs x <= Qabs y)%Q
                              (rank_tuple parts b))
      /\ (batch = [] ->
          Permutation (data (eigvalsh nd_array)) [3; -5]%Q ->
          parts = [mk_ndarray [] [3%Q]; mk_ndarray [] [(-5)%Q]]))
  /\ (batch <> [] -> 2 <= n ->
      absolute_eigenvaluesh ListAsArray argsort eigvalsh nd_array
      = Raise ValueError)
  /\ (batch = [] ->
      exists parts,
        absolute_eigenvaluesh ListAsArray argsort eigvalsh nd_array = Ok parts
        /\ length parts = n
        /\ Forall (fun part => shape part = [1]
                               /\ length (data part) = 1) parts
        /\ Permutation (rank_tuple parts 0) (data (eigvalsh nd_array))
        /\ StronglySorted (fun x y => Qabs x <= Qabs y)%Q
                          (rank_tuple parts 0)
        /\ (Permutation (data (eigvalsh nd_array)) [3; -5]%Q ->
            parts = [mk_ndarray [1] [3%Q]; mk_ndarray [1] [(-5)%Q]])).
Proof.
  intros Hsorts Hs Hw Hn. split; [|split].
  - destruct (absolute_eigenvaluesh_rows eigvalsh nd_array batch
                Hsorts Hs Hw Hn) as [parts [Ep [Hlen [Hshape Hrows]]]].
    exists parts. split; [exact Ep|]. split; [exact Hlen|].
    split; [exact Hshape|].
    assert (Hsorted : forall b, b < prod_shape batch ->
              Permutation (rank_tuple parts b)
                          (slice_data n (data (eigvalsh nd_array)) b)
              /\ StronglySorted (fun x y => Qabs x <= Qabs y)%Q
                                (rank_tuple parts b)).
    { intros b Hb. rewrite Hrows by assumption. split.
      - now apply sorted_lane_perm.
      - now apply sorted_lane_sorted. }
    split; [exact Hsorted|].
    intros -> Hperm.
    destruct (Hsorted 0 (Nat.lt_succ_diag_r 0)) as [Hp0 Hs0].
    assert (Hrow : slice_data n (data (eigvalsh nd_array)) 0
                   = data (eigvalsh nd_array)).
    { unfold slice_data. cbn [Nat.mul skipn]. apply firstn_all2.
      unfold wf in Hw. rewrite Hw, Hs. simpl. lia. }
    rewrite Hrow in Hp0.
    apply parts_of_ranks; [exact Hshape|].
    apply sorted_3_m5; [|exact Hs0]. now rewrite Hp0.
  - intros Hb Hn2. unfold absolute_eigenvaluesh.
    rewrite sortbyabs_array_raises; [reflexivity| | |].
    + unfold ndim. rewrite Hs, length_app. destruct batch; [congruence|].
      simpl. lia.
    + unfold ndim. rewrite Hs, length_app. simpl. lia.
    + unfold ndim. rewrite Hs, length_app. cbn [length].
      rewrite Nat.add_1_r, norm_axis_last, nth_middle. exact Hn2.
  - intros ->. cbn [app] in Hs.
    destruct (absolute_eigenvaluesh_rows_array eigvalsh nd_array
                Hsorts Hs Hw Hn) as [parts [Ep [Hlen [Hshape Hrows]]]].
    exists parts. split; [exact Ep|]. split; [exact Hlen|].
    split; [exact Hshape|].
    assert (Hp0 : Permutation (rank_tuple parts 0)
                              (data (eigvalsh nd_array)))
      by (rewrite Hrows; now apply sorted_lane_perm).
    assert (Hs0 : StronglySorted (fun x y => Qabs x <= Qabs y)%Q
                                 (rank_tuple parts 0))
      by (rewrite Hrows; now apply sorted_lane_sorted).
    split; [exact Hp0|]. split; [exact Hs0|].
    intros Hperm. apply parts_of_ranks; [exact Hshape|].
    apply sorted_3_m5; [|exact Hs0]. now rewrite Hp0.
Qed.

Lemma absolute_eigenvaluesh_sorted_by_abs_witness :
  absolute_eigenvaluesh ListAsArray insertion_argsort eigvalsh_diag diag_stack
  = Raise ValueError
  /\ exists parts,
       absolute_eigenvaluesh ListAsTuple insertion_argsort eigvalsh_diag
         diag_stack = Ok parts
       /\ length parts = 2
       /\ Forall (fun part => shape part = [2]
                              /\ length (data part) = prod_shape [2]) parts.
Proof.
  destruct (@absolute_eigenvaluesh_sorted_by_abs insertion_argsort
              eigvalsh_diag diag_stack [2] 2)
    as [[parts [Ep [Hl [Hsh _]]]] [Hraise _]].
  - apply insertion_argsort_sorts.
  - reflexivity.
  - reflexivity.
  - lia.
  - split.
    + apply Hraise; [discriminate|lia].
    + exists parts. auto.
Defined.

(** ** get_3dseed_from_mid_frame *)

Lemma norm_index_ok (i : Z) (d : nat) :
  (- Z.of_nat d <= i < Z.of_nat d)%Z ->
  norm_index i d = Ok (Z.to_nat (i mod Z.of_nat d))
  /\ Z.to_nat (i mod Z.of_nat d) < d.
Proof.
  intros Hi. unfold norm_index.
  replace ((i <? - Z.of_nat d)%Z || (Z.of_nat d <=? i)%Z) with false.
  2: { symmetry. apply orb_false_iff. split;
       [apply Z.ltb_ge|apply Z.leb_gt]; lia. }
  split; [reflexivity|].
  assert (0 <= i mod Z.of_nat d < Z.of_nat d)%Z
    by (apply Z.mod_pos_bound; lia).
  lia.
Qed.

Lemma norm_index_nonneg (i : Z) (d : nat) :
  (0 <= i < Z.of_nat d)%Z -> norm_index i d = Ok (Z.to_nat i).
Proof.
  intros Hi. destruct (@norm_index_ok i d) as [E _]; [lia|].
  rewrite E. now rewrite Z.mod_small.
Qed.

Lemma nth_replace_one {A} (l : list A) (d v : A) off p :
  off < length l ->
  nth p (firstn off l ++ [v] ++ skipn (off + 1) l) d
  = if p =? off then v else nth p l d.
Proof.
  intros Ho.
  assert (Hf : length (firstn off l) = off) by (rewrite length_firstn; lia).
  destruct (Nat.eqb_spec p off) as [->|Hne].
  - rewrite app_nth2 by lia. rewrite Hf, Nat.sub_diag. reflexivity.
  - destruct (Nat.lt_ge_cases p off) as [Hlt|Hge].
    + rewrite app_nth1 by lia. rewrite nth_firstn.
      apply Nat.ltb_lt in Hlt. now rewrite Hlt.
    + rewrite app_nth2 by lia. rewrite Hf.
      replace (p - off) with (S (p - off - 1)) by lia.
      cbn [app nth]. rewrite nth_skipn. f_equal. lia.
Qed.

Section SeedProofs.

Variables d h w : nat.
Variable mid_frame : Z.
Hypothesis mid_frame_valid : (- Z.of_nat d <= mid_frame < Z.of_nat d)%Z.

Let z := Z.to_nat (mid_frame mod Z.of_nat d).

Lemma z_lt_d : z < d.
Proof. apply (@norm_index_ok mid_frame d mid_frame_valid). Qed.

Lemma seed_offset_plane r :
  centroid_in_plane h w r = true ->
  z * (h * w) <= seed_offset z h w r < S z * (h * w).
Proof.
  unfold centroid_in_plane, seed_offset.
  destruct (map round_half_even (centroid r)) as [|py [|px [|? ?]]];
    try discriminate.
  rewrite !andb_true_iff, !Z.leb_le, !Z.ltb_lt. intros [[[H1 H2] H3] H4].
  assert (Z.to_nat py < h) by lia. assert (Z.to_nat px < w) by lia. nia.
Qed.

Lemma setitem3_ok (a : ndarray Q) (r : region) (v : Q) :
  shape a = [d; h; w] -> length (data a) = d * (h * w) ->
  centroid_in_plane h w r = true ->
  exists py px a',
    map round_half_even (centroid r) = [py; px]
    /\ setitem3 a mid_frame py px v = Ok a'
    /\ shape a' = [d; h; w]
    /\ length (data a') = d * (h * w)
    /\ forall p, nth p (data a') 0%Q
                 = if p =? seed_offset z h w r then v else nth p (data a) 0%Q.
Proof.
  intros Hs Hl Hc.
  pose proof (seed_offset_plane r Hc) as Hoff. pose proof z_lt_d as Hz.
  unfold centroid_in_plane in Hc. unfold seed_offset in *.
  destruct (map round_half_even (centroid r)) as [|py [|px [|? ?]]];
    try discriminate.
  rewrite !andb_true_iff, !Z.leb_le, !Z.ltb_lt in Hc.
  destruct Hc as [[[H1 H2] H3] H4].
  exists py, px. unfold setitem3. rewrite Hs.
  rewrite (proj1 (@norm_index_ok mid_frame d mid_frame_valid)).
  fold z. cbn [bind].
  rewrite !norm_index_nonneg by lia. cbn [bind prod_shape fold_right repeat].
  set (off := (z * h + Z.to_nat py) * w + Z.to_nat px) in *.
  rewrite Nat.mul_1_r.
  assert (Ho : off < length (data a)) by (rewrite Hl; nia).
  eexists. split; [reflexivity|]. split; [reflexivity|].
  cbn [shape data]. split; [reflexivity|]. split.
  - rewrite !length_app, length_firstn, length_skipn. simpl. lia.
  - intros p. now apply nth_replace_one.
Qed.

Lemma place_seeds_ok (stat : list region) :
  Forall (fun r => centroid_in_plane h w r = true) stat ->
  forall (seed : ndarray Q) (c : Z),
    shape seed = [d; h; w] -> length (data seed) = d * (h * w) ->
    exists seed',
      place_seeds stat mid_frame seed c = Ok seed'
      /\ shape seed' = [d; h; w]
      /\ length (data seed') = d * (h * w)
      /\ forall p,
           nth p (data seed') 0%Q
           = match seed_id_at (map (seed_offset z h w) stat) c p with
             | Some i => inject_Z i
             | None => nth p (data seed) 0%Q
             end.
Proof.
  induction 1 as [|r stat Hr _ IH]; intros seed c Hs Hl.
  - exists seed. simpl. auto.
  - destruct (@setitem3_ok seed r (inject_Z (c + 1)) Hs Hl Hr)
      as [py [px [seed1 [Ec [Es [Hs1 [Hl1 Hn1]]]]]]].
    cbn [place_seeds]. rewrite Ec, Es. cbn [bind].
    destruct (IH seed1 (c + 1)%Z Hs1 Hl1) as [seed' [Ep [Hs' [Hl' Hn']]]].
    exists seed'. repeat split; auto.
    intros p. rewrite Hn'. cbn [map seed_id_at].
    destruct (seed_id_at (map (seed_offset z h w) stat) (c + 1) p);
      [reflexivity|].
    rewrite Hn1. rewrite (Nat.eqb_sym p). 
    destruct (seed_offset z h w r =? p); reflexivity.
Qed.

End SeedProofs.

Lemma seed_id_at_In offs c p i : seed_id_at offs c p = Some i -> In p offs.
Proof.
  revert c i. induction offs as [|o offs IH]; intros c i; simpl;
    [discriminate|].
  destruct (seed_id_at offs (c + 1) p) eqn:E.
  - intros _. right. eapply IH; eauto.
  - destruct (Nat.eqb_spec o p); [intros _; now left|discriminate].
Qed.

Lemma seed_id_at_not_In offs c p : ~ In p offs -> seed_id_at offs c p = None.
Proof.
  intros Hn. destruct (seed_id_at offs c p) eqn:E; [|reflexivity].
  apply seed_id_at_In in E. contradiction.
Qed.

(** The seed written [k]-th is still there when no later one is written at
    its position. *)
Lemma seed_id_at_last offs c k o :
  nth_error offs k = Some o -> ~ In o (skipn (S k) offs) ->
  seed_id_at offs c o = Some (c + Z.of_nat k + 1)%Z.
Proof.
  revert c k. induction offs as [|o' offs IH]; intros c k Hk Hn.
  - destruct k; discriminate.
  - destruct k as [|k].
    + simpl in Hk. injection Hk as ->. simpl in Hn. cbn [seed_id_at].
      rewrite seed_id_at_not_In by assumption.
      rewrite Nat.eqb_refl. f_equal. lia.
    + simpl in Hk. cbn [seed_id_at].
      rewrite (IH (c + 1)%Z k Hk) by exact Hn. f_equal. lia.
Qed.

Lemma seed_id_at_range offs c p i :
  seed_id_at offs c p = Some i -> (c < i <= c + Z.of_nat (length offs))%Z.
Proof.
  revert c i. induction offs as [|o offs IH]; intros c i; simpl;
    [discriminate|].
  destruct (seed_id_at offs (c + 1) p) eqn:E.
  - intros [= <-]. apply IH in E. lia.
  - destruct (o =? p); [intros [= <-]; lia|discriminate].
Qed.

Lemma nth_zeros p n : nth p (repeat 0%Q n) 0%Q = 0%Q.
Proof. apply nth_repeat. Qed.

Lemma fill_plane0_ok (d h w : nat) :
  d <> 0 ->
  exists seed,
    fill_plane0 (full [d; h; w] 0%Q) 1%Q = Ok seed
    /\ shape seed = [d; h; w]
    /\ length (data seed) = d * (h * w)
    /\ forall p, nth p (data seed) 0%Q = if p <? h * w then 1%Q else 0%Q.
Proof.
  intros Hd. unfold fill_plane0. cbn [full shape data].
  apply Nat.eqb_neq in Hd as Hd'. rewrite Hd'.
  cbn [prod_shape fold_right]. rewrite !Nat.mul_1_r.
  eexists. split; [reflexivity|]. cbn [shape data].
  split; [reflexivity|]. split.
  - rewrite length_app, repeat_length, length_skipn, repeat_length.
    destruct d; [congruence|]. nia.
  - intros p. destruct (Nat.ltb_spec p (h * w)) as [Hlt|Hge].
    + rewrite app_nth1 by now rewrite repeat_length.
      apply nth_repeat_lt. assumption.
    + rewrite app_nth2 by now rewrite repeat_length.
      rewrite nth_skipn. apply nth_zeros.
Qed.

(** C6, as the code has it.  For a 3D [stack_shape], an index [mid_frame]
    of its first axis and regions whose centroids round to pixels of a
    plane, [get_3dseed_from_mid_frame] returns a float volume of that shape
    holding integers: every region gets, in the order of [regionprops], the
    next id (from 2 with a background seed, from 1 without), written in the
    plane [mid_frame] at its rounded centroid; a voxel holds the id written
    there last, else 1 in the plane 0 when [bg_seed] is set, else 0.  So the
    plane 0 is all 1 when [mid_frame] is another plane, and a region's id is
    found at its rounded centroid unless a later region rounds to the same
    pixel. *)
Theorem seed_volume_layout {A} `{Scalar A}
        (remove_small_objects : ndarray bool -> Z -> ndarray bool)
        (label : ndarray bool -> nat -> ndarray nat)
        (regionprops : ndarray nat -> list region)
        (bw : ndarray A) (d h w : nat) (mid_frame hole_min : Z)
        (bg_seed : bool) :
  (- Z.of_nat d <= mid_frame < Z.of_nat d)%Z ->
  Forall (fun r => centroid_in_plane h w r = true)
         (seed_regions remove_small_objects label regionprops bw hole_min) ->
  let stat := seed_regions remove_small_objects label regionprops bw hole_min in
  let z := Z.to_nat (mid_frame mod Z.of_nat d) in
  let c0 := if bg_seed then 1%Z else 0%Z in
  let offs := map (seed_offset z h w) stat in
  exists seed,
    get_3dseed_from_mid_frame remove_small_objects label regionprops bw
      [d; h; w] mid_frame hole_min bg_seed = Ok seed
    /\ shape seed = [d; h; w]
    /\ length (data seed) = d * (h * w)
    /\ (forall p,
          nth p (data seed) 0%Q
          = match seed_id_at offs c0 p with
            | Some i => inject_Z i
            | None => if bg_seed && (p <? h * w) then 1%Q else 0%Q
            end)
    /\ (bg_seed = true -> z <> 0 ->
        forall p, p < h * w -> nth p (data seed) 0%Q = 1%Q)
    /\ (forall k r,
          nth_error stat k = Some r ->
          z * (h * w) <= seed_offset z h w r < S z * (h * w)
          /\ (~ In (seed_offset z h w r) (skipn (S k) offs) ->
              nth (seed_offset z h w r) (data seed) 0%Q
              = inject_Z (c0 + Z.of_nat k + 1))).
Proof.
  intros Hm Hstat stat z c0 offs.
  assert (Hd : d <> 0) by lia.
  assert (Hstart : exists seed0,
    (if bg_seed
     then seed <- fill_plane0 (full [d; h; w] 0%Q) 1%Q ;; Ok (seed, (0 + 1)%Z)
     else Ok (full [d; h; w] 0%Q, 0%Z)) = Ok (seed0, c0)
    /\ shape seed0 = [d; h; w]
    /\ length (data seed0) = d * (h * w)
    /\ forall p, nth p (data seed0) 0%Q
                 = if bg_seed && (p <? h * w) then 1%Q else 0%Q).
  { unfold c0. destruct bg_seed.
    - destruct (@fill_plane0_ok d h w Hd) as [s0 [E [Hs [Hl Hn]]]].
      exists s0. rewrite E. cbn [bind andb]. auto.
    - exists (full [d; h; w] 0%Q). cbn [andb full shape data].
      repeat split; auto.
      + rewrite repeat_length. simpl. lia.
      + intros p. apply nth_zeros. }
  destruct Hstart as [seed0 [E0 [Hs0 [Hl0 Hn0]]]].
  destruct (@place_seeds_ok d h w mid_frame Hm stat Hstat seed0 c0 Hs0 Hl0)
    as [seed [Ep [Hs [Hl Hn]]]].
  fold z in Hn. fold offs in Hn.
  assert (Hall : forall p,
            nth p (data seed) 0%Q
            = match seed_id_at offs c0 p with
              | Some i => inject_Z i
              | None => if bg_seed && (p <? h * w) then 1%Q else 0%Q
              end).
  { intros p. rewrite Hn, Hn0. reflexivity. }
  exists seed. split.
  { unfold get_3dseed_from_mid_frame. fold (seed_regions
      remove_small_objects label regionprops bw hole_min). fold stat.
    rewrite E0. cbn [bind fst snd]. exact Ep. }
  repeat split; auto.
  - intros Hbg Hz p Hp. rewrite Hall, Hbg.
    rewrite seed_id_at_not_In.
    + apply Nat.ltb_lt in Hp. now rewrite Hp.
    + unfold offs. intros Hin. apply in_map_iff in Hin.
      destruct Hin as [r [Er Hr]]. rewrite Forall_forall in Hstat.
      pose proof (@seed_offset_plane d h w mid_frame r (Hstat r Hr)) as Ho.
      fold z in Ho. rewrite Er in Ho. nia.
  - apply (@seed_offset_plane d h w mid_frame r).
    rewrite Forall_forall in Hstat. apply Hstat.
    eapply nth_error_In; eauto.
  - apply (@seed_offset_plane d h w mid_frame r).
    rewrite Forall_forall in Hstat. apply Hstat.
    eapply nth_error_In; eauto.
  - intros Hlast. rewrite Hall.
    rewrite (@seed_id_at_last offs c0 k (seed_offset z h w r)); auto.
    unfold offs. now apply map_nth_error.
Qed.

Lemma seed_volume_layout_witness :
  exists seed,
    get_3dseed_from_mid_frame remove_small flood_label region_means dot2x2
      [2; 2; 2] 1 1 true = Ok seed
    /\ nth 0 (data seed) 0%Q = 1%Q
    /\ nth 4 (data seed) 0%Q = 2%Q.
Proof.
  destruct (@seed_volume_layout Z _ remove_small flood_label region_means
              dot2x2 2 2 2 1 1 true) as [seed [E [_ [_ [Hn _]]]]].
  - lia.
  - vm_compute. repeat constructor.
  - exists seed. split; [exact E|]. split; rewrite Hn; reflexivity.
Defined.

(** The claim C6 as it is written fails when [mid_frame] is the plane 0: the
    seed of the region replaces the background id there. *)
Lemma seed_plane0_overwritten :
  exists seed,
    get_3dseed_from_mid_frame remove_small flood_label region_means dot2x2
      [1; 2; 2] 0 1 true = Ok seed
    /\ nth 0 (data seed) 0%Q = 2%Q
    /\ ~ (forall p, p < 2 * 2 -> nth p (data seed) 0%Q = 1%Q).
Proof.
  eexists. split; [vm_compute; reflexivity|]. split; [reflexivity|].
  intros Hall. specialize (Hall 0 ltac:(lia)). discriminate Hall.
Qed.

(** Two regions around the same centre: the id 2 of the ring is replaced by
    the id 3 of the dot, and no voxel holds 2. *)
Lemma seed_same_centroid :
  exists seed,
    get_3dseed_from_mid_frame remove_small flood_label region_means
      ring_and_dot [2; 5; 5] 1 1 true = Ok seed
    /\ nth (25 + 12) (data seed) 0%Q = 3%Q
    /\ ~ In 2%Q (data seed).
Proof.
  eexists. split; [vm_compute; reflexivity|]. split; [reflexivity|].
  cbn [data]. intros Hin. repeat (destruct Hin as [Hin|Hin]; [discriminate|]).
  exact Hin.
Qed.

(** ** divide_nonzero *)






(** C10, where the code departs from it.  With an integer second argument
    the copy is an integer array, the assignment of [1e-10] stores 0, and
    the quotient at a zero of [array2] is taken over 0: here 1 / 0 = [inf]
    and not 1 / 1e-10.  The call still returns and the arrays of the caller
    are as before. *)
Theorem divide_nonzero_int_denominator :
  exists hp' res,
    divide_nonzero int_zero_heap 0 1 = Ok (hp', res)
    /\ nth_error hp' 0 = nth_error int_zero_heap 0
    /\ nth_error hp' 1 = nth_error int_zero_heap 1
    /\ nth_error hp' 2
       = Some (mk_array Int64 (mk_ndarray [2] [inject_Z 0; 3%Q]))
    /\ nth 0 (data res) NaN = PosInf
    /\ nth 0 (data res) NaN <> Finite (1 / tiny).
Proof.
  eexists. eexists. split; [vm_compute; reflexivity|].
  repeat split; discriminate.
Qed.

(* ===================================================================== *)
(** * Part III: further properties of the module                           *)
(* ===================================================================== *)

(** ** hole_filling *)

Lemma gt0_slice_of {A} `{Scalar A} (bw : ndarray A) (zz : nat) :
  gt0 (slice_of bw zz) = slice_of (gt0 bw) zz.
Proof.
  unfold gt0, map_nd, slice_of, slice_data. cbn [shape data].
  now rewrite skipn_map, firstn_map.
Qed.

Lemma gt0_wf {A} `{Scalar A} (bw : ndarray A) : wf bw -> wf (gt0 bw).
Proof. unfold wf. simpl. now rewrite length_map. Qed.

(** X1. On a 3D input filled as a whole ([fill_2d] false) a background
    voxel is filled exactly when the number of voxels of its connected
    component of the inverted mask, with the 6 face neighbours of a voxel,
    lies between [hole_min] and [hole_max], both included. *)
Theorem hole_filling_3d_fills_by_size {A} `{Scalar A}
        (label : ndarray bool -> nat -> ndarray nat) (bw : ndarray A)
        (hole_min hole_max : Z) :
  label_contract label -> ndim bw = 3 ->
  exists out,
    hole_filling label bw hole_min hole_max false = mk_call [] (RetVal out)
    /\ forall p comp,
        p < length (data bw) ->
        nth p (data (gt0 bw)) false = false ->
        NoDup comp ->
        (forall q, In q comp <-> connected 1 (invert (gt0 bw)) p q) ->
        (nth p (data out) false = true
         <-> (hole_min <= Z.of_nat (length comp) <= hole_max)%Z).
Proof.
  intros Hl Hd. eexists. split; [apply hole_filling_whole; auto|].
  intros p comp Hp Hbg Hnd Hcomp. cbn [data].
  assert (Hp' : p < length (data (gt0 bw)))
    by (simpl; now rewrite length_map).
  rewrite zip_orb_nth, Hbg by now rewrite (component_fill_length Hl).
  cbn [orb]. now apply component_fill_background.
Qed.

Lemma hole_filling_3d_fills_by_size_witness :
  exists out,
    hole_filling flood_label shell3x3x3 1 1 false = mk_call [] (RetVal out)
    /\ nth 13 (data out) false = true.
Proof.
  destruct (@hole_filling_3d_fills_by_size Z _ flood_label shell3x3x3 1 1
              flood_label_ok) as [out [E Hfill]].
  - reflexivity.
  - exists out. split; [exact E|].
    destruct (@flood_component 1 (invert (gt0 shell3x3x3)) 13) as [Hnd Hcomp];
      [reflexivity|].
    apply (Hfill 13 (flood 1 (invert (gt0 shell3x3x3)) 13)); auto.
    + simpl. lia.
    + replace (length (flood 1 (invert (gt0 shell3x3x3)) 13)) with 1
        by (vm_compute; reflexivity).
      lia.
Defined.

(** The data of the slice-wise result, at the voxel [j] of the slice
    [zz]. *)
Lemma slicewise_fill_nth (label : ndarray bool -> nat -> ndarray nat)
      (m : ndarray bool) (d : nat) (rest : list nat) hole_min hole_max zz j :
  label_contract label -> shape m = d :: rest -> wf m ->
  zz < d -> j < prod_shape rest ->
  nth (zz * prod_shape rest + j)
      (concat (map (slice_fill label m hole_min hole_max) (seq 0 d))) false
  = nth j (component_fill label (slice_of m zz) hole_min hole_max) false.
Proof.
  intros Hl Hs Hw Hz Hj.
  rewrite <- (slice_data_nth _ false zz Hj).
  rewrite slice_data_chunks with (n := d); auto.
  intros z Hz'. now apply (@slice_fill_length _ Hl m _ _ d rest).
Qed.

(** X2. On a 3D input filled slice by slice ([fill_2d] true) a background
    voxel is filled exactly when the number of pixels of its connected
    component of the inverted slice, with the 4 edge neighbours of a pixel
    inside the slice, lies between [hole_min] and [hole_max]: the slices
    above and below play no part. *)
Theorem hole_filling_slicewise_fills_by_size {A} `{Scalar A}
        (label : ndarray bool -> nat -> ndarray nat) (bw : ndarray A)
        (d : nat) (rest : list nat) (hole_min hole_max : Z) :
  label_contract label -> shape bw = d :: rest -> ndim bw = 3 -> wf bw ->
  exists out,
    hole_filling label bw hole_min hole_max true = mk_call [] (RetVal out)
    /\ forall zz j comp,
        zz < d -> j < prod_shape rest ->
        nth (zz * prod_shape rest + j) (data (gt0 bw)) false = false ->
        NoDup comp ->
        (forall q, In q comp
                   <-> connected 1 (invert (slice_of (gt0 bw) zz)) j q) ->
        (nth (zz * prod_shape rest + j) (data out) false = true
         <-> (hole_min <= Z.of_nat (length comp) <= hole_max)%Z).
Proof.
  intros Hl Hs Hd Hw. eexists. split; [apply hole_filling_slices; auto|].
  intros zz j comp Hz Hj Hbg Hnd Hcomp. cbn [data].
  assert (Hw0 : wf (gt0 bw)) by now apply gt0_wf.
  assert (Hs0 : shape (gt0 bw) = d :: rest) by exact Hs.
  assert (Hlen : length (data (gt0 bw)) = d * prod_shape rest).
  { unfold wf in Hw0. rewrite Hw0, Hs0. reflexivity. }
  rewrite Hs. cbn [hd].
  rewrite zip_orb_nth, Hbg.
  2: { rewrite concat_chunks_length with (r := prod_shape rest); [exact Hlen|].
       intros z Hz'.
       apply (@slice_fill_length _ Hl (gt0 bw) _ _ d rest); auto; lia. }
  cbn [orb]. rewrite (@slicewise_fill_nth label (gt0 bw) d rest); auto.
  assert (Hsl : length (data (slice_of (gt0 bw) zz)) = prod_shape rest).
  { unfold slice_of. cbn [data]. rewrite Hs0. cbn [tl].
    now apply slice_data_length with d. }
  apply component_fill_background; auto.
  - now rewrite Hsl.
  - unfold slice_of. cbn [data]. rewrite Hs0. cbn [tl].
    now rewrite slice_data_nth.
Qed.

Lemma hole_filling_slicewise_fills_by_size_witness :
  exists out,
    hole_filling flood_label stack2x3x3 1 1 true = mk_call [] (RetVal out)
    /\ nth 4 (data out) false = true.
Proof.
  destruct (@hole_filling_slicewise_fills_by_size Z _ flood_label stack2x3x3
              2 [3; 3] 1 1 flood_label_ok) as [out [E Hfill]].
  - reflexivity.
  - reflexivity.
  - reflexivity.
  - exists out. split; [exact E|].
    destruct (@flood_component 1 (invert (slice_of (gt0 stack2x3x3) 0)) 4)
      as [Hnd Hcomp]; [reflexivity|].
    apply (Hfill 0 4 (flood 1 (invert (slice_of (gt0 stack2x3x3) 0)) 4));
      auto.
    + simpl. lia.
    + replace (length (flood 1 (invert (slice_of (gt0 stack2x3x3) 0)) 4))
        with 1 by (vm_compute; reflexivity).
      lia.
Defined.

(** X3. Filling a 3D input slice by slice is filling every slice as a 2D
    image: the slice [zz] of the result is what [hole_filling] returns for
    the slice [zz] of the input, with the same bounds. *)
Theorem hole_filling_slicewise_is_2d {A} `{Scalar A}
        (label : ndarray bool -> nat -> ndarray nat) (bw : ndarray A)
        (d : nat) (rest : list nat) (hole_min hole_max : Z) (fill_2d : bool) :
  label_contract label -> shape bw = d :: rest -> ndim bw = 3 -> wf bw ->
  exists out,
    hole_filling label bw hole_min hole_max true = mk_call [] (RetVal out)
    /\ forall zz, zz < d ->
         hole_filling label (slice_of bw zz) hole_min hole_max fill_2d
         = mk_call [] (RetVal (slice_of out zz)).
Proof.
  intros Hl Hs Hd Hw. eexists. split; [apply hole_filling_slices; auto|].
  intros zz Hz.
  assert (Hw0 : wf (gt0 bw)) by now apply gt0_wf.
  assert (Hs0 : shape (gt0 bw) = d :: rest) by exact Hs.
  rewrite hole_filling_whole; auto.
  2: { left. unfold ndim, slice_of. cbn [shape]. rewrite Hs. cbn [tl].
       unfold ndim in Hd. rewrite Hs in Hd. simpl in Hd. lia. }
  rewrite gt0_slice_of. f_equal. f_equal.
  pose proof (@slicewise_slice _ Hl (gt0 bw) d rest Hs0 Hw0
                hole_min hole_max zz Hz) as E.
  rewrite Hs. cbn [hd]. change (shape (gt0 bw)) with (shape bw) in E.
  rewrite Hs in E. rewrite E. reflexivity.
Qed.

Lemma hole_filling_slicewise_is_2d_witness :
  exists out,
    hole_filling flood_label stack2x3x3 1 9 true = mk_call [] (RetVal out)
    /\ forall zz, zz < 2 ->
         hole_filling flood_label (slice_of stack2x3x3 zz) 1 9 false
         = mk_call [] (RetVal (slice_of out zz)).
Proof.
  apply (@hole_filling_slicewise_is_2d Z _ flood_label stack2x3x3 2 [3; 3]
           1 9 false flood_label_ok); reflexivity.
Defined.

(** *** The result of [hole_filling], voxel by voxel *)

Lemma fill_unit_ok (bw : ndarray bool) (fill_2d : bool) (p : nat) :
  wf bw -> p < length (data bw) ->
  snd (fill_unit bw fill_2d p) < length (data (fst (fill_unit bw fill_2d p)))
  /\ length (data (fst (fill_unit bw fill_2d p))) <= length (data bw)
  /\ nth (snd (fill_unit bw fill_2d p))
         (data (fst (fill_unit bw fill_2d p))) false
     = nth p (data bw) false.
Proof.
  intros Hw Hp. unfold fill_unit.
  destruct ((ndim bw =? 3) && fill_2d) eqn:E; cbn [fst snd]; [|auto].
  apply andb_true_iff in E as [Hd _]. apply Nat.eqb_eq in Hd.
  unfold ndim in Hd. destruct (shape bw) as [|d rest] eqn:Hs; [discriminate|].
  cbn [tl]. set (r := prod_shape rest).
  assert (Hlen : length (data bw) = d * r).
  { unfold wf in Hw. rewrite Hw, Hs. reflexivity. }
  assert (Hr : r <> 0) by nia.
  assert (Hz : p / r < d) by (apply Nat.Div0.div_lt_upper_bound; nia).
  assert (Hj : p mod r < r) by now apply Nat.mod_upper_bound.
  assert (Hsl : length (data (slice_of bw (p / r))) = r).
  { unfold slice_of. cbn [data]. rewrite Hs. cbn [tl]. fold r.
    now apply slice_data_length with d. }
  rewrite Hsl. repeat split; [assumption|nia|].
  unfold slice_of. cbn [data]. rewrite Hs. cbn [tl]. fold r.
  rewrite slice_data_nth by assumption. f_equal.
  rewrite (Nat.div_mod_eq p r) at 3. lia.
Qed.

Lemma hole_filling_pointwise {A} `{Scalar A}
      (label : ndarray bool -> nat -> ndarray nat) (bw : ndarray A)
      (hole_min hole_max : Z) (fill_2d : bool) :
  label_contract label -> wf bw -> ndim bw = 2 \/ ndim bw = 3 ->
  exists out,
    hole_filling label bw hole_min hole_max fill_2d = mk_call [] (RetVal out)
    /\ shape out = shape bw
    /\ length (data out) = length (data bw)
    /\ forall p, p < length (data bw) ->
         nth p (data out) false
         = nth p (data (gt0 bw)) false
           || nth (snd (fill_unit (gt0 bw) fill_2d p))
                  (component_fill label (fst (fill_unit (gt0 bw) fill_2d p))
                                  hole_min hole_max) false.
Proof.
  intros Hl Hw Hd.
  assert (Hlen : length (data (gt0 bw)) = length (data bw))
    by (simpl; apply length_map).
  assert (Hwhole : ndim bw = 2 \/ ndim bw = 3 /\ fill_2d = false ->
    exists out,
      hole_filling label bw hole_min hole_max fill_2d = mk_call [] (RetVal out)
      /\ shape out = shape bw
      /\ length (data out) = length (data bw)
      /\ forall p, p < length (data bw) ->
           nth p (data out) false
           = nth p (data (gt0 bw)) false
             || nth (snd (fill_unit (gt0 bw) fill_2d p))
                    (component_fill label (fst (fill_unit (gt0 bw) fill_2d p))
                                    hole_min hole_max) false).
  { intros Hb. eexists. split; [apply hole_filling_whole; auto|].
    cbn [shape data].
    assert (Hcf : length (data (gt0 bw))
                  = length (component_fill label (gt0 bw) hole_min hole_max))
      by now rewrite (component_fill_length Hl).
    split; [reflexivity|]. split; [rewrite zip_with_length; auto|].
    intros p Hp. rewrite zip_orb_nth by assumption.
    unfold fill_unit. change (ndim (gt0 bw)) with (ndim bw).
    destruct Hb as [Hb|[Hb ->]]; rewrite Hb; reflexivity. }
  destruct fill_2d; [|apply Hwhole; destruct Hd; auto].
  destruct Hd as [Hd|Hd]; [apply Hwhole; auto|].
  eexists. split; [apply hole_filling_slices; auto|].
  cbn [shape data]. split; [reflexivity|].
  pose proof Hd as Hd'. unfold ndim in Hd'.
  destruct (shape bw) as [|d rest] eqn:Hs; [discriminate|].
  cbn [hd].
  assert (Hw' : wf (gt0 bw)) by now apply gt0_wf.
  assert (Hs' : shape (gt0 bw) = d :: rest) by exact Hs.
  set (r := prod_shape rest).
  assert (Hdr : length (data (gt0 bw)) = d * r).
  { unfold wf in Hw'. rewrite Hw', Hs'. reflexivity. }
  assert (Hcf : length (data (gt0 bw))
                = length (concat (map (slice_fill label (gt0 bw)
                                         hole_min hole_max) (seq 0 d)))).
  { rewrite concat_chunks_length with (r := r); [exact Hdr|].
    intros z Hz.
    apply (@slice_fill_length _ Hl (gt0 bw) _ _ d rest); auto; lia. }
  split; [rewrite zip_with_length; auto|].
  intros p Hp. rewrite zip_orb_nth by assumption. f_equal.
  unfold fill_unit. change (ndim (gt0 bw)) with (ndim bw).
  rewrite Hd, Hs'. cbn [Nat.eqb andb tl fst snd]. fold r.
  assert (Hr : r <> 0) by nia.
  assert (Hz : p / r < d) by (apply Nat.Div0.div_lt_upper_bound; nia).
  assert (Hj : p mod r < r) by now apply Nat.mod_upper_bound.
  rewrite <- (@slicewise_fill_nth label (gt0 bw) d rest); auto.
  f_equal. fold r. rewrite (Nat.div_mod_eq p r) at 1. lia.
Qed.

Lemma kept_mono labels hole_min hole_max hole_min' hole_max' l :
  (hole_min' <= hole_min)%Z -> (hole_max <= hole_max')%Z ->
  (0 <? kept labels hole_min hole_max l) = true ->
  (0 <? kept labels hole_min' hole_max' l) = true.
Proof.
  intros H1 H2. unfold kept.
  destruct (Z.ltb_spec (Z.of_nat (count_occ Nat.eq_dec labels l)) hole_min);
    [discriminate|].
  destruct (Z.ltb_spec hole_max (Z.of_nat (count_occ Nat.eq_dec labels l)));
    [discriminate|].
  destruct (Z.ltb_spec (Z.of_nat (count_occ Nat.eq_dec labels l)) hole_min');
    [lia|].
  destruct (Z.ltb_spec hole_max' (Z.of_nat (count_occ Nat.eq_dec labels l)));
    [lia|auto].
Qed.

Lemma component_fill_mono (label : ndarray bool -> nat -> ndarray nat)
      (m : ndarray bool) hole_min hole_max hole_min' hole_max' j :
  (hole_min' <= hole_min)%Z -> (hole_max <= hole_max')%Z ->
  nth j (component_fill label m hole_min hole_max) false = true ->
  nth j (component_fill label m hole_min' hole_max') false = true.
Proof.
  intros H1 H2. unfold component_fill.
  destruct (Nat.lt_ge_cases j (length (data (label (invert m) 1))))
    as [Hj|Hj].
  - rewrite !(map_nth_lt _ _ 0 false) by assumption. now apply kept_mono.
  - rewrite nth_overflow by (now rewrite length_map). discriminate.
Qed.

Lemma component_fill_empty (label : ndarray bool -> nat -> ndarray nat)
      (m : ndarray bool) hole_min hole_max j :
  (hole_max < hole_min)%Z \/ (hole_max < 1)%Z ->
  nth j (component_fill label m hole_min hole_max) false = false.
Proof.
  intros Hb. unfold component_fill.
  set (labels := data (label (invert m) 1)).
  destruct (Nat.lt_ge_cases j (length labels)) as [Hj|Hj].
  2: { apply nth_overflow. now rewrite length_map. }
  rewrite (map_nth_lt _ _ 0 false) by assumption.
  set (l := nth j labels 0).
  assert (Hin : In l labels) by now apply nth_In.
  apply (count_occ_In Nat.eq_dec) in Hin.
  unfold kept.
  destruct (Z.ltb_spec (Z.of_nat (count_occ Nat.eq_dec labels l)) hole_min);
    [reflexivity|].
  destruct (Z.ltb_spec hole_max (Z.of_nat (count_occ Nat.eq_dec labels l)));
    [reflexivity|].
  lia.
Qed.

Lemma component_fill_full (label : ndarray bool -> nat -> ndarray nat)
      (m : ndarray bool) hole_min hole_max j :
  label_contract label ->
  (hole_min <= 1)%Z -> (Z.of_nat (length (data m)) <= hole_max)%Z ->
  j < length (data m) -> nth j (data m) false = false ->
  nth j (component_fill label m hole_min hole_max) false = true.
Proof.
  intros Hl H1 H2 Hj Hbg.
  rewrite (component_fill_nth Hl) by assumption.
  set (labels := data (label (invert m) 1)).
  assert (Hll : length labels = length (data m)).
  { unfold labels. rewrite (label_length Hl). simpl. apply length_map. }
  apply kept_positive.
  - intros E. apply (label_zero Hl) in E.
    + rewrite (invert_nth m) in E by assumption. rewrite Hbg in E.
      discriminate.
    + simpl. now rewrite length_map.
  - set (l := nth j labels 0).
    assert (Hin : In l labels) by (apply nth_In; lia).
    apply (count_occ_In Nat.eq_dec) in Hin.
    pose proof (count_occ_bound Nat.eq_dec l labels). lia.
Qed.

(** X4. Widening the window [[hole_min, hole_max]] never takes a voxel out
    of the result: whatever [hole_filling] returns as foreground for the
    bounds [hole_min], [hole_max] is foreground for every [hole_min'] not
    above [hole_min] and [hole_max'] not below [hole_max]. *)
Theorem hole_filling_window_monotone {A} `{Scalar A}
        (label : ndarray bool -> nat -> ndarray nat) (bw : ndarray A)
        (hole_min hole_max hole_min' hole_max' : Z) (fill_2d : bool) :
  label_contract label -> wf bw -> ndim bw = 2 \/ ndim bw = 3 ->
  (hole_min' <= hole_min)%Z -> (hole_max <= hole_max')%Z ->
  exists out out',
    hole_filling label bw hole_min hole_max fill_2d = mk_call [] (RetVal out)
    /\ hole_filling label bw hole_min' hole_max' fill_2d
       = mk_call [] (RetVal out')
    /\ forall p, nth p (data out) false = true ->
                 nth p (data out') false = true.
Proof.
  intros Hl Hw Hd H1 H2.
  destruct (@hole_filling_pointwise A _ label bw hole_min hole_max fill_2d
              Hl Hw Hd) as [out [E [_ [Hlo Hn]]]].
  destruct (@hole_filling_pointwise A _ label bw hole_min' hole_max' fill_2d
              Hl Hw Hd) as [out' [E' [_ [_ Hn']]]].
  exists out, out'. repeat split; auto.
  intros p Hp.
  destruct (Nat.lt_ge_cases p (length (data bw))) as [Hlt|Hge].
  - rewrite Hn in Hp by assumption. rewrite Hn' by assumption.
    apply orb_true_iff in Hp as [Hp|Hp]; [now rewrite Hp|].
    apply orb_true_iff. right.
    now apply component_fill_mono with hole_min hole_max.
  - rewrite nth_overflow in Hp by lia. discriminate.
Qed.

Lemma hole_filling_window_monotone_witness :
  exists out out',
    hole_filling flood_label ring3x3 1 1 true = mk_call [] (RetVal out)
    /\ hole_filling flood_label ring3x3 0 9 true = mk_call [] (RetVal out')
    /\ forall p, nth p (data out) false = true ->
                 nth p (data out') false = true.
Proof.
  apply (@hole_filling_window_monotone Z _ flood_label ring3x3 1 1 0 9 true
           flood_label_ok).
  - reflexivity.
  - left. reflexivity.
  - lia.
  - lia.
Defined.

(** X5. With an empty window nothing is filled: for [hole_max] below
    [hole_min], or below 1, [hole_filling] returns [bw > 0] itself. *)
Theorem hole_filling_empty_window {A} `{Scalar A}
        (label : ndarray bool -> nat -> ndarray nat) (bw : ndarray A)
        (hole_min hole_max : Z) (fill_2d : bool) :
  label_contract label -> wf bw -> ndim bw = 2 \/ ndim bw = 3 ->
  (hole_max < hole_min)%Z \/ (hole_max < 1)%Z ->
  hole_filling label bw hole_min hole_max fill_2d
  = mk_call [] (RetVal (gt0 bw)).
Proof.
  intros Hl Hw Hd Hb.
  destruct (@hole_filling_pointwise A _ label bw hole_min hole_max fill_2d
              Hl Hw Hd) as [out [E [Hs [Hlo Hn]]]].
  rewrite E. f_equal. f_equal.
  destruct out as [sh dt]. cbn [shape data] in *. unfold gt0, map_nd.
  rewrite Hs. f_equal.
  apply nth_ext_bool; [now rewrite length_map|].
  intros p Hp. rewrite Hn by lia.
  rewrite component_fill_empty by assumption. apply orb_false_r.
Qed.

Lemma hole_filling_empty_window_witness :
  hole_filling flood_label ring3x3 2 1 true
  = mk_call [] (RetVal (gt0 ring3x3)).
Proof.
  apply (@hole_filling_empty_window Z _ flood_label ring3x3 2 1 true
           flood_label_ok).
  - reflexivity.
  - left. reflexivity.
  - left. lia.
Defined.

(** X6. The background is a hole like any other: with [hole_min] at most 1
    and [hole_max] at least the number of voxels, every component of the
    background passes the size filter, the one around the objects
    included, and [hole_filling] returns an array that is true
    everywhere. *)
Theorem hole_filling_fills_everything {A} `{Scalar A}
        (label : ndarray bool -> nat -> ndarray nat) (bw : ndarray A)
        (hole_min hole_max : Z) (fill_2d : bool) :
  label_contract label -> wf bw -> ndim bw = 2 \/ ndim bw = 3 ->
  (hole_min <= 1)%Z -> (Z.of_nat (length (data bw)) <= hole_max)%Z ->
  hole_filling label bw hole_min hole_max fill_2d
  = mk_call [] (RetVal (full (shape bw) true)).
Proof.
  intros Hl Hw Hd H1 H2.
  destruct (@hole_filling_pointwise A _ label bw hole_min hole_max fill_2d
              Hl Hw Hd) as [out [E [Hs [Hlo Hn]]]].
  rewrite E. f_equal. f_equal.
  destruct out as [sh dt]. cbn [shape data] in *. unfold full.
  rewrite Hs. f_equal.
  assert (Hlr : length dt = length (repeat true (prod_shape (shape bw)))).
  { rewrite repeat_length, Hlo. exact Hw. }
  apply nth_ext_bool; [exact Hlr|].
  intros p Hp. rewrite Hn by lia.
  rewrite nth_repeat_lt by (rewrite repeat_length in Hlr; lia).
  destruct (nth p (data (gt0 bw)) false) eqn:Ebg; [reflexivity|].
  cbn [orb].
  assert (Hp0 : p < length (data (gt0 bw)))
    by (simpl; rewrite length_map; lia).
  destruct (@fill_unit_ok (gt0 bw) fill_2d p (gt0_wf Hw) Hp0)
    as [Hj [Hle Hv]].
  apply component_fill_full; auto.
  - simpl in Hle. rewrite length_map in Hle. lia.
  - now rewrite Hv.
Qed.

Lemma hole_filling_fills_everything_witness :
  hole_filling flood_label stack2x3x3 0 100 true
  = mk_call [] (RetVal (full (shape stack2x3x3) true)).
Proof.
  apply (@hole_filling_fills_everything Z _ flood_label stack2x3x3 0 100 true
           flood_label_ok).
  - reflexivity.
  - right. reflexivity.
  - lia.
  - simpl. lia.
Defined.

(** ** topology_preserving_thinning *)

Lemma two_off_zero_zero : zero_at_zeros two_off_zero.
Proof.
  intros x p Hp Hx. unfold two_off_zero. cbn [data map_nd].
  rewrite (map_nth_lt _ _ false 0%Q) by assumption. rewrite Hx. reflexivity.
Qed.

Lemma thinning_keeps_medial_axis_witness :
  exists out,
    topology_preserving_thinning keep_all two_off_zero unit_ball erode_all
      stack2x3x3 1 1 = Ok out
    /\ nth (0 * prod_shape [3; 3] + 0) (data out) false
       = nth (0 * prod_shape [3; 3] + 0) (data (gt0 stack2x3x3)) false.
Proof.
  apply (@thinning_keeps_medial_axis Z _ keep_all two_off_zero unit
           unit_ball erode_all stack2x3x3 2 [3; 3] 1 1 0 0
           keep_all_shape two_off_zero_shape erode_all_shape
           two_off_zero_zero).
  - unfold Qle. simpl. lia.
  - reflexivity.
  - reflexivity.
  - reflexivity.
  - lia.
  - simpl. lia.
  - reflexivity.
Defined.

(** X8. The thinning only removes, and only where the erosion does: on a
    3D input it returns an array of the shape of [bw] whose foreground lies
    in that of [bw > 0], and a voxel that [erosion(bw > 0, ball(thin))]
    leaves as it is in [bw > 0] keeps its value, whatever the safe zone
    says. *)
Theorem thinning_only_removes_eroded {A} `{Scalar A}
        (medial_axis : ndarray bool -> ndarray bool)
        (distance_transform_edt : ndarray bool -> ndarray Q)
        (footprint : Type) (ball : Z -> footprint)
        (erosion : ndarray bool -> footprint -> ndarray bool)
        (bw : ndarray A) (min_thickness : Q) (thin : Z) :
  shape_preserving medial_axis ->
  shape_preserving distance_transform_edt ->
  (forall fp, shape_preserving (fun x => erosion x fp)) ->
  ndim bw = 3 -> wf bw ->
  exists out,
    topology_preserving_thinning medial_axis distance_transform_edt
      ball erosion bw min_thickness thin = Ok out
    /\ shape out = shape bw
    /\ (forall p, nth p (data out) false = true ->
                  nth p (data (gt0 bw)) false = true)
    /\ (forall p, nth p (data (erosion (gt0 bw) (ball thin))) false
                  = nth p (data (gt0 bw)) false ->
                  nth p (data out) false = nth p (data (gt0 bw)) false).
Proof.
  intros Hma Hedt Her Hd Hw.
  pose proof Hd as Hd'. unfold ndim in Hd'.
  destruct (shape bw) as [|d rest] eqn:Hs; [discriminate|].
  destruct (@thinning_unfold A _ medial_axis distance_transform_edt
              footprint ball erosion bw d rest min_thickness thin
              Hma Hedt Her Hs Hd Hw)
    as [out [Eout [Hso [Hlo Hn]]]].
  assert (Hl0 : length (data (gt0 bw)) = length (data bw))
    by (simpl; apply length_map).
  exists out. split; [exact Eout|]. split; [congruence|]. split.
  - intros p Hp.
    destruct (Nat.lt_ge_cases p (length (data bw))) as [Hlt|Hge].
    + rewrite Hn in Hp by assumption.
      destruct (_ && _) in Hp; [discriminate|exact Hp].
    + rewrite nth_overflow in Hp by lia. discriminate.
  - intros p Hp.
    destruct (Nat.lt_ge_cases p (length (data bw))) as [Hlt|Hge].
    + rewrite Hn by assumption. rewrite Hp, xorb_nilpotent, andb_false_r.
      reflexivity.
    + rewrite !nth_overflow by lia. reflexivity.
Qed.

Lemma thinning_only_removes_eroded_witness :
  exists out,
    topology_preserving_thinning keep_all two_off_zero unit_ball erode_all
      stack2x3x3 1 1 = Ok out
    /\ shape out = shape stack2x3x3
    /\ (forall p, nth p (data out) false = true ->
                  nth p (data (gt0 stack2x3x3)) false = true)
    /\ (forall p, nth p (data (erode_all (gt0 stack2x3x3) (unit_ball 1))) false
                  = nth p (data (gt0 stack2x3x3)) false ->
                  nth p (data out) false
                  = nth p (data (gt0 stack2x3x3)) false).
Proof.
  apply (@thinning_only_removes_eroded Z _ keep_all two_off_zero unit
           unit_ball erode_all stack2x3x3 1 1
           keep_all_shape two_off_zero_shape erode_all_shape).
  - reflexivity.
  - reflexivity.
Defined.

(** X9. The loop reads [bw[zz, :, :]]: an input with fewer than three
    axes, the first of them not empty, raises [IndexError], at
    [bw.shape[0]] when it has no axis and at the first slice otherwise,
    before [medial_axis] or [erosion] is called. *)
Theorem thinning_rejects_low_dims {A} `{Scalar A}
        (medial_axis : ndarray bool -> ndarray bool)
        (distance_transform_edt : ndarray bool -> ndarray Q)
        (footprint : Type) (ball : Z -> footprint)
        (erosion : ndarray bool -> footprint -> ndarray bool)
        (bw : ndarray A) (min_thickness : Q) (thin : Z) :
  ndim bw < 3 -> hd 1 (shape bw) <> 0 ->
  topology_preserving_thinning medial_axis distance_transform_edt
    ball erosion bw min_thickness thin = Raise IndexError.
Proof.
  intros Hd H0. unfold topology_preserving_thinning, safe_zone_of, shape0.
  change (shape (gt0 bw)) with (shape bw).
  destruct (shape bw) as [|d rest] eqn:Hs; [reflexivity|].
  cbn [hd] in H0. destruct d as [|d]; [congruence|].
  cbn [bind seq safe_zone_loop]. unfold get_plane.
  change (ndim (gt0 bw)) with (ndim bw).
  apply Nat.ltb_lt in Hd. rewrite Hd. reflexivity.
Qed.

Lemma thinning_rejects_low_dims_witness :
  topology_preserving_thinning keep_all two_off_zero unit_ball erode_all
    ring3x3 1 1 = Raise IndexError.
Proof.
  apply (@thinning_rejects_low_dims Z _ keep_all two_off_zero unit
           unit_ball erode_all ring3x3 1 1).
  - vm_compute. lia.
  - vm_compute. lia.
Defined.

(** ** divide_nonzero *)






(** ** histogram_otsu *)

(** X13. A histogram needs two bins: with a single bin the bin size
    [1 / (len(hist) - 1)] is a division by zero ([ZeroDivisionError]), and
    with no bin [argmax] is asked for the largest element of an empty array
    ([ValueError]). *)
Theorem histogram_otsu_too_few_bins (hist : list float) :
  length hist < 2 ->
  histogram_otsu hist
  = Raise (if length hist =? 0 then ValueError else ZeroDivisionError).
Proof.
  intros Hn. destruct hist as [|x [|y hist]].
  - vm_compute. reflexivity.
  - reflexivity.
  - simpl in Hn. lia.
Qed.

Lemma histogram_otsu_too_few_bins_witness :
  histogram_otsu [Finite 7] = Raise ZeroDivisionError.
Proof.
  apply (@histogram_otsu_too_few_bins [Finite 7]). simpl. lia.
Defined.

(** X14. Two bins leave one split: whatever the two counts, the threshold
    is the centre 0 of the first bin. *)
Theorem histogram_otsu_two_bins (hist : list float) :
  length hist = 2 ->
  exists threshold,
    histogram_otsu hist = Ok threshold /\ threshold = Finite 0.
Proof.
  intros Hn.
  destruct (@histogram_otsu_bin hist [Finite 0; Finite 1])
    as [variance12 [idx [_ [_ [_ [Hi E]]]]]].
  - lia.
  - rewrite Hn. vm_compute. reflexivity.
  - now rewrite Hn.
  - rewrite Hn in Hi. exists (Finite 0). split; [|reflexivity].
    rewrite E. replace idx with 0 by lia. reflexivity.
Qed.

Lemma histogram_otsu_two_bins_witness :
  exists threshold,
    histogram_otsu [Finite 5; Finite 0] = Ok threshold
    /\ threshold = Finite 0.
Proof.
  apply (@histogram_otsu_two_bins [Finite 5; Finite 0]).
  reflexivity.
Defined.

(** ** sortbyabs *)

(** X15. Where NumPy reads a list of index arrays as the tuple of its
    elements (up to NumPy 1.22), [sortbyabs] sorts along any axis, whatever
    order [argsort] gives to equal keys: for an index [axis] of an axis of
    [a], counted from the end when negative, the result has the shape of
    [a], and every lane along that axis holds the elements of the same lane
    of [a] in ascending order of their absolute values; the lanes along the
    other axes are not mixed. *)
Theorem sortbyabs_sorts_lanes (argsort : list Q -> list nat)
        (a : ndarray Q) (axis : Z) :
  sorts argsort ->
  wf a ->
  (- Z.of_nat (ndim a) <= axis < Z.of_nat (ndim a))%Z ->
  let k := norm_axis axis (ndim a) in
  let outer := prod_shape (firstn k (shape a)) in
  let len := nth k (shape a) 0 in
  let inner := prod_shape (skipn (S k) (shape a)) in
  exists out,
    sortbyabs ListAsTuple argsort a axis = Ok out
    /\ shape out = shape a
    /\ length (data out) = length (data a)
    /\ forall o i, o < outer -> i < inner ->
         Permutation (lane (data out) len inner o i)
                     (lane (data a) len inner o i)
         /\ StronglySorted (fun x y => Qabs x <= Qabs y)%Q
                           (lane (data out) len inner o i).
Proof.
  intros Hsorts Hw Ha k outer len inner.
  assert (Hk : k < ndim a) by apply (@norm_axis_mod axis (ndim a) Ha).
  assert (Hl : length (data a) = outer * len * inner).
  { unfold wf in Hw. rewrite Hw. now apply prod_shape_split. }
  eexists. split; [now apply sortbyabs_ok|]. cbn [shape data].
  split; [reflexivity|]. split; [apply sort_lanes_length|].
  intros o i Ho Hi. fold k. fold len. fold inner.
  rewrite (@sort_lanes_lane argsort Hsorts (data a) outer len inner Hl o i
             Ho Hi).
  split; [now apply sorted_lane_perm|now apply sorted_lane_sorted].
Qed.

Lemma sortbyabs_sorts_lanes_witness :
  exists out,
    sortbyabs ListAsTuple insertion_argsort grid2x3 (-2) = Ok out
    /\ data out = [-2; -1; -1; 3; 4; 2]%Q
    /\ forall o i, o < 1 -> i < 3 ->
         Permutation (lane (data out) 2 3 o i) (lane (data grid2x3) 2 3 o i)
         /\ StronglySorted (fun x y => Qabs x <= Qabs y)%Q
                           (lane (data out) 2 3 o i).
Proof.
  destruct (@sortbyabs_sorts_lanes insertion_argsort grid2x3 (-2))
    as [out [E [_ [_ Hlanes]]]].
  - apply insertion_argsort_sorts.
  - reflexivity.
  - simpl. lia.
  - exists out. split; [exact E|]. split; [|exact Hlanes].
    assert (E' : sortbyabs ListAsTuple insertion_argsort grid2x3 (-2)
                 = Ok (mk_ndarray [2; 3] [-2; -1; -1; 3; 4; 2]%Q))
      by (vm_compute; reflexivity).
    rewrite E' in E. now injection E as <-.
Defined.

(** X16. Where NumPy reads a list of index arrays as the tuple of its
    elements, sorting what is sorted moves no absolute value: [sortbyabs] of
    the result of [sortbyabs], along the same axis, has the same shape and
    at every position an element of the same absolute value.  Elements of
    one absolute value may change places, the order that [argsort] gives to
    equal keys not being fixed. *)
Theorem sortbyabs_twice (argsort : list Q -> list nat)
        (a : ndarray Q) (axis : Z) :
  sorts argsort ->
  wf a ->
  (- Z.of_nat (ndim a) <= axis < Z.of_nat (ndim a))%Z ->
  exists out out',
    sortbyabs ListAsTuple argsort a axis = Ok out
    /\ sortbyabs ListAsTuple argsort out axis = Ok out'
    /\ shape out' = shape out
    /\ length (data out') = length (data out)
    /\ forall p, (Qabs (nth p (data out') 0) == Qabs (nth p (data out) 0))%Q.
Proof.
  intros Hsorts Hw Ha.
  set (k := norm_axis axis (ndim a)).
  set (outer := prod_shape (firstn k (shape a))).
  set (len := nth k (shape a) 0).
  set (inner := prod_shape (skipn (S k) (shape a))).
  assert (Hk : k < ndim a) by apply (@norm_axis_mod axis (ndim a) Ha).
  assert (Hl : length (data a) = outer * len * inner).
  { unfold wf in Hw. rewrite Hw. now apply prod_shape_split. }
  set (s1 := sort_lanes argsort (data a) len inner).
  assert (Hl1 : length s1 = outer * len * inner)
    by (unfold s1; now rewrite sort_lanes_length).
  assert (Hw1 : wf (mk_ndarray (shape a) s1)).
  { unfold wf. cbn [shape data]. rewrite Hl1.
    symmetry. now apply prod_shape_split. }
  exists (mk_ndarray (shape a) s1),
         (mk_ndarray (shape a) (sort_lanes argsort s1 len inner)).
  split; [now apply sortbyabs_ok|].
  split; [now rewrite sortbyabs_ok by auto|].
  cbn [shape data]. split; [reflexivity|].
  split; [now rewrite !sort_lanes_length|].
  intros p.
  destruct (Nat.lt_ge_cases p (outer * len * inner)) as [Hp|Hp].
  2: { rewrite !nth_overflow by (rewrite ?sort_lanes_length; lia).
       reflexivity. }
  assert (Hlen : len <> 0) by nia. assert (Hin : inner <> 0) by nia.
  rewrite (lane_index_inv p Hlen Hin).
  set (o := p / (len * inner)). set (j := (p / inner) mod len).
  set (i := p mod inner).
  assert (Ho : o < outer).
  { unfold o. apply Nat.Div0.div_lt_upper_bound. nia. }
  assert (Hj : j < len) by (unfold j; now apply Nat.mod_upper_bound).
  assert (Hi : i < inner) by (unfold i; now apply Nat.mod_upper_bound).
  rewrite (@sort_lanes_nth argsort s1 outer len inner Hl1 o j i Ho Hj Hi).
  rewrite <- (@lane_nth s1 len inner o i j Hj).
  set (l1 := lane s1 len inner o i).
  assert (Hs1 : StronglySorted (fun x y => Qabs x <= Qabs y)%Q l1).
  { unfold l1, s1.
    rewrite (@sort_lanes_lane argsort Hsorts (data a) outer len inner Hl o i
               Ho Hi).
    now apply sorted_lane_sorted. }
  rewrite <- (sorted_lane_abs j Hsorts Hs1).
  rewrite (map_nth_lt _ _ 0 0%Q); [reflexivity|].
  rewrite (argsort_length Hsorts), length_map. unfold l1.
  now rewrite lane_length.
Qed.

Lemma sortbyabs_twice_witness :
  exists out out',
    sortbyabs ListAsTuple insertion_argsort grid2x3 1 = Ok out
    /\ sortbyabs ListAsTuple insertion_argsort out 1 = Ok out'
    /\ shape out' = shape out
    /\ length (data out') = length (data out)
    /\ forall p, (Qabs (nth p (data out') 0) == Qabs (nth p (data out) 0))%Q.
Proof.
  apply (@sortbyabs_twice insertion_argsort grid2x3 1).
  - apply insertion_argsort_sorts.
  - reflexivity.
  - simpl. lia.
Defined.

(** X27. Where NumPy reads a list of index arrays as one index array (from
    NumPy 1.23 on), [sortbyabs] sorts no array of two or more axes: when the
    axis to sort has two or more elements, the index arrays have different
    shapes and [np.array] raises [ValueError].  An array of one axis comes
    back sorted by absolute value, but as a row, with the shape [(1, n)]. *)
Theorem sortbyabs_list_as_array (argsort : list Q -> list nat)
        (a : ndarray Q) (axis : Z) :
  sorts argsort ->
  wf a ->
  (- Z.of_nat (ndim a) <= axis < Z.of_nat (ndim a))%Z ->
  (2 <= ndim a -> 2 <= nth (norm_axis axis (ndim a)) (shape a) 0 ->
   sortbyabs ListAsArray argsort a axis = Raise ValueError)
  /\ (ndim a = 1 ->
      exists out,
        sortbyabs ListAsArray argsort a axis = Ok out
        /\ shape out = 1 :: shape a
        /\ Permutation (data out) (data a)
        /\ StronglySorted (fun x y => Qabs x <= Qabs y)%Q (data out)).
Proof.
  intros Hsorts Hw Ha. split.
  - intros Hd Hn. now apply sortbyabs_array_raises.
  - intros Hd. unfold ndim in Hd.
    destruct (shape a) as [|n [|? ?]] eqn:Hs; try discriminate.
    assert (Hl : length (data a) = 1 * n * 1).
    { unfold wf in Hw. rewrite Hw, Hs. simpl. lia. }
    assert (Hlane : lane (data a) n 1 0 0 = data a).
    { rewrite (@lane_row (data a) 1 n 0) by lia.
      unfold slice_data. cbn [Nat.mul skipn]. apply firstn_all2. lia. }
    assert (Hout : lane (sort_lanes argsort (data a) n 1) n 1 0 0
                   = sort_lanes argsort (data a) n 1).
    { rewrite (@lane_row _ 1 n 0) by (rewrite ?sort_lanes_length; lia).
      unfold slice_data. cbn [Nat.mul skipn]. apply firstn_all2.
      rewrite sort_lanes_length. lia. }
    eexists. split.
    + apply (@sortbyabs_array_1d argsort a n axis Hsorts Hw Hs).
      unfold ndim in Ha. rewrite Hs in Ha. simpl in Ha. lia.
    + cbn [shape data]. split; [reflexivity|].
      rewrite <- Hout.
      rewrite (@sort_lanes_lane argsort Hsorts (data a) 1 n 1 Hl 0 0)
        by lia.
      rewrite Hlane.
      split; [now apply sorted_lane_perm|now apply sorted_lane_sorted].
Qed.

Lemma sortbyabs_list_as_array_witness :
  sortbyabs ListAsArray insertion_argsort grid2x3 (-1) = Raise ValueError.
Proof.
  destruct (@sortbyabs_list_as_array insertion_argsort grid2x3 (-1))
    as [Hraise _].
  - apply insertion_argsort_sorts.
  - reflexivity.
  - simpl. lia.
  - apply Hraise.
    + unfold ndim. simpl. lia.
    + unfold ndim. simpl. lia.
Defined.

(** ** get_3dseed_from_mid_frame *)

(** The volume before the loop over the regions. *)
Lemma seed_start (d h w : nat) (bg_seed : bool) :
  d <> 0 \/ bg_seed = false ->
  exists seed0,
    (if bg_seed
     then seed <- fill_plane0 (full [d; h; w] 0%Q) 1%Q ;; Ok (seed, (0 + 1)%Z)
     else Ok (full [d; h; w] 0%Q, 0%Z))
    = Ok (seed0, if bg_seed then 1%Z else 0%Z)
    /\ shape seed0 = [d; h; w]
    /\ length (data seed0) = d * (h * w)
    /\ forall p, nth p (data seed0) 0%Q
                 = if bg_seed && (p <? h * w) then 1%Q else 0%Q.
Proof.
  intros Hd. destruct bg_seed.
  - destruct Hd as [Hd|Hd]; [|discriminate].
    destruct (@fill_plane0_ok d h w Hd) as [s0 [E [Hs [Hl Hn]]]].
    exists s0. rewrite E. cbn [bind andb]. auto.
  - exists (full [d; h; w] 0%Q). cbn [andb full shape data].
    repeat split; auto.
    + rewrite repeat_length. simpl. lia.
    + intros p. apply nth_zeros.
Qed.

(** The volume that is returned, voxel by voxel. *)
Lemma seed_volume_data {A} `{Scalar A}
      (remove_small_objects : ndarray bool -> Z -> ndarray bool)
      (label : ndarray bool -> nat -> ndarray nat)
      (regionprops : ndarray nat -> list region)
      (bw : ndarray A) (d h w : nat) (mid_frame hole_min : Z)
      (bg_seed : bool) :
  (- Z.of_nat d <= mid_frame < Z.of_nat d)%Z ->
  Forall (fun r => centroid_in_plane h w r = true)
         (seed_regions remove_small_objects label regionprops bw hole_min) ->
  exists seed,
    get_3dseed_from_mid_frame remove_small_objects label regionprops bw
      [d; h; w] mid_frame hole_min bg_seed = Ok seed
    /\ shape seed = [d; h; w]
    /\ length (data seed) = d * (h * w)
    /\ forall p,
         nth p (data seed) 0%Q
         = match seed_id_at
                   (map (seed_offset (Z.to_nat (mid_frame mod Z.of_nat d)) h w)
                        (seed_regions remove_small_objects label regionprops
                                      bw hole_min))
                   (if bg_seed then 1%Z else 0%Z) p with
           | Some i => inject_Z i
           | None => if bg_seed && (p <? h * w) then 1%Q else 0%Q
           end.
Proof.
  intros Hm Hstat.
  set (stat := seed_regions remove_small_objects label regionprops bw
                            hole_min) in *.
  destruct (@seed_start d h w bg_seed) as [seed0 [E0 [Hs0 [Hl0 Hn0]]]];
    [left; lia|].
  destruct (@place_seeds_ok d h w mid_frame Hm stat Hstat seed0
              (if bg_seed then 1%Z else 0%Z) Hs0 Hl0)
    as [seed [Ep [Hs [Hl Hn]]]].
  exists seed. split.
  { unfold get_3dseed_from_mid_frame. fold (seed_regions
      remove_small_objects label regionprops bw hole_min). fold stat.
    rewrite E0. cbn [bind fst snd]. exact Ep. }
  repeat split; auto.
  intros p. rewrite Hn, Hn0. reflexivity.
Qed.

(** X17. The ids of the seed volume: every voxel holds an integer between
    0 and the number of regions (plus one with a background seed), and the
    id of the last region, the largest one, is always there, at the rounded
    centroid of that region: no later seed can replace it. *)
Theorem seed_ids_in_range {A} `{Scalar A}
        (remove_small_objects : ndarray bool -> Z -> ndarray bool)
        (label : ndarray bool -> nat -> ndarray nat)
        (regionprops : ndarray nat -> list region)
        (bw : ndarray A) (d h w : nat) (mid_frame hole_min : Z)
        (bg_seed : bool) :
  (- Z.of_nat d <= mid_frame < Z.of_nat d)%Z ->
  Forall (fun r => centroid_in_plane h w r = true)
         (seed_regions remove_small_objects label regionprops bw hole_min) ->
  let stat := seed_regions remove_small_objects label regionprops bw hole_min in
  let z := Z.to_nat (mid_frame mod Z.of_nat d) in
  let top := ((if bg_seed then 1 else 0) + Z.of_nat (length stat))%Z in
  exists seed,
    get_3dseed_from_mid_frame remove_small_objects label regionprops bw
      [d; h; w] mid_frame hole_min bg_seed = Ok seed
    /\ (forall p, exists i, nth p (data seed) 0%Q = inject_Z i
                            /\ (0 <= i <= top)%Z)
    /\ (forall r, last stat r = r -> stat <> [] ->
          nth (seed_offset z h w r) (data seed) 0%Q = inject_Z top).
Proof.
  intros Hm Hstat stat z top.
  destruct (@seed_volume_data A _ remove_small_objects label regionprops bw
              d h w mid_frame hole_min bg_seed Hm Hstat)
    as [seed [E [_ [_ Hn]]]].
  fold stat in Hn. fold z in Hn.
  exists seed. split; [exact E|]. split.
  - intros p. rewrite Hn.
    destruct (seed_id_at _ _ p) as [i|] eqn:Ei.
    + exists i. split; [reflexivity|].
      apply seed_id_at_range in Ei. rewrite length_map in Ei.
      unfold top. destruct bg_seed; lia.
    + destruct (bg_seed && (p <? h * w)) eqn:Eb.
      * exists 1%Z. split; [reflexivity|].
        apply andb_true_iff in Eb as [-> _]. unfold top. lia.
      * exists 0%Z. split; [reflexivity|]. unfold top.
        destruct bg_seed; lia.
  - intros r Hlast Hne. rewrite Hn.
    assert (Hk : nth_error stat (length stat - 1) = Some r).
    { destruct (exists_last Hne) as [st [r' Est]]. rewrite Est in *.
      rewrite last_last in Hlast. subst r'.
      rewrite length_app. cbn [length].
      rewrite nth_error_app2 by lia.
      replace (length st + 1 - 1 - length st) with 0 by lia. reflexivity. }
    rewrite (@seed_id_at_last _ _ (length stat - 1) (seed_offset z h w r)).
    + f_equal. unfold top.
      assert (length stat <> 0) by (destruct stat; simpl; congruence).
      lia.
    + now apply map_nth_error.
    + rewrite skipn_all2; [intros []|]. rewrite length_map. lia.
Qed.

Lemma seed_ids_in_range_witness :
  exists seed,
    get_3dseed_from_mid_frame remove_small flood_label region_means
      ring_and_dot [2; 5; 5] 1 1 true = Ok seed
    /\ (forall p, exists i, nth p (data seed) 0%Q = inject_Z i
                            /\ (0 <= i <= 3)%Z)
    /\ nth 37 (data seed) 0%Q = inject_Z 3.
Proof.
  destruct (@seed_ids_in_range Z _ remove_small flood_label region_means
              ring_and_dot 2 5 5 1 1 true) as [seed [E [Hr Hl]]].
  - lia.
  - vm_compute. repeat constructor.
  - exists seed. split; [exact E|]. split; [exact Hr|].
    apply (Hl (mk_region 2 [2; 2]%Q)).
    + vm_compute. reflexivity.
    + vm_compute. discriminate.
Defined.

(** X18. [mid_frame] is only looked at when a seed is written: with a
    region to seed, a [mid_frame] that is no index of the first axis of the
    stack raises [IndexError]; no volume is returned. *)
Theorem seed_mid_frame_out_of_range {A} `{Scalar A}
        (remove_small_objects : ndarray bool -> Z -> ndarray bool)
        (label : ndarray bool -> nat -> ndarray nat)
        (regionprops : ndarray nat -> list region)
        (bw : ndarray A) (d h w : nat) (mid_frame hole_min : Z)
        (bg_seed : bool) (r : region) (stat : list region) :
  seed_regions remove_small_objects label regionprops bw hole_min
  = r :: stat ->
  length (centroid r) = 2 ->
  d <> 0 ->
  (mid_frame < - Z.of_nat d \/ Z.of_nat d <= mid_frame)%Z ->
  get_3dseed_from_mid_frame remove_small_objects label regionprops bw
    [d; h; w] mid_frame hole_min bg_seed = Raise IndexError.
Proof.
  intros Hstat Hc Hd Hm.
  destruct (@seed_start d h w bg_seed) as [seed0 [E0 [Hs0 _]]]; [now left|].
  unfold get_3dseed_from_mid_frame. fold (seed_regions
    remove_small_objects label regionprops bw hole_min).
  rewrite Hstat, E0. cbn [bind fst snd place_seeds].
  destruct (centroid r) as [|cy [|cx [|? ?]]]; try discriminate.
  cbn [map]. unfold setitem3. rewrite Hs0. unfold norm_index at 1.
  replace ((mid_frame <? - Z.of_nat d)%Z || (Z.of_nat d <=? mid_frame)%Z)
    with true; [reflexivity|].
  symmetry. apply orb_true_iff.
  destruct Hm; [left; apply Z.ltb_lt|right; apply Z.leb_le]; lia.
Qed.

Lemma seed_mid_frame_out_of_range_witness :
  get_3dseed_from_mid_frame remove_small flood_label region_means dot2x2
    [2; 2; 2] 2 1 true = Raise IndexError.
Proof.
  apply (@seed_mid_frame_out_of_range Z _ remove_small flood_label
           region_means dot2x2 2 2 2 2 1 true (mk_region 1 [0; 0]%Q) []).
  - vm_compute. reflexivity.
  - reflexivity.
  - lia.
  - right. lia.
Defined.

(** X19. Without a region that survives the size filter the volume holds
    the background seed and nothing else, whatever [mid_frame] is, an index
    out of range included. *)
Theorem seed_without_regions {A} `{Scalar A}
        (remove_small_objects : ndarray bool -> Z -> ndarray bool)
        (label : ndarray bool -> nat -> ndarray nat)
        (regionprops : ndarray nat -> list region)
        (bw : ndarray A) (d h w : nat) (mid_frame hole_min : Z)
        (bg_seed : bool) :
  seed_regions remove_small_objects label regionprops bw hole_min = [] ->
  d <> 0 \/ bg_seed = false ->
  exists seed,
    get_3dseed_from_mid_frame remove_small_objects label regionprops bw
      [d; h; w] mid_frame hole_min bg_seed = Ok seed
    /\ shape seed = [d; h; w]
    /\ length (data seed) = d * (h * w)
    /\ forall p, nth p (data seed) 0%Q
                 = if bg_seed && (p <? h * w) then 1%Q else 0%Q.
Proof.
  intros Hstat Hd.
  destruct (@seed_start d h w bg_seed Hd) as [seed0 [E0 [Hs0 [Hl0 Hn0]]]].
  exists seed0. split; [|auto].
  unfold get_3dseed_from_mid_frame. fold (seed_regions
    remove_small_objects label regionprops bw hole_min).
  rewrite Hstat, E0. reflexivity.
Qed.

Lemma seed_without_regions_witness :
  exists seed,
    get_3dseed_from_mid_frame remove_small flood_label region_means dot2x2
      [2; 2; 2] 7 2 true = Ok seed
    /\ shape seed = [2; 2; 2]
    /\ length (data seed) = 2 * (2 * 2)
    /\ forall p, nth p (data seed) 0%Q
                 = if true && (p <? 2 * 2) then 1%Q else 0%Q.
Proof.
  apply (@seed_without_regions Z _ remove_small flood_label region_means
           dot2x2 2 2 2 7 2 true).
  - vm_compute. reflexivity.
  - left. lia.
Defined.

(** ** get_middle_frame *)

Lemma setitem1_ok {A} (l : list A) (i : nat) (v : A) :
  i < length l -> setitem1 l i v = Ok (firstn i l ++ [v] ++ skipn (S i) l).
Proof.
  intros Hi. unfold setitem1. apply Nat.ltb_lt in Hi. now rewrite Hi.
Qed.

Lemma get_plane_ok {A} (a : ndarray A) (d : nat) (rest : list nat) (zz : nat) :
  shape a = d :: rest -> 2 <= length rest -> zz < d ->
  get_plane a zz = Ok (slice_of a zz).
Proof.
  intros Hs Hr Hz. unfold get_plane, get_slice, ndim. rewrite Hs.
  replace (length (d :: rest) <? 3) with false
    by (symmetry; apply Nat.ltb_ge; simpl; lia).
  apply Nat.ltb_lt in Hz. rewrite Hz.
  unfold slice_of, slice_data. rewrite Hs. reflexivity.
Qed.

Lemma z_profile_loop_ok (bw : ndarray bool) (d : nat) (rest : list nat) :
  shape bw = d :: rest -> 2 <= length rest ->
  forall n k (z_profile : list nat),
    k + n = d -> length z_profile = d ->
    z_profile_loop bw (seq k n) z_profile
    = Ok (firstn k z_profile
          ++ map (fun zz => count_nonzero (slice_of bw zz)) (seq k n)).
Proof.
  intros Hs Hr. induction n as [|n IH]; intros k z_profile Hk Hl.
  - cbn [seq z_profile_loop map]. rewrite app_nil_r, firstn_all2 by lia.
    reflexivity.
  - cbn [seq z_profile_loop map].
    rewrite (@get_plane_ok _ bw d rest k Hs Hr) by lia. cbn [bind].
    rewrite setitem1_ok by lia. cbn [bind].
    rewrite IH.
    + f_equal. rewrite app_assoc, firstn_app.
      assert (Hf : length (firstn k z_profile ++ [count_nonzero (slice_of bw k)])
                   = S k)
        by (rewrite length_app, length_firstn; simpl; lia).
      rewrite firstn_all2 by lia. rewrite Hf, Nat.sub_diag, firstn_O.
      rewrite app_nil_r, <- app_assoc. reflexivity.
    + lia.
    + rewrite !length_app, length_firstn, length_skipn. simpl. lia.
Qed.

Lemma z_profile_ok (bw : ndarray bool) (d : nat) (rest : list nat) :
  shape bw = d :: rest -> 2 <= length rest ->
  z_profile_loop bw (seq 0 d) (repeat 0 d) = Ok (z_profile_of bw).
Proof.
  intros Hs Hr.
  rewrite (@z_profile_loop_ok bw d rest Hs Hr d 0);
    [|lia|apply repeat_length].
  unfold z_profile_of. rewrite Hs. reflexivity.
Qed.

(** X20. With the method ['intensity'], on a stack of at least two and at
    most [2 ^ 40] slices that [threshold_otsu] accepts, [get_middle_frame]
    counts the foreground of the
    slices, has [histogram_otsu] pick the centre [c] of a bin other than the
    last, a float in [[0, 1)], and ends as [round(c * d).astype(int)] does.
    Where [round] of a NumPy float is a Python [int], which has no
    [astype], the call raises [AttributeError] and returns no slice. *)
Theorem middle_frame_intensity
        (threshold_otsu : ndarray Q -> result Q)
        (round_astype_int : float -> result Z)
        (img : ndarray Q) (d : nat) (rest : list nat) (t : Q) :
  shape img = d :: rest -> 2 <= length rest -> 2 <= d ->
  (Z.of_nat d <= 2 ^ 40)%Z ->
  threshold_otsu img = Ok t ->
  let bw := map_nd (fun x => Qlt_bool t x) img in
  exists centers idx c,
    bin_centers_of d = Ok centers
    /\ idx < d - 1
    /\ histogram_otsu (map of_nat (z_profile_of bw)) = Ok (Finite c)
    /\ nth idx centers NaN = Finite c
    /\ (0 <= c < 1)%Q
    /\ get_middle_frame threshold_otsu round_astype_int img "intensity"
       = run_of (round_astype_int (fmul (Finite c) (of_nat d)))
    /\ (round_astype_int (fmul (Finite c) (of_nat d)) = Raise AttributeError ->
        get_middle_frame threshold_otsu round_astype_int img "intensity"
        = mk_run [] (Raises AttributeError)).
Proof.
  intros Hs Hr Hd Hd40 Ht bw.
  pose proof (centers_fit_ok Hd Hd40) as Hfit.
  assert (Hsb : shape bw = d :: rest) by exact Hs.
  set (hist := map of_nat (z_profile_of bw)).
  assert (Hlh : length hist = d).
  { unfold hist, z_profile_of. rewrite !length_map, length_seq, Hsb.
    reflexivity. }
  destruct (@centers_fit_spec d Hfit) as [centers [Ec [Hlc Hu]]].
  destruct (@histogram_otsu_bin hist centers)
    as [variance12 [idx [_ [_ [_ [Hi Eo]]]]]]; try (rewrite Hlh; assumption).
  rewrite Hlh in Hi.
  destruct (@in_unit_spec _ (Hu idx Hi)) as [c [Ecx Hc]].
  rewrite Ecx in Eo.
  assert (Eg : get_middle_frame threshold_otsu round_astype_int img "intensity"
               = run_of (round_astype_int (fmul (Finite c) (of_nat d)))).
  { unfold get_middle_frame. cbn [String.eqb Ascii.eqb Bool.eqb].
    rewrite Ht. cbn [bind]. fold bw. unfold shape0. rewrite Hsb. cbn [bind].
    rewrite (@z_profile_ok bw d rest Hsb Hr). cbn [bind]. fold hist.
    rewrite Eo. cbn [bind hd]. reflexivity. }
  exists centers, idx, c. repeat split; auto; try apply Hc.
  intros Ea. rewrite Eg, Ea. reflexivity.
Qed.

Lemma middle_frame_intensity_witness :
  get_middle_frame mid_range round_to_python_int ramp3x2x2 "intensity"
  = mk_run [] (Raises AttributeError).
Proof.
  destruct (@middle_frame_intensity mid_range round_to_python_int ramp3x2x2
              3 [2; 2] (4 # 2)%Q)
    as [centers [idx [c [_ [_ [_ [_ [_ [_ Hraise]]]]]]]]].
  - reflexivity.
  - simpl. lia.
  - lia.
  - simpl. lia.
  - vm_compute. reflexivity.
  - apply Hraise. reflexivity.
Defined.

Lemma histogram_otsu_one_bin (x : float) :
  histogram_otsu [x] = Raise ZeroDivisionError.
Proof. reflexivity. Qed.

(** X21. With the method ['intensity'] a stack of a single slice has a
    histogram of one bin, and the call ends in the [ZeroDivisionError] of
    [histogram_otsu], whatever the slice holds. *)
Theorem middle_frame_intensity_one_slice
        (threshold_otsu : ndarray Q -> result Q)
        (round_astype_int : float -> result Z)
        (img : ndarray Q) (rest : list nat) (t : Q) :
  shape img = 1 :: rest -> 2 <= length rest ->
  threshold_otsu img = Ok t ->
  get_middle_frame threshold_otsu round_astype_int img "intensity"
  = mk_run [] (Raises ZeroDivisionError).
Proof.
  intros Hs Hr Ht.
  set (bw := map_nd (fun x => Qlt_bool t x) img).
  assert (Hsb : shape bw = 1 :: rest) by exact Hs.
  unfold get_middle_frame. cbn [String.eqb Ascii.eqb Bool.eqb].
  rewrite Ht. cbn [bind]. fold bw. unfold shape0. rewrite Hsb. cbn [bind].
  rewrite (@z_profile_ok bw 1 rest Hsb Hr). cbn [bind].
  unfold z_profile_of. rewrite Hsb. cbn [hd seq map].
  rewrite histogram_otsu_one_bin. reflexivity.
Qed.

Lemma middle_frame_intensity_one_slice_witness :
  get_middle_frame mid_range round_to_python_int flat1x2x2 "intensity"
  = mk_run [] (Raises ZeroDivisionError).
Proof.
  apply (@middle_frame_intensity_one_slice mid_range round_to_python_int flat1x2x2
           [2; 2] (4 # 2)%Q).
  - reflexivity.
  - simpl. lia.
  - vm_compute. reflexivity.
Defined.

(** X22. With the method ['intensity'] the slices are read as
    [bw[zz, :, :]]: an image of one or two axes, the first not empty, that
    [threshold_otsu] accepts ends in [IndexError]. *)
Theorem middle_frame_intensity_low_dims
        (threshold_otsu : ndarray Q -> result Q)
        (round_astype_int : float -> result Z)
        (img : ndarray Q) (d : nat) (rest : list nat) (t : Q) :
  shape img = d :: rest -> length rest < 2 -> d <> 0 ->
  threshold_otsu img = Ok t ->
  get_middle_frame threshold_otsu round_astype_int img "intensity"
  = mk_run [] (Raises IndexError).
Proof.
  intros Hs Hr Hd Ht.
  set (bw := map_nd (fun x => Qlt_bool t x) img).
  assert (Hsb : shape bw = d :: rest) by exact Hs.
  unfold get_middle_frame. cbn [String.eqb Ascii.eqb Bool.eqb].
  rewrite Ht. cbn [bind]. fold bw. unfold shape0. rewrite Hsb.
  cbn [bind]. destruct d as [|d]; [congruence|].
  cbn [seq z_profile_loop]. unfold get_plane, ndim. rewrite Hsb.
  replace (length (S d :: rest) <? 3) with true
    by (symmetry; apply Nat.ltb_lt; simpl; lia).
  reflexivity.
Qed.

Lemma middle_frame_intensity_low_dims_witness :
  get_middle_frame mid_range round_to_python_int diag_3_m5 "intensity"
  = mk_run [] (Raises IndexError).
Proof.
  apply (@middle_frame_intensity_low_dims mid_range round_to_python_int diag_3_m5
           2 [2] ((-5 + 3) / 2)%Q).
  - reflexivity.
  - simpl. lia.
  - lia.
  - vm_compute. reflexivity.
Defined.

(** X23. A method other than ['intensity'] and ['z'] is not answered by an
    exception: the call prints the line "unsupported method" and ends the
    interpreter with [quit()]; nothing is returned. *)
Theorem middle_frame_unsupported_method
        (threshold_otsu : ndarray Q -> result Q)
        (round_astype_int : float -> result Z)
        (img : ndarray Q) (method : string) :
  method <> "intensity"%string -> method <> "z"%string ->
  get_middle_frame threshold_otsu round_astype_int img method
  = mk_run ["unsupported method"%string] Exits.
Proof.
  intros H1 H2. unfold get_middle_frame.
  apply String.eqb_neq in H1, H2. rewrite H1, H2. reflexivity.
Qed.

Lemma middle_frame_unsupported_method_witness :
  get_middle_frame mid_range round_to_python_int ramp3x2x2 "Z"
  = mk_run ["unsupported method"%string] Exits.
Proof.
  apply (@middle_frame_unsupported_method mid_range round_to_python_int ramp3x2x2
           "Z"%string); discriminate.
Defined.

(** X24. The middle slice by position and the seeds go together: for a
    stack of at least two slices, [get_middle_frame] with the method ['z']
    returns the slice [d // 2], which is not the slice 0, so that
    [get_3dseed_from_mid_frame] with a background seed leaves the whole
    slice 0 at 1 and writes the seeds of the regions in the slice [d // 2]
    only. *)
Theorem middle_frame_z_seeds {A} `{Scalar A}
        (threshold_otsu : ndarray Q -> result Q)
        (round_astype_int : float -> result Z)
        (remove_small_objects : ndarray bool -> Z -> ndarray bool)
        (label : ndarray bool -> nat -> ndarray nat)
        (regionprops : ndarray nat -> list region)
        (img : ndarray Q) (bw : ndarray A) (d h w : nat) (hole_min : Z) :
  shape img = [d; h; w] -> 2 <= d ->
  Forall (fun r => centroid_in_plane h w r = true)
         (seed_regions remove_small_objects label regionprops bw hole_min) ->
  exists seed,
    get_middle_frame threshold_otsu round_astype_int img "z"
    = mk_run [] (Returns (Z.of_nat (d / 2)))
    /\ get_3dseed_from_mid_frame remove_small_objects label regionprops bw
         (shape img) (Z.of_nat (d / 2)) hole_min true = Ok seed
    /\ (forall p, p < h * w -> nth p (data seed) 0%Q = 1%Q)
    /\ (forall p, h * w <= p -> nth p (data seed) 0%Q <> 0%Q ->
                  d / 2 * (h * w) <= p < S (d / 2) * (h * w)).
Proof.
  intros Hs Hd Hstat.
  assert (Hhalf : 1 <= d / 2 < d).
  { split.
    - apply Nat.div_le_lower_bound; lia.
    - apply Nat.div_lt; lia. }
  assert (Hm : (- Z.of_nat d <= Z.of_nat (d / 2) < Z.of_nat d)%Z) by lia.
  destruct (@seed_volume_data A _ remove_small_objects label regionprops bw
              d h w (Z.of_nat (d / 2)) hole_min true Hm Hstat)
    as [seed [E [_ [_ Hn]]]].
  rewrite Z.mod_small, Nat2Z.id in Hn by lia.
  assert (Hoff : forall p i,
            seed_id_at
              (map (seed_offset (d / 2) h w)
                   (seed_regions remove_small_objects label regionprops bw
                                 hole_min)) 1 p = Some i ->
            d / 2 * (h * w) <= p < S (d / 2) * (h * w)).
  { intros p i Ei. apply seed_id_at_In in Ei. apply in_map_iff in Ei.
    destruct Ei as [r [Er Hr]]. rewrite Forall_forall in Hstat.
    pose proof (@seed_offset_plane d h w (Z.of_nat (d / 2)) r
                  (Hstat r Hr)) as Ho.
    rewrite Z.mod_small, Nat2Z.id in Ho by lia. now rewrite Er in Ho. }
  exists seed. split.
  { unfold get_middle_frame. cbn [String.eqb Ascii.eqb Bool.eqb].
    unfold shape0. rewrite Hs. reflexivity. }
  split; [rewrite Hs; exact E|]. split.
  - intros p Hp. rewrite Hn.
    destruct (seed_id_at _ 1 p) as [i|] eqn:Ei.
    + apply Hoff in Ei. nia.
    + apply Nat.ltb_lt in Hp. now rewrite Hp.
  - intros p Hp Hnz. rewrite Hn in Hnz.
    destruct (seed_id_at _ 1 p) as [i|] eqn:Ei; [now apply Hoff in Ei|].
    apply Nat.ltb_ge in Hp. rewrite Hp in Hnz. now cbn in Hnz.
Qed.

Lemma middle_frame_z_seeds_witness :
  exists seed,
    get_middle_frame mid_range round_to_python_int ramp3x2x2 "z"
    = mk_run [] (Returns (Z.of_nat (3 / 2)))
    /\ get_3dseed_from_mid_frame remove_small flood_label region_means dot2x2
         (shape ramp3x2x2) (Z.of_nat (3 / 2)) 1 true = Ok seed
    /\ (forall p, p < 2 * 2 -> nth p (data seed) 0%Q = 1%Q)
    /\ (forall p, 2 * 2 <= p -> nth p (data seed) 0%Q <> 0%Q ->
                  3 / 2 * (2 * 2) <= p < S (3 / 2) * (2 * 2)).
Proof.
  apply (@middle_frame_z_seeds Z _ mid_range round_to_python_int remove_small
           flood_label region_means ramp3x2x2 dot2x2 3 2 2 1).
  - reflexivity.
  - lia.
  - vm_compute. repeat constructor.
Defined.

(** ** levelset_segmentation *)

(** X25. The initial level set of a boolean seed has the shape of the
    seed, is 0 on the outer boundary that [find_boundaries] returns, is
    nowhere positive on the seed and nowhere negative off it: the
    difference of the two distance transforms is minus the depth inside the
    seed and the distance to the seed outside. *)
Theorem init_levelset_signs
        (find_boundaries : ndarray bool -> nat -> ndarray bool)
        (distance_transform_edt : ndarray bool -> ndarray Q)
        (seed : ndarray bool) :
  (forall c, shape_preserving (fun x => find_boundaries x c)) ->
  shape_preserving distance_transform_edt ->
  zero_at_zeros distance_transform_edt ->
  (forall x p, 0 <= nth p (data (distance_transform_edt x)) 0)%Q ->
  exists init,
    init_levelset_of find_boundaries distance_transform_edt seed = Ok init
    /\ shape init = shape seed
    /\ length (data init) = length (data seed)
    /\ forall p, p < length (data seed) ->
         (nth p (data (find_boundaries seed 1)) false = true ->
          nth p (data init) 0%Q = 0%Q)
         /\ (nth p (data seed) false = true -> (nth p (data init) 0 <= 0)%Q)
         /\ (nth p (data seed) false = false -> (0 <= nth p (data init) 0)%Q).
Proof.
  intros Hfb Hedt Hzero Hpos.
  set (A := distance_transform_edt (invert seed)).
  set (B := distance_transform_edt seed).
  set (L := find_boundaries seed 1).
  assert (HsA : shape A = shape seed) by apply (proj1 (Hedt (invert seed))).
  assert (HsB : shape B = shape seed) by apply (proj1 (Hedt seed)).
  assert (HsL : shape L = shape seed) by apply (proj1 (Hfb 1 seed)).
  assert (HlA : length (data A) = length (data seed)).
  { unfold A. rewrite (proj2 (Hedt _)). simpl. apply length_map. }
  assert (HlB : length (data B) = length (data seed))
    by apply (proj2 (Hedt seed)).
  assert (HlL : length (data L) = length (data seed))
    by apply (proj2 (Hfb 1 seed)).
  eexists. split.
  { unfold init_levelset_of. fold A B L.
    rewrite elementwise_ok by congruence. cbn [bind]. unfold set_where.
    rewrite elementwise_ok by (cbn [shape]; congruence). reflexivity. }
  cbn [shape data].
  assert (Hlz : length (zip_with Qminus (data A) (data B))
                = length (data seed))
    by (rewrite zip_with_length; congruence).
  split; [exact HsA|]. split; [rewrite zip_with_length; congruence|].
  intros p Hp.
  rewrite (zip_with_nth _ _ _ 0%Q false) by congruence.
  rewrite (zip_with_nth _ _ _ 0%Q 0%Q) by congruence.
  split; [intros ->; reflexivity|].
  destruct (nth p (data L) false).
  { split; intros _; apply Qle_refl. }
  split; intros Hseed.
  - assert (E : (nth p (data A) 0 == 0)%Q).
    { apply Hzero.
      - simpl. rewrite length_map. exact Hp.
      - cbn [data invert map_nd].
        rewrite (map_nth_lt _ _ false false) by assumption.
        now rewrite Hseed. }
    pose proof (Hpos seed p) as HB. fold B in HB. lra.
  - assert (E : (nth p (data B) 0 == 0)%Q) by (apply Hzero; assumption).
    pose proof (Hpos (invert seed) p) as HA. fold A in HA. lra.
Qed.

Lemma two_off_zero_nonneg (x : ndarray bool) (p : nat) :
  (0 <= nth p (data (two_off_zero x)) 0)%Q.
Proof.
  unfold two_off_zero. cbn [data map_nd].
  destruct (Nat.lt_ge_cases p (length (data x))) as [Hp|Hp].
  - rewrite (map_nth_lt _ _ false 0%Q) by assumption.
    destruct (nth p (data x) false); discriminate.
  - rewrite nth_overflow by (now rewrite length_map). apply Qle_refl.
Qed.

Lemma no_boundary_shape c : shape_preserving (fun x => no_boundary x c).
Proof. intros x. split; [reflexivity|apply length_map]. Qed.

Lemma init_levelset_signs_witness :
  exists init,
    init_levelset_of no_boundary two_off_zero centre_seed = Ok init
    /\ nth 13 (data init) 0%Q = (0 - 2)%Q
    /\ nth 0 (data init) 0%Q = (2 - 0)%Q
    /\ forall p, p < length (data centre_seed) ->
         (nth p (data (no_boundary centre_seed 1)) false = true ->
          nth p (data init) 0%Q = 0%Q)
         /\ (nth p (data centre_seed) false = true ->
             (nth p (data init) 0 <= 0)%Q)
         /\ (nth p (data centre_seed) false = false ->
             (0 <= nth p (data init) 0)%Q).
Proof.
  destruct (@init_levelset_signs no_boundary two_off_zero centre_seed
              no_boundary_shape two_off_zero_shape two_off_zero_zero
              two_off_zero_nonneg) as [init [E [_ [_ Hn]]]].
  exists init. split; [exact E|].
  assert (E' : init_levelset_of no_boundary two_off_zero centre_seed
               = Ok (mk_ndarray [3; 3; 3]
                       (map (fun p => if p =? 13 then (0 - 2)%Q else (2 - 0)%Q)
                            (seq 0 27))))
    by reflexivity.
  rewrite E' in E. injection E as <-.
  split; [reflexivity|]. split; [reflexivity|exact Hn].
Defined.

Lemma gt0_binarised (ls : ndarray Q) :
  gt0 (map_nd (fun x => if Qlt_bool 0 x then 1%Z else 0%Z) ls)
  = map_nd (fun x => Qlt_bool 0 x) ls.
Proof.
  unfold gt0, map_nd. cbn [shape data]. f_equal. rewrite map_map.
  apply map_ext. intros x. cbn [positive Scalar_Z].
  destruct (Qlt_bool 0 x); reflexivity.
Qed.

(** X26. What the post-processing lets through: when the filter returns a
    3D level set [ls], [levelset_segmentation] prints nothing and returns
    an array of zeros and ones of the shape of [ls]; a voxel that is 1 is a
    voxel where [ls] is positive, or a voxel of a connected component (6
    neighbours) of the other voxels that has between 100 and 1500 voxels:
    the holes that [hole_filling] fills before the opening. *)
Theorem levelset_foreground
        (find_boundaries : ndarray bool -> nat -> ndarray bool)
        (distance_transform_edt : ndarray bool -> ndarray Q)
        (chan_vese : chan_vese_parameters -> ndarray Q -> ndarray Q
                     -> result (ndarray Q))
        (label : ndarray bool -> nat -> ndarray nat)
        (footprint : Type) (ball : Z -> footprint)
        (binary_opening : option (ndarray bool) -> footprint
                          -> result (ndarray bool))
        (smooth_img : ndarray Q) (seed : ndarray bool) (niter : Z)
        (max_error epsilon curvature_weight smoothing_weight : Q)
        (init ls : ndarray Q) :
  label_contract label ->
  opening_shrinks binary_opening ->
  init_levelset_of find_boundaries distance_transform_edt seed = Ok init ->
  chan_vese (levelset_parameters niter max_error epsilon curvature_weight
                                 smoothing_weight) init smooth_img = Ok ls ->
  ndim ls = 3 ->
  let foreground := map_nd (fun x => Qlt_bool 0 x) ls in
  exists out,
    levelset_segmentation find_boundaries distance_transform_edt chan_vese
      label ball binary_opening smooth_img seed niter max_error epsilon
      curvature_weight smoothing_weight = mk_call [] (RetVal out)
    /\ shape out = shape ls
    /\ forall p, p < length (data ls) ->
         (nth p (data out) 0%Z = 0%Z \/ nth p (data out) 0%Z = 1%Z)
         /\ (nth p (data out) 0%Z = 1%Z ->
             (0 < nth p (data ls) 0)%Q
             \/ forall comp,
                 NoDup comp ->
                 (forall q, In q comp <-> connected 1 (invert foreground) p q) ->
                 (100 <= Z.of_nat (length comp) <= 1500)%Z).
Proof.
  intros Hl Hop Einit Els Hd foreground.
  set (out0 := map_nd (fun x => if Qlt_bool 0 x then 1%Z else 0%Z) ls).
  assert (Hfill : hole_filling label out0 100 1500 false
                  = mk_call [] (RetVal (mk_ndarray (shape out0)
                      (zip_with orb (data (gt0 out0))
                         (component_fill label (gt0 out0) 100 1500))))).
  { apply hole_filling_whole; auto. }
  assert (Hg : gt0 out0 = foreground) by apply gt0_binarised.
  rewrite Hg in Hfill.
  set (filled := mk_ndarray (shape out0)
                   (zip_with orb (data foreground)
                      (component_fill label foreground 100 1500))) in *.
  destruct (Hop filled (ball 4%Z)) as [o [Eo [Hso [Hlo Hsub]]]].
  assert (Hlf : length (data foreground) = length (data ls))
    by (simpl; apply length_map).
  assert (Hlfilled : length (data filled) = length (data ls)).
  { unfold filled. cbn [data]. rewrite zip_with_length; [exact Hlf|].
    now rewrite (component_fill_length Hl). }
  eexists. split.
  { unfold levelset_segmentation. rewrite Einit. cbn [bind].
    fold (levelset_parameters niter max_error epsilon curvature_weight
                              smoothing_weight).
    rewrite Els. fold out0. rewrite Hfill. cbn [retval stdout].
    rewrite Eo. reflexivity. }
  cbn [shape data map_nd]. split; [exact Hso|].
  intros p Hp.
  rewrite (map_nth_lt _ _ false 0%Z) by lia.
  destruct (nth p (data o) false) eqn:Ep; [|split; [now left|discriminate]].
  split; [now right|]. intros _.
  apply Hsub in Ep. unfold filled in Ep. cbn [data] in Ep.
  rewrite zip_orb_nth in Ep by now rewrite (component_fill_length Hl).
  destruct (nth p (data foreground) false) eqn:Efg.
  - left. unfold foreground in Efg. cbn [data map_nd] in Efg.
    rewrite (map_nth_lt _ _ 0%Q false) in Efg by assumption.
    now apply Qlt_bool_iff.
  - right. intros comp Hnd Hcomp. cbn [orb] in Ep.
    apply (@component_fill_background label Hl foreground 100 1500 p comp);
      auto.
    lia.
Qed.

Lemma open_nothing_shrinks : opening_shrinks open_nothing.
Proof. intros x fp. exists x. repeat split; auto. Qed.

Lemma levelset_foreground_witness :
  exists out,
    levelset_segmentation no_boundary two_off_zero pass_image flood_label
      unit_ball open_nothing bright_shell centre_seed 10 0 1 0 0
    = mk_call [] (RetVal out)
    /\ shape out = shape bright_shell
    /\ nth 13 (data out) 0%Z = 0%Z
    /\ nth 0 (data out) 0%Z = 1%Z.
Proof.
  destruct (@levelset_foreground no_boundary two_off_zero pass_image
              flood_label unit unit_ball open_nothing bright_shell
              centre_seed 10 0 1 0 0
              (mk_ndarray [3; 3; 3]
                 (map (fun p => if p =? 13 then (0 - 2)%Q else (2 - 0)%Q)
                      (seq 0 27)))
              bright_shell flood_label_ok open_nothing_shrinks)
    as [out [E [Hs _]]]; [reflexivity|reflexivity|reflexivity|].
  exists out. split; [exact E|]. split; [exact Hs|].
  assert (E' : levelset_segmentation no_boundary two_off_zero pass_image
                 flood_label unit_ball open_nothing bright_shell centre_seed
                 10 0 1 0 0
               = mk_call [] (RetVal (map_nd (fun x : Q =>
                                               if Qlt_bool 0 x then 1%Z
                                               else 0%Z) bright_shell)))
    by (vm_compute; reflexivity).
  rewrite E' in E. injection E as <-. split; reflexivity.
Defined.
